(** * pyarmor/cli/project.py: the project model

    A shallow embedding of [pyarmor/cli/project.py] (Pyarmor 9.1): the
    file-system helpers [scan_path] and [search_item], the classes
    [Module], [Script], [Package], [Namespace] and [Project], and the
    diagnostic logs of [Project].

    Python objects live in a heap and are named by their address, so that
    "the same object" is equality of addresses.  Methods are computations
    in a state-and-exception monad over the heap, the project object and a
    trace of the directories that were scanned.  The operating system
    ([os.path], [glob], [os.scandir], [fnmatch]) is a record of functions
    the model is parameterised by; a POSIX instance over a small directory
    table is used for the concrete examples. *)

From Stdlib Require Import Ascii String ZArith Lia.
From stdpp Require Import gmap strings list.

Open Scope string_scope.
Open Scope list_scope.

(** ** Python string operations used by the source *)

Module PyStr.

Definition is_empty (s : string) : bool :=
  match s with EmptyString => true | _ => false end.

(** Truth value of a [str]: non-empty. *)
Definition truthy (s : string) : bool := negb (is_empty s).

(** A text is held as its UTF-8 bytes.  White space is what
    [str.split()] and [str.strip()] take for it: the ASCII characters
    TAB, LF, VT, FF, CR, FS, GS, RS, US and SPACE, and U+0085, U+00A0,
    U+1680, U+2000 to U+200A, U+2028, U+2029, U+202F, U+205F and U+3000.
    [is_ws] is the test for the ASCII ones. *)
Definition is_ws (c : ascii) : bool :=
  let n := nat_of_ascii c in
  (((9 <=? n) && (n <=? 13)) || ((28 <=? n) && (n <=? 32)))%nat.

Definition byte_is (c : ascii) (n : nat) : bool := (nat_of_ascii c =? n)%nat.

(** The second and third byte of a white-space character of three
    bytes, after the first byte [c]. *)
Definition ws3 (c d e : ascii) : bool :=
  let n := nat_of_ascii e in
  (byte_is c 225 && byte_is d 154 && byte_is e 128)
  || (byte_is c 226 && byte_is d 128 &&
      (((128 <=? n) && (n <=? 138)) || (n =? 168) || (n =? 169) || (n =? 175))%nat)
  || (byte_is c 226 && byte_is d 129 && byte_is e 159)
  || (byte_is c 227 && byte_is d 128 && byte_is e 128).

(** The number of bytes of the white-space character [s] starts with;
    [0] when it starts with none. *)
Definition ws_len (s : string) : nat :=
  match s with
  | EmptyString => 0
  | String c r =>
      if is_ws c then 1
      else
        match r with
        | EmptyString => 0
        | String d r' =>
            if byte_is c 194 && (byte_is d 133 || byte_is d 160) then 2
            else
              match r' with
              | EmptyString => 0
              | String e _ => if ws3 c d e then 3 else 0
              end
        end
  end.

(** Every character of [s] is white space.  [skip] counts the bytes of
    the current character still to pass. *)
Fixpoint all_ws_aux (skip : nat) (s : string) : bool :=
  match s with
  | EmptyString => true
  | String c r =>
      match skip with
      | S k => all_ws_aux k r
      | 0 =>
          match ws_len s with
          | S k => all_ws_aux k r
          | 0 => false
          end
      end
  end.

Fixpoint lstrip_ws_aux (skip : nat) (s : string) : string :=
  match s with
  | EmptyString => EmptyString
  | String c r =>
      match skip with
      | S k => lstrip_ws_aux k r
      | 0 =>
          match ws_len s with
          | S k => lstrip_ws_aux k r
          | 0 => s
          end
      end
  end.

(** [s.lstrip()] *)
Definition lstrip (s : string) : string := lstrip_ws_aux 0 s.

(** [s.rstrip()]: the text up to the point from which white space
    alone follows. *)
Fixpoint rstrip (s : string) : string :=
  match s with
  | EmptyString => EmptyString
  | String c r => if all_ws_aux 0 s then EmptyString else String c (rstrip r)
  end.

Definition mem_char (c : ascii) (chars : string) : bool :=
  existsb (Ascii.eqb c) (list_ascii_of_string chars).

Fixpoint lstrip_by (f : ascii -> bool) (s : string) : string :=
  match s with
  | EmptyString => EmptyString
  | String c r => if f c then lstrip_by f r else s
  end.

Fixpoint rstrip_by (f : ascii -> bool) (s : string) : string :=
  match s with
  | EmptyString => EmptyString
  | String c r =>
      match rstrip_by f r with
      | EmptyString => if f c then EmptyString else String c EmptyString
      | r' => String c r'
      end
  end.

(** [s.strip()] *)
Definition strip (s : string) : string := rstrip (lstrip s).

(** [s.strip(chars)] for ASCII [chars]; with [chars = ''] nothing is
    removed. *)
Definition strip_chars (chars s : string) : string :=
  rstrip_by (fun c => mem_char c chars) (lstrip_by (fun c => mem_char c chars) s).

(** [s.split()]: maximal runs of characters that are not white space.
    [cur] is the word being read, [skip] counts the bytes of a
    white-space character still to pass. *)
Fixpoint split_ws_aux (cur : option string) (skip : nat) (s : string) : list string :=
  match s with
  | EmptyString =>
      match cur with Some w => [w] | None => [] end
  | String c r =>
      match skip with
      | S k => split_ws_aux cur k r
      | 0 =>
          match ws_len s with
          | S k =>
              match cur with
              | Some w => w :: split_ws_aux None k r
              | None => split_ws_aux None k r
              end
          | 0 =>
              split_ws_aux
                (Some (match cur with Some w => w +:+ String c "" | None => String c "" end))
                0 r
          end
      end
  end.

Definition split_ws (s : string) : list string := split_ws_aux None 0 s.

(** [s.split(sep)] for a one-character separator: one more field than
    there are separators. *)
Fixpoint split (sep : ascii) (s : string) : list string :=
  match s with
  | EmptyString => [EmptyString]
  | String c r =>
      if Ascii.eqb c sep then EmptyString :: split sep r
      else match split sep r with
           | w :: ws => String c w :: ws
           | [] => [String c EmptyString]
           end
  end.

(** Number of occurrences of a character. *)
Fixpoint count (c : ascii) (s : string) : nat :=
  match s with
  | EmptyString => 0
  | String d r => (if Ascii.eqb d c then 1 else 0) + count c r
  end.

(** [s.find(c)] for a one-character needle: the first index, or -1. *)
Fixpoint find (c : ascii) (s : string) : Z :=
  match s with
  | EmptyString => (-1)%Z
  | String d r =>
      if Ascii.eqb d c then 0%Z
      else match find c r with
           | Zneg _ => (-1)%Z
           | i => (i + 1)%Z
           end
  end.

Fixpoint rev_acc (s acc : string) : string :=
  match s with
  | EmptyString => acc
  | String c r => rev_acc r (String c acc)
  end.

(** [s.endswith(suf)] *)
Definition endswith (s suf : string) : bool :=
  String.prefix (rev_acc suf "") (rev_acc s "").

(** [s.replace(old, new)] for a non-empty [old]: left to right, without
    overlap.  [skip] counts the characters of a match still to drop. *)
Fixpoint replace_aux (old new : string) (skip : nat) (s : string) : string :=
  match s with
  | EmptyString => EmptyString
  | String c r =>
      match skip with
      | S k => replace_aux old new k r
      | 0 =>
          if String.prefix old s
          then new +:+ replace_aux old new (String.length old - 1) r
          else String c (replace_aux old new 0 r)
      end
  end.

Definition replace (old new s : string) : string :=
  if is_empty old then
    new +:+ String.concat "" (map (fun c => String c new) (list_ascii_of_string s))
  else replace_aux old new 0 s.

(** ['sep'.join(l)] *)
Definition join (sep : string) (l : list string) : string := String.concat sep l.

End PyStr.


(** ** Exceptions, results and the ['%'] operator *)

(** The exception classes the modelled code can raise. *)
Inductive exn : Type :=
| KeyError (key : string)
| IndexError
| TypeError
| ValueError
| AttributeError
| RecursionError.

Inductive result (A : Type) : Type :=
| Ok (a : A)
| Raise (e : exn).

Arguments Ok {A} a.
Arguments Raise {A} e.

(** The right operand of ['fmt' % operand]: a tuple supplies one argument
    per item, any other object (here: a list) is one single argument. *)
Inductive operand : Type :=
| Tuple (items : list string)
| ListObj (items : list string).

(** [str()] of a list of strings, for a list used as the single argument
    of a conversion (quotes inside the items are not escaped). *)
Definition list_str (items : list string) : string :=
  "[" +:+ PyStr.join ", " (map (fun s => "'" +:+ s +:+ "'") items) +:+ "]".

(** Expansion of a format made of text, [%s] and [%%]: the text produced
    and the arguments left over.  Running out of arguments is the
    [TypeError] "not enough arguments for format string". *)
Fixpoint fill (fmt : string) (args : list string) : result (string * list string) :=
  match fmt with
  | EmptyString => Ok (EmptyString, args)
  | String "%" (String "s" r) =>
      match args with
      | [] => Raise TypeError
      | a :: args' =>
          match fill r args' with
          | Ok (t, rest) => Ok (a +:+ t, rest)
          | Raise e => Raise e
          end
      end
  | String "%" (String "%" r) =>
      match fill r args with
      | Ok (t, rest) => Ok (String "%" t, rest)
      | Raise e => Raise e
      end
  | String "%" _ => Raise ValueError
  | String c r =>
      match fill r args with
      | Ok (t, rest) => Ok (String c t, rest)
      | Raise e => Raise e
      end
  end.

(** [fmt % operand]; arguments left over are the [TypeError] "not all
    arguments converted during string formatting" (raised for a tuple
    only: a lone list operand is exempt, as CPython treats it as a
    mapping). *)
Definition str_mod (fmt : string) (o : operand) : result string :=
  match o with
  | Tuple items =>
      match fill fmt items with
      | Ok (t, []) => Ok t
      | Ok (_, _ :: _) => Raise TypeError
      | Raise e => Raise e
      end
  | ListObj items =>
      match fill fmt [list_str items] with
      | Ok (t, _) => Ok t
      | Raise e => Raise e
      end
  end.

(** ** The operating system *)

(** An entry of [os.scandir]: its name and the answers of
    [is_dir(follow_symlinks=False)] and [is_file(follow_symlinks=False)]. *)
Record DirEntry : Type := mkDirEntry {
  de_name : string;
  de_is_dir : bool;
  de_is_file : bool
}.

(** What the source imports from [os], [os.path], [glob] and [fnmatch],
    and the depth at which the interpreter gives up a recursion.
    [relpath path start], [glob pattern recursive] and
    [fnmatch name pattern] take their arguments in Python's order.
    [glob] is [glob.glob] as a whole, what it reads of the file system
    to resolve a pattern included.  [recursion_limit] is the number of
    nested generators of [iter_module] the interpreter has room for
    before it raises [RecursionError]; it is smaller than
    [sys.getrecursionlimit()], which counts every frame.  The functions
    are total: [scandir] says what a directory holds where it can be
    listed; the failures of the operating system are the matter of
    [os_run] below. *)
Record Host : Type := mkHost {
  os_sep : string;
  isabs : string -> bool;
  joinpath : string -> string -> string;
  basename : string -> string;
  splitext : string -> string * string;
  normpath : string -> string;
  relpath : string -> string -> string;
  os_abspath : string -> string;
  path_exists : string -> bool;
  glob : string -> bool -> list string;
  scandir : string -> list DirEntry;
  fnmatch : string -> string -> bool;
  recursion_limit : nat
}.

Definition GLOBAL_EXCLS : list string := [".*"; "__pycache__"].
Definition GLOBAL_INCLS : list string := ["*.py"; "*.pyw"].

(** ** Objects *)

(** Addresses of code units in the heap; allocation takes the next one. *)
Abbreviation addr := nat (only parsing).

(** The classes [Module], [Script(Module)] and [Package(Module)]. *)
Inductive Kind : Type := KModule | KScript | KPackage.

(** The [parent] attribute: [None], the project, or a code unit. *)
Inductive Parent : Type :=
| PNone
| PProject
| PUnit (a : addr).

Module Unit.

(** The attributes of a [Module] object the model follows; [_modules] and
    [_packages] exist on a [Package] only, where [None] is the "not yet
    loaded" sentinel. *)
Record t : Type := mk {
  kind : Kind;
  parent : Parent;
  _path : string;
  _name : string;
  _modules : option (list addr);
  _packages : option (list addr)
}.

Definition set_children (ms ps : option (list addr)) (u : t) : t :=
  mk (kind u) (parent u) (_path u) (_name u) ms ps.

End Unit.

(** [class Namespace]: no attribute the model follows, and in particular
    no [iter_module]. *)
Inductive Namespace : Type := mkNamespace.

Module Proj.

(** The attributes of the [Project] object.  [ctx] is reduced to its
    [local_path]; the refactoring options, [_builtins] and the dictionary
    [unknown_attrs], which no method of the file writes, are left out. *)
Record t : Type := mk {
  ctx_local_path : string;
  src : string;
  _scripts : list addr;
  _modules : list addr;
  _packages : list addr;
  _namespaces : list Namespace;
  _rmodules : option (gmap string addr);
  unknown_vars : list string;
  unknown_calls : list string;
  unknown_args : list string
}.

(** [Project.__init__(ctx)] *)
Definition init (local_path : string) : t :=
  mk local_path "" [] [] [] [] None [] [] [].

Definition set_src (s : string) (p : t) : t :=
  mk (ctx_local_path p) s (_scripts p) (_modules p) (_packages p)
     (_namespaces p) (_rmodules p) (unknown_vars p) (unknown_calls p) (unknown_args p).

Definition set_scripts (l : list addr) (p : t) : t :=
  mk (ctx_local_path p) (src p) l (_modules p) (_packages p)
     (_namespaces p) (_rmodules p) (unknown_vars p) (unknown_calls p) (unknown_args p).

Definition set_modules (l : list addr) (p : t) : t :=
  mk (ctx_local_path p) (src p) (_scripts p) l (_packages p)
     (_namespaces p) (_rmodules p) (unknown_vars p) (unknown_calls p) (unknown_args p).

Definition set_packages (l : list addr) (p : t) : t :=
  mk (ctx_local_path p) (src p) (_scripts p) (_modules p) l
     (_namespaces p) (_rmodules p) (unknown_vars p) (unknown_calls p) (unknown_args p).

Definition set_rmodules (r : option (gmap string addr)) (p : t) : t :=
  mk (ctx_local_path p) (src p) (_scripts p) (_modules p) (_packages p)
     (_namespaces p) r (unknown_vars p) (unknown_calls p) (unknown_args p).

Definition set_unknown_vars (l : list string) (p : t) : t :=
  mk (ctx_local_path p) (src p) (_scripts p) (_modules p) (_packages p)
     (_namespaces p) (_rmodules p) l (unknown_calls p) (unknown_args p).

Definition set_unknown_calls (l : list string) (p : t) : t :=
  mk (ctx_local_path p) (src p) (_scripts p) (_modules p) (_packages p)
     (_namespaces p) (_rmodules p) (unknown_vars p) l (unknown_args p).

Definition set_unknown_args (l : list string) (p : t) : t :=
  mk (ctx_local_path p) (src p) (_scripts p) (_modules p) (_packages p)
     (_namespaces p) (_rmodules p) (unknown_vars p) (unknown_calls p) l.

End Proj.

(** ** The state and its monad *)

(** The heap of code units, the project, the directories that
    [scan_path] handed to [os.scandir] so far (oldest first) and those
    handed to [os.makedirs].  What [glob.glob] lists to resolve a pattern
    is inside the [glob] of the host and not in [scan_log]. *)
Record World : Type := mkWorld {
  heap : list Unit.t;
  project : Proj.t;
  scan_log : list string;
  made_dirs : list string
}.

Definition M (A : Type) : Type := World -> result A * World.

Definition ret {A : Type} (a : A) : M A := fun w => (Ok a, w).

Definition raise {A : Type} (e : exn) : M A := fun w => (Raise e, w).

Definition bind {A B : Type} (c : M A) (k : A -> M B) : M B :=
  fun w =>
    match c w with
    | (Ok a, w') => k a w'
    | (Raise e, w') => (Raise e, w')
    end.

Declare Scope py_scope.
Delimit Scope py_scope with py.

Notation "x <- c ;; k" := (bind c (fun x => k))
  (at level 100, c at next level, right associativity) : py_scope.
Notation "c ;;; k" := (bind c (fun _ => k))
  (at level 100, k at level 200, right associativity) : py_scope.

Open Scope py_scope.

Definition lift {A : Type} (r : result A) : M A := fun w => (r, w).

Definition get_project : M Proj.t := fun w => (Ok (project w), w).

Definition modify_project (f : Proj.t -> Proj.t) : M unit :=
  fun w => (Ok tt, mkWorld (heap w) (f (project w)) (scan_log w) (made_dirs w)).

(** Object creation: the new unit gets the next address. *)
Definition alloc (u : Unit.t) : M addr :=
  fun w => (Ok (length (heap w)),
            mkWorld (heap w ++ [u]) (project w) (scan_log w) (made_dirs w)).

(** Attribute assignment on the unit at [a]. *)
Definition modify_unit (a : addr) (f : Unit.t -> Unit.t) : M unit :=
  fun w =>
    match heap w !! a with
    | Some u => (Ok tt, mkWorld (<[a := f u]> (heap w)) (project w) (scan_log w) (made_dirs w))
    | None => (Raise AttributeError, w)
    end.

Definition log_scan (path : string) : M unit :=
  fun w => (Ok tt, mkWorld (heap w) (project w) (scan_log w ++ [path]) (made_dirs w)).

(** [os.makedirs(path, exist_ok=True)] *)
Definition makedirs (path : string) : M unit :=
  fun w => (Ok tt, mkWorld (heap w) (project w) (scan_log w) (made_dirs w ++ [path])).

(** A comprehension or [for] loop whose body is a computation: the
    results in order; the first exception ends the loop. *)
Fixpoint mapM {A B : Type} (f : A -> M B) (l : list A) : M (list B) :=
  match l with
  | [] => ret []
  | x :: r => y <- f x ;; ys <- mapM f r ;; ret (y :: ys)
  end.

(** A loop that threads an accumulator through its body. *)
Fixpoint foldM {A St : Type} (f : A -> St -> M St) (l : list A) (s : St) : M St :=
  match l with
  | [] => ret s
  | x :: r => s' <- f x s ;; foldM f r s'
  end.

(** ** The functions and methods of [project.py] *)

Section Model.

Variable H : Host.

(** [any([fnmatch(name, x) for x in pats])] *)
Definition any_fnmatch (name : string) (pats : list string) : bool :=
  existsb (fnmatch H name) pats.

(** The loop of [scan_path] over the entries of the directory. *)
Fixpoint scan_entries (xlist excludes : list string) (ets : list DirEntry)
  : list string * list string :=
  match ets with
  | [] => ([], [])
  | et :: r =>
      let '(files, dirs) := scan_entries xlist excludes r in
      if any_fnmatch (de_name et) excludes then (files, dirs)
      else if de_is_dir et then (files, de_name et :: dirs)
      else if de_is_file et && any_fnmatch (de_name et) xlist
           then (de_name et :: files, dirs)
           else (files, dirs)
  end.

(** [scan_path(path, includes=None, excludes=[])]; the directory read is
    recorded in the scan log. *)
Definition scan_path (path : string) (includes : option (list string))
    (excludes : list string) : M (list string * list string) :=
  let xlist := match includes with
               | Some (x :: l) => x :: l
               | _ => GLOBAL_INCLS
               end in
  log_scan path ;;;
  ret (scan_entries xlist excludes (scandir H path)).

(** [search_item(root, pattern, excludes, recursive=0)] *)
Definition search_item (root pattern : string) (excludes : list string)
    (recursive : bool) : list string :=
  if PyStr.is_empty pattern then []
  else
    let sep := if PyStr.endswith pattern (os_sep H) then os_sep H else "" in
    let pt := if isabs H pattern then pattern else joinpath H root pattern in
    let result :=
      filter (fun item =>
                let name := basename H (PyStr.strip_chars sep item) in
                negb (match excludes with [] => false | _ :: _ => true end
                      && any_fnmatch name excludes) = true)
             (glob H pt recursive) in
    map (normpath H) result.

(** [Module.__init__(path, name=None, parent=None)], for the class [k]. *)
Definition Module_init (k : Kind) (path : string) (name : option string)
    (parent : Parent) : Unit.t :=
  let stem := fst (splitext H (basename H path)) in
  Unit.mk k parent path
    (match name with
     | Some n => if PyStr.truthy n then n else stem
     | None => stem
     end)
    None None.

(** Property [Module.name] *)
Definition Module_name (u : Unit.t) : string :=
  if String.eqb (Unit._name u) "__init__" then "" else Unit._name u.

(** Property [Module.qualname], following the [parent] references; [fuel]
    bounds the depth of the recursion.  An address outside the heap has
    no counterpart in Python; the lookup raises there. *)
Fixpoint qualname_rec (fuel : nat) (h : list Unit.t) (a : addr) : result string :=
  match fuel with
  | 0 => Raise RecursionError
  | S n =>
      match h !! a with
      | None => Raise AttributeError
      | Some u =>
          match Unit.parent u with
          | PNone | PProject => Ok (Unit._name u)
          | PUnit p =>
              match qualname_rec n h p with
              | Ok pq =>
                  let prefix :=
                    pq +:+ (if PyStr.truthy (Module_name u) then "." else "") in
                  Ok (prefix +:+ Module_name u)
              | Raise e => Raise e
              end
          end
      end
  end.

(** A chain of parents without a cycle visits every object at most once,
    so the size of the heap is fuel enough; a cycle is Python's
    [RecursionError].  The interpreter's own limit on the length of a
    chain without a cycle is not part of the model. *)
Definition qualname (w : World) (a : addr) : result string :=
  qualname_rec (length (heap w)) (heap w) a.

Definition Module_qualname (a : addr) : M string :=
  fun w => (qualname w a, w).

(** Property [Project.abspath] *)
Definition Project_abspath (p : Proj.t) : string := os_abspath H (Proj.src p).

(** Property [Module.abspath] *)
Fixpoint abspath_rec (fuel : nat) (h : list Unit.t) (p : Proj.t) (a : addr)
  : result string :=
  match fuel with
  | 0 => Raise RecursionError
  | S n =>
      match h !! a with
      | None => Raise AttributeError
      | Some u =>
          if isabs H (Unit._path u) then Ok (Unit._path u)
          else
            match Unit.parent u with
            | PNone => Raise AttributeError
            | PProject => Ok (joinpath H (Project_abspath p) (Unit._path u))
            | PUnit q =>
                match abspath_rec n h p q with
                | Ok d => Ok (joinpath H d (Unit._path u))
                | Raise e => Raise e
                end
            end
      end
  end.

Definition Module_abspath (a : addr) : M string :=
  fun w => (abspath_rec (length (heap w)) (heap w) (project w) a, w).

(** The object at [a], which must be a [Package]: a method of [Package]
    does not exist on anything else. *)
Definition get_package (a : addr) : M Unit.t :=
  fun w =>
    match heap w !! a with
    | Some u =>
        match Unit.kind u with
        | KPackage => (Ok u, w)
        | _ => (Raise AttributeError, w)
        end
    | None => (Raise AttributeError, w)
    end.

(** [Package.load()] *)
Definition Package_load (a : addr) : M unit :=
  _ <- get_package a ;;
  dir <- Module_abspath a ;;
  fd <- scan_path dir None GLOBAL_EXCLS ;;
  ms <- mapM (fun x => alloc (Module_init KModule x None (PUnit a))) (fst fd) ;;
  modify_unit a (fun u => Unit.set_children (Some ms) (Unit._packages u) u) ;;;
  ps <- mapM (fun x => alloc (Module_init KPackage x None (PUnit a))) (snd fd) ;;
  modify_unit a (fun u => Unit.set_children (Unit._modules u) (Some ps) u).

(** Iterating a list attribute that may still be [None]. *)
Definition iter_attr (l : option (list addr)) : M (list addr) :=
  match l with
  | Some xs => ret xs
  | None => raise TypeError
  end.

(** Property [Package.modules], consumed to its end ([list(p.modules)]). *)
Definition Package_modules (a : addr) : M (list addr) :=
  u <- get_package a ;;
  match Unit._modules u with
  | None => Package_load a
  | Some _ => ret tt
  end ;;;
  u' <- get_package a ;;
  iter_attr (Unit._modules u').

(** Property [Package.packages], consumed to its end. *)
Definition Package_packages (a : addr) : M (list addr) :=
  u <- get_package a ;;
  match Unit._packages u with
  | None => Package_load a
  | Some _ => ret tt
  end ;;;
  u' <- get_package a ;;
  iter_attr (Unit._packages u').

(** [Package.iter_module()], consumed by a loop with body [body] that
    threads an accumulator: the body runs at each [yield], between the
    lazy loads.  [depth] is the number of nested generators allowed. *)
Fixpoint Package_iter_module {St : Type} (depth : nat) (a : addr)
    (body : addr -> St -> M St) (s : St) : M St :=
  match depth with
  | 0 => raise RecursionError
  | S d =>
      u <- get_package a ;;
      match Unit._modules u, Unit._packages u with
      | Some _, Some _ => ret tt
      | _, _ => Package_load a
      end ;;;
      u1 <- get_package a ;;
      ms <- iter_attr (Unit._modules u1) ;;
      s1 <- foldM body ms s ;;
      u2 <- get_package a ;;
      ps <- iter_attr (Unit._packages u2) ;;
      foldM (fun pkg s' => Package_iter_module d pkg body s') ps s1
  end.

(** [Project.iter_module()], consumed by a loop with body [body]. *)
Definition Project_iter_module {St : Type} (body : addr -> St -> M St) (s : St)
  : M St :=
  p <- get_project ;;
  s1 <- foldM body (Proj._modules p) s ;;
  p' <- get_project ;;
  s2 <- foldM (fun child s' => Package_iter_module (recursion_limit H) child body s')
              (Proj._packages p') s1 ;;
  match Proj._namespaces p' with
  | [] => ret s2
  | _ :: _ => raise AttributeError
  end.

(** One step of the comprehension [{x.qualname: x for x in ...}]: a later
    unit takes the place of an earlier one of the same qualname. *)
Definition index_unit (x : addr) (idx : gmap string addr) : M (gmap string addr) :=
  q <- Module_qualname x ;; ret (<[q := x]> idx).

(** [Project.get_module(qualname)]; [None] is "not found". *)
Definition Project_get_module (name : string) : M (option addr) :=
  p <- get_project ;;
  match Proj._rmodules p with
  | None =>
      idx <- Project_iter_module index_unit ∅ ;;
      modify_project (Proj.set_rmodules (Some idx))
  | Some _ => ret tt
  end ;;;
  p' <- get_project ;;
  match Proj._rmodules p' with
  | Some idx => ret (idx !! name)
  | None => raise AttributeError
  end.

(** [Project.relsrc(path)] *)
Definition Project_relsrc (path : string) : M string :=
  p <- get_project ;; ret (relpath H path (Proj.src p)).

(** The local function [vlist] of [Project.load]. *)
Definition vlist (data : gmap string string) (name : string) : list string :=
  map (fun x => PyStr.replace "%20%" " " (PyStr.strip x))
      (PyStr.split_ws (default "" (data !! name))).

(** [l.remove(x)]: the first occurrence goes; [ValueError] if there is none. *)
Fixpoint list_remove (x : string) (l : list string) : result (list string) :=
  match l with
  | [] => Raise ValueError
  | y :: r =>
      if String.eqb y x then Ok r
      else match list_remove x r with
           | Ok r' => Ok (y :: r')
           | Raise e => Raise e
           end
  end.

(** [set(xs) & set(ys)], listed in the order of [xs]. *)
Definition set_inter (xs ys : list string) : list string :=
  remove_dups (filter (fun x => x ∈ ys) xs).

(** The loop [for x in set(scripts) & set(modules): modules.remove(x)]
    over the elements [xs] of the intersection. *)
Fixpoint remove_each (xs : list string) (modules : list string) : result (list string) :=
  match xs with
  | [] => Ok modules
  | x :: r =>
      match list_remove x modules with
      | Ok modules' => remove_each r modules'
      | Raise e => Raise e
      end
  end.

(** One turn of the loop over the [packages] items of [Project.load]. *)
Definition load_package_item (src item : string) : M unit :=
  let i := PyStr.find "@" item in
  if (i =? 0)%Z then ret tt
  else
    pn <- (if (i =? -1)%Z then ret (item, basename H item)
           else match PyStr.split "@" item with
                | [path; pkgname] => ret (path, pkgname)
                | _ => raise ValueError
                end) ;;
    let path := if isabs H (fst pn) then fst pn else joinpath H src (fst pn) in
    obj <- alloc (Module_init KPackage path (Some (snd pn)) PProject) ;;
    modify_project (fun p => Proj.set_packages (Proj._packages p ++ [obj]) p).

(** The part of [Project.load] that fills in the packages when there is
    no [packages] item; it returns the list [modules], extended or not. *)
Definition load_default (src : string) (name : option string)
    (excludes scripts modules : list string) : M (list string) :=
  match modules, scripts with
  | [], [] =>
      let pkginit := joinpath H src "__init__.py" in
      if path_exists H pkginit then
        let pkgname := match name with
                       | Some n => if PyStr.truthy n then n else basename H src
                       | None => basename H src
                       end in
        obj <- alloc (Module_init KPackage src (Some pkgname) PProject) ;;
        modify_project (fun p => Proj.set_packages (Proj._packages p ++ [obj]) p) ;;;
        ret modules
      else
        fd <- scan_path src None excludes ;;
        pkgs <- mapM (fun x => alloc (Module_init KPackage x None PProject)) (snd fd) ;;
        modify_project (fun p => Proj.set_packages (Proj._packages p ++ pkgs) p) ;;;
        ret (modules ++ map (joinpath H src) (fst fd))
  | _, _ => ret modules
  end.

(** The overlap of scripts and modules is taken out of [modules]. *)
Definition reconcile (scripts modules : list string) : result (list string) :=
  match scripts, modules with
  | _ :: _, _ :: _ => remove_each (set_inter scripts modules) modules
  | _, _ => Ok modules
  end.

(** [Project.load(data)] *)
Definition Project_load (data : gmap string string) : M unit :=
  p0 <- get_project ;;
  makedirs (joinpath H (Proj.ctx_local_path p0) "project") ;;;
  src <- match data !! "src" with
         | Some s => ret s
         | None => raise (KeyError "src")
         end ;;
  modify_project (Proj.set_src src) ;;;
  let name := data !! "name" in
  let excludes := vlist data "excludes" ++ GLOBAL_EXCLS in
  let scripts :=
    concat (map (fun pat => search_item src pat excludes false) (vlist data "scripts")) in
  new_scripts <- mapM (fun x => r <- Project_relsrc x ;;
                                alloc (Module_init KScript r None PProject)) scripts ;;
  modify_project (fun p => Proj.set_scripts (Proj._scripts p ++ new_scripts) p) ;;;
  let modules :=
    concat (map (fun pat => search_item src pat excludes false) (vlist data "modules")) in
  let packages := vlist data "packages" in
  modules1 <- match packages with
              | _ :: _ =>
                  foldM (fun item _ => load_package_item src item) packages tt ;;;
                  ret modules
              | [] => load_default src name excludes scripts modules
              end ;;
  modules2 <- lift (reconcile scripts modules1) ;;
  new_modules <- mapM (fun x => r <- Project_relsrc x ;;
                                alloc (Module_init KModule r None PProject)) modules2 ;;
  modify_project (fun p => Proj.set_modules (Proj._modules p ++ new_modules) p).

(** [Project.log_unknown_var(module, var)] *)
Definition log_unknown_var (module var : string) : M unit :=
  key <- lift (str_mod "%s:%s" (Tuple [module; var])) ;;
  p <- get_project ;;
  if bool_decide (key ∈ Proj.unknown_vars p) then ret tt
  else modify_project (Proj.set_unknown_vars (Proj.unknown_vars p ++ [key])).

(** A call of [self.log_unknown_var] with the positional arguments
    [args]: the method takes exactly two besides [self]. *)
Definition call_log_unknown_var (args : list string) : M unit :=
  match args with
  | [module; var] => log_unknown_var module var
  | _ => raise TypeError
  end.

(** The argument of [log_unknown_call]: a [str], or an object with the
    attributes [module] and [scopes]. *)
Inductive Func : Type :=
| FuncStr (s : string)
| FuncObj (module : string) (scopes : list string).

(** [Project.log_unknown_call(func)] *)
Definition log_unknown_call (func : Func) : M unit :=
  match func with
  | FuncStr s =>
      let fields := PyStr.split ":" s in
      match fields !! 2 with
      | None => raise IndexError
      | Some f2 =>
          if (PyStr.find "." f2 =? -1)%Z then
            key <- lift (str_mod "%s:%s.%s" (ListObj fields)) ;;
            call_log_unknown_var [key]
          else
            p <- get_project ;;
            if bool_decide (s ∈ Proj.unknown_args p) then ret tt
            else modify_project (Proj.set_unknown_args (Proj.unknown_args p ++ [s]))
      end
  | FuncObj module scopes =>
      let name := PyStr.join ":" [module; PyStr.join "." scopes] in
      p <- get_project ;;
      if bool_decide (name ∈ Proj.unknown_calls p) then ret tt
      else modify_project (Proj.set_unknown_calls (Proj.unknown_calls p ++ [name]))
  end.

End Model.

(** ** A POSIX host over a table of directories

    [posixpath] as CPython defines it, [fnmatch] for patterns made of
    text, [*] and [?], and a file system given by the answers of [glob],
    [os.scandir] and [os.path.exists]. *)

Module Posix.

Definition isabs (s : string) : bool := String.prefix "/" s.

(** [posixpath.join(a, b)] *)
Definition join (a b : string) : string :=
  if String.prefix "/" b then b
  else if PyStr.is_empty a || PyStr.endswith a "/" then a +:+ b
  else a +:+ "/" +:+ b.

(** [posixpath.basename(p)]: what follows the last [/]. *)
Definition basename (p : string) : string :=
  default "" (last (PyStr.split "/" p)).

(** The text before the last dot and the text from it on, if there is a
    dot. *)
Fixpoint split_last_dot (f : string) : option (string * string) :=
  match f with
  | EmptyString => None
  | String c r =>
      match split_last_dot r with
      | Some (b, e) => Some (String c b, e)
      | None => if Ascii.eqb c "." then Some (EmptyString, f) else None
      end
  end.

(** [posixpath.splitext(p)]: the extension starts at the last dot of the
    last component, unless only dots come before it there. *)
Definition splitext (p : string) : string * string :=
  let f := basename p in
  match split_last_dot f with
  | Some (b, e) =>
      if PyStr.is_empty (PyStr.lstrip_by (fun c => Ascii.eqb c ".") b) then (p, "")
      else (String.substring 0 (String.length p - String.length e) p, e)
  | None => (p, "")
  end.

(** The loop of [posixpath.normpath] over the components; [acc] holds
    the components kept so far, last first. *)
Fixpoint norm_comps (rooted : bool) (comps acc : list string) : list string :=
  match comps with
  | [] => rev acc
  | comp :: r =>
      if String.eqb comp "" || String.eqb comp "." then norm_comps rooted r acc
      else if negb (String.eqb comp "..") then norm_comps rooted r (comp :: acc)
      else match acc with
           | [] => if rooted then norm_comps rooted r acc
                   else norm_comps rooted r (comp :: acc)
           | top :: acc' =>
               if String.eqb top ".." then norm_comps rooted r (comp :: acc)
               else norm_comps rooted r acc'
           end
  end.

(** [posixpath.normpath(path)] *)
Definition normpath (path : string) : string :=
  if PyStr.is_empty path then "."
  else
    let slashes :=
      if String.prefix "/" path then
        if String.prefix "//" path && negb (String.prefix "///" path) then "//" else "/"
      else "" in
    let body := PyStr.join "/" (norm_comps (PyStr.truthy slashes) (PyStr.split "/" path) []) in
    let res := slashes +:+ body in
    if PyStr.is_empty res then "." else res.

(** [posixpath.abspath(path)] with the current directory [cwd]. *)
Definition abspath (cwd path : string) : string :=
  normpath (if isabs path then path else join cwd path).

Fixpoint common_prefix (xs ys : list string) : list string :=
  match xs, ys with
  | x :: xs', y :: ys' => if String.eqb x y then x :: common_prefix xs' ys' else []
  | _, _ => []
  end.

(** [posixpath.relpath(path, start)] for a non-empty [path]. *)
Definition relpath (cwd path start : string) : string :=
  let comps p := filter (fun x => PyStr.truthy x = true) (PyStr.split "/" (abspath cwd p)) in
  let start_list := comps start in
  let path_list := comps path in
  let i := length (common_prefix start_list path_list) in
  let rel_list := replicate (length start_list - i) ".." ++ drop i path_list in
  match rel_list with
  | [] => "."
  | _ :: _ => PyStr.join "/" rel_list
  end.

(** A byte that continues a character of several bytes. *)
Definition is_cont (c : ascii) : bool :=
  let n := nat_of_ascii c in ((128 <=? n) && (n <=? 191))%nat.

(** [fnmatch.fnmatch(name, pat)] for a pattern without brackets: [*]
    stands for any text, [?] for one character, which may be several
    bytes. *)
Fixpoint wild (pat : string) : string -> bool :=
  match pat with
  | EmptyString => PyStr.is_empty
  | String c p =>
      if Ascii.eqb c "*" then
        fix star (s : string) : bool :=
          wild p s || match s with
                      | EmptyString => false
                      | String _ r => star r
                      end
      else if Ascii.eqb c "?" then
        fun s => match s with
                 | EmptyString => false
                 | String _ r => wild p (PyStr.lstrip_by is_cont r)
                 end
      else
        fun s => match s with
                 | EmptyString => false
                 | String d r => Ascii.eqb c d && wild p r
                 end
  end.

Definition fnmatch (name pat : string) : bool := wild pat name.

(** The answer recorded for [key] in a table, the empty list if none. *)
Fixpoint table_get {A : Type} (key : string) (t : list (string * list A)) : list A :=
  match t with
  | [] => []
  | (k, v) :: r => if String.eqb k key then v else table_get key r
  end.

(** The host with current directory [cwd], whose [glob.glob] answers by
    [globs], [os.scandir] by [dirs], and where exactly the paths of
    [present] exist. *)
Definition host (cwd : string) (globs : list (string * list string))
    (dirs : list (string * list DirEntry)) (present : list string) : Host :=
  mkHost "/" isabs join basename splitext normpath
         (relpath cwd) (abspath cwd)
         (fun p => existsb (String.eqb p) present)
         (fun pt _ => table_get pt globs)
         (fun p => table_get p dirs)
         fnmatch
         1000.

End Posix.

(** A regular file and a directory, as [os.scandir] reports them. *)
Definition file_entry (name : string) : DirEntry := mkDirEntry name false true.
Definition dir_entry (name : string) : DirEntry := mkDirEntry name true false.

(** The world right after [Project(ctx)]: no code unit yet. *)
Definition new_world (local_path : string) : World :=
  mkWorld [] (Proj.init local_path) [] [].


(** ** Parsing and compiling a module *)

(** An exception of [parse_file] or [compile_file]: one of those above,
    or one that [open], [tokenize.detect_encoding], [ast.parse] or
    [compile] raised. *)
Inductive raised (E : Type) : Type :=
| Py (e : exn)
| Ext (e : E).

Arguments Py {E} e.
Arguments Ext {E} e.

Inductive outcome (E A : Type) : Type :=
| Returns (a : A)
| Raises (e : raised E).

Arguments Returns {E A} a.
Arguments Raises {E A} e.

(** What lies outside the file: [detect_encoding] stands for
    [open(filename, 'rb')] and [tokenize.detect_encoding]; [open_text]
    for [open(filename, 'r', encoding=encoding)], [None] when the file
    opens; [read_parse] for [f.read()] and [ast.parse]; [compile] for
    the built-in.  [E] is the type of their exceptions. *)
Record Toolchain (Ast Code E : Type) : Type := mkToolchain {
  detect_encoding : string -> E + string;
  open_text : string -> string -> option E;
  read_parse : string -> string -> E + Ast;
  compile : Ast -> string -> E + Code
}.

Arguments mkToolchain {Ast Code E} _ _ _ _.
Arguments detect_encoding {Ast Code E} _ _.
Arguments open_text {Ast Code E} _ _ _.
Arguments read_parse {Ast Code E} _ _ _.
Arguments compile {Ast Code E} _ _ _.

Module Attrs.

(** The attributes [_tree] and [_co] of the objects, by address: no
    entry is [None], which [Module.__init__] assigns.  [opened] lists
    the paths handed to [open] so far, oldest first. *)
Record t (Ast Code : Type) : Type := mk {
  _tree : gmap addr Ast;
  _co : gmap addr Code;
  opened : list string
}.

Arguments mk {Ast Code} _ _ _.
Arguments _tree {Ast Code} _.
Arguments _co {Ast Code} _.
Arguments opened {Ast Code} _.

Definition init {Ast Code : Type} : t Ast Code := mk ∅ ∅ [].

Definition note_open {Ast Code : Type} (filename : string) (c : t Ast Code) : t Ast Code :=
  mk (_tree c) (_co c) (opened c ++ [filename]).

Definition set_tree {Ast Code : Type} (a : addr) (tree : Ast) (c : t Ast Code) : t Ast Code :=
  mk (<[a := tree]> (_tree c)) (_co c) (opened c).

Definition set_co {Ast Code : Type} (a : addr) (co : Code) (c : t Ast Code) : t Ast Code :=
  mk (_tree c) (<[a := co]> (_co c)) (opened c).

End Attrs.

Section Compile.

Context {Ast Code E : Type}.
Variable H : Host.
Variable T : Toolchain Ast Code E.

(** [Module.parse_file(force)] on the object at [a].  The two calls of
    [logger.info] evaluate [self.qualname]. *)
Definition Module_parse_file (force : bool) (a : addr) (w : World)
    (c : Attrs.t Ast Code) : outcome E unit * Attrs.t Ast Code :=
  match Attrs._tree c !! a, force with
  | Some _, false => (Returns tt, c)
  | _, _ =>
      match fst (Module_abspath H a w) with
      | Raise e => (Raises (Py e), c)
      | Ok filename =>
          let c1 := Attrs.note_open filename c in
          match detect_encoding T filename with
          | inl e => (Raises (Ext e), c1)
          | inr encoding =>
              let c2 := Attrs.note_open filename c1 in
              match open_text T filename encoding with
              | Some e => (Raises (Ext e), c2)
              | None =>
                  match qualname w a with
                  | Raise e => (Raises (Py e), c2)
                  | Ok _ =>
                      match read_parse T filename encoding with
                      | inl e => (Raises (Ext e), c2)
                      | inr tree => (Returns tt, Attrs.set_tree a tree c2)
                      end
                  end
              end
          end
      end
  end.

(** [Module.compile_file(force)] on the object at [a].  [compile] is
    handed [self._tree]; for [None] it raises [TypeError]. *)
Definition Module_compile_file (force : bool) (a : addr) (w : World)
    (c : Attrs.t Ast Code) : outcome E unit * Attrs.t Ast Code :=
  match Attrs._co c !! a, force with
  | Some _, false => (Returns tt, c)
  | _, _ =>
      match Module_parse_file force a w c with
      | (Raises e, c1) => (Raises e, c1)
      | (Returns _, c1) =>
          match qualname w a with
          | Raise e => (Raises (Py e), c1)
          | Ok _ =>
              match fst (Module_abspath H a w) with
              | Raise e => (Raises (Py e), c1)
              | Ok filename =>
                  match Attrs._tree c1 !! a with
                  | None => (Raises (Py TypeError), c1)
                  | Some tree =>
                      match compile T tree filename with
                      | inl e => (Raises (Ext e), c1)
                      | inr co => (Returns tt, Attrs.set_co a co c1)
                      end
                  end
              end
          end
      end
  end.

End Compile.

(** ** Failures of the operating system *)

(** Which directories the operating system lets the program list and
    make.  A directory that is missing, is no directory or may not be
    read cannot be listed. *)
Record OS : Type := mkOS {
  can_list : string -> bool;
  can_make : string -> bool
}.

(** [OSError] and its subclasses ([FileNotFoundError],
    [NotADirectoryError], [PermissionError]), with the path refused. *)
Inductive os_error : Type := OSError (path : string).

(** One call [c] of a method, with the failures of the operating
    system.  A method of the file reaches [os.scandir] through
    [scan_path] only, which enters the directory in [scan_log], and
    [os.makedirs] in the first statement of [Project.load] only.  Up to
    the first directory that cannot be made or listed the call runs as
    [c] does; there it raises [OSError], and what [c] does after that
    point does not happen.  The state an [OSError] leaves behind is not
    described. *)
Definition os_run {A : Type} (os : OS) (c : M A) (w : World) : outcome os_error A :=
  let rw := c w in
  match List.find (fun d => negb (can_make os d))
                  (drop (length (made_dirs w)) (made_dirs (snd rw))) with
  | Some d => Raises (Ext (OSError d))
  | None =>
      match List.find (fun d => negb (can_list os d))
                      (drop (length (scan_log w)) (scan_log (snd rw))) with
      | Some d => Raises (Ext (OSError d))
      | None =>
          match fst rw with
          | Ok a => Returns a
          | Raise e => Raises (Py e)
          end
      end
  end.

(** An operating system that refuses nothing, and one that cannot list
    the directories of [missing]. *)
Definition os_ok : OS := mkOS (fun _ => true) (fun _ => true).

Definition os_without (missing : list string) : OS :=
  mkOS (fun d => negb (existsb (String.eqb d) missing)) (fun _ => true).

(** * Notions used by the statements *)

(** The key under which [log_unknown_var(module, var)] files its entry. *)
Definition var_key (module var : string) : string := module +:+ ":" +:+ var.

(** A sequence of calls of [log_unknown_var], one per pair. *)
Definition log_unknown_vars (calls : list (string * string)) : M unit :=
  foldM (fun c _ => log_unknown_var (fst c) (snd c)) calls tt.

(** A unit as [Project.load] creates them: parented to the project, and
    not loaded. *)
Definition top_unit (u : Unit.t) : Prop :=
  Unit.parent u = PProject /\ Unit._modules u = None /\ Unit._packages u = None.

(** [w'] is [w] with more top-level units: the heap and the lists of the
    project have grown at their ends, by units parented to the project
    and by addresses of new objects; nothing that was there has changed. *)
Definition extends (w w' : World) : Prop :=
  exists (l : list Unit.t) (s m p : list addr),
    heap w' = heap w ++ l /\
    Forall top_unit l /\
    Proj._scripts (project w') = Proj._scripts (project w) ++ s /\
    Proj._modules (project w') = Proj._modules (project w) ++ m /\
    Proj._packages (project w') = Proj._packages (project w) ++ p /\
    Forall (fun a => length (heap w) <= a < length (heap w')) (s ++ m ++ p) /\
    Proj._namespaces (project w') = Proj._namespaces (project w) /\
    Proj.unknown_vars (project w') = Proj.unknown_vars (project w).

(** A computation that only adds top-level units, and whose only
    exception is [ValueError]. *)
Definition grows {A : Type} (c : M A) : Prop :=
  forall w, extends w (snd (c w)) /\ forall e, fst (c w) = Raise e -> e = ValueError.

(** A computation that creates exactly one object, parented to the
    project, and returns it. *)
Definition allocates (c : M addr) : Prop :=
  forall w, exists u,
    top_unit u /\
    c w = (Ok (length (heap w)),
           mkWorld (heap w ++ [u]) (project w) (scan_log w) (made_dirs w)).

(** A source tree [/src] holding [main.py] and [util.py]; the patterns
    [/src/*.py] and [/src/main.py] are the ones the examples resolve. *)
Definition flat_host : Host :=
  Posix.host "/home/dev"
    [("/src/*.py", ["/src/main.py"; "/src/util.py"]);
     ("/src/main.py", ["/src/main.py"])]
    [("/src", [file_entry "main.py"; file_entry "util.py"])]
    ["/src"; "/src/main.py"; "/src/util.py"].

(** [main.py] is a script; the module patterns name it twice. *)
Definition overlap_data : gmap string string :=
  <["scripts" := "main.py"]> (<["modules" := "*.py main.py"]> {["src" := "/src"]}).

(** The same with [main.py] named once among the modules. *)
Definition overlap_once_data : gmap string string :=
  <["scripts" := "main.py"]> (<["modules" := "*.py"]> {["src" := "/src"]}).

(** The [_path] of each unit of a list of addresses. *)
Definition paths_of (w : World) (l : list addr) : list (option string) :=
  map (fun a => Unit._path <$> heap w !! a) l.

(** Every unit was created after its parent: a parent reference points
    to a lower address.  The constructors are handed an existing parent,
    and nothing assigns [parent] afterwards. *)
Definition wf_heap (h : list Unit.t) : Prop :=
  forall a u p, h !! a = Some u -> Unit.parent u = PUnit p -> p < a.

(** [_modules] and [_packages] of a unit are both [None] or both lists:
    [Package.load] assigns the two together. *)
Definition sentinels_agree (h : list Unit.t) : Prop :=
  forall a u, h !! a = Some u ->
    (Unit._modules u = None <-> Unit._packages u = None).

(** The world [Package.load] on the package [u] at [a], of directory
    [dir], leaves behind. *)
Definition loaded_world (H : Host) (a : addr) (u : Unit.t) (dir : string) (w : World) : World :=
  let fd := scan_entries H GLOBAL_INCLS GLOBAL_EXCLS (scandir H dir) in
  let n := length (heap w) in
  let ms := seq n (length (fst fd)) in
  let ps := seq (n + length (fst fd)) (length (snd fd)) in
  mkWorld
    (<[a := Unit.set_children (Some ms) (Some ps) u]>
       (heap w
        ++ map (fun x => Module_init H KModule x None (PUnit a)) (fst fd)
        ++ map (fun x => Module_init H KPackage x None (PUnit a)) (snd fd)))
    (project w) (scan_log w ++ [dir]) (made_dirs w).

(** A source tree [/src] with the package [pkg], which holds
    [__init__.py], [m.py] and the sub-package [sub]; [/src] itself holds
    [__init__.py] and [a.py] as well. *)
Definition tree_host : Host :=
  Posix.host "/home/dev"
    [("/src/*.py", ["/src/__init__.py"; "/src/a.py"])]
    [("/src", [file_entry "__init__.py"; file_entry "a.py"; dir_entry "pkg";
               dir_entry ".git"; file_entry "README"]);
     ("/src/pkg", [file_entry "__init__.py"; file_entry "m.py"; dir_entry "sub";
                   dir_entry "__pycache__"]);
     ("/src/pkg/sub", [file_entry "__init__.py"; file_entry "x.py"])]
    ["/src"; "/src/__init__.py"; "/src/a.py"; "/src/pkg/__init__.py"].

(** The modules of [/src] named by a pattern, and the package [pkg]. *)
Definition tree_data : gmap string string :=
  <["modules" := "*.py"]> (<["packages" := "pkg"]> {["src" := "/src"]}).

(** The project of [tree_data], loaded. *)
Definition tree_world : World :=
  snd (Project_load tree_host tree_data (new_world "/home/dev/.pyarmor")).

(** A module [__init__] that has no parent at all. *)
Definition orphan_world : World :=
  mkWorld [Module_init tree_host KModule "__init__.py" None PNone]
          (Proj.init "") [] [].

(** The packages of the project's tree: the top-level ones, and those
    listed by a package of the tree that has been loaded. *)
Inductive tree_pkg (w : World) : addr -> Prop :=
| tree_pkg_top (a : addr) :
    a ∈ Proj._packages (project w) -> tree_pkg w a
| tree_pkg_sub (p : addr) (u : Unit.t) (ps : list addr) (a : addr) :
    tree_pkg w p -> heap w !! p = Some u -> Unit._packages u = Some ps ->
    a ∈ ps -> tree_pkg w a.

(** The modules of the project's tree: the top-level ones, and those
    listed by a package of the tree. *)
Definition tree_module (w : World) (a : addr) : Prop :=
  a ∈ Proj._modules (project w) \/
  exists p u ms,
    tree_pkg w p /\ heap w !! p = Some u /\ Unit._modules u = Some ms /\ a ∈ ms.

(** [u'] is [u], possibly loaded since. *)
Definition same_unit (u u' : Unit.t) : Prop :=
  Unit.kind u' = Unit.kind u /\ Unit.parent u' = Unit.parent u /\
  Unit._path u' = Unit._path u /\ Unit._name u' = Unit._name u /\
  (forall ms, Unit._modules u = Some ms -> Unit._modules u' = Some ms) /\
  (forall ps, Unit._packages u = Some ps -> Unit._packages u' = Some ps).

(** [w'] is [w] after some lazy loads: more objects, the old ones as
    they were up to the lists that were [None], the lists of the project
    untouched. *)
Definition fills (w w' : World) : Prop :=
  length (heap w) <= length (heap w') /\
  (forall a u, heap w !! a = Some u ->
     exists u', heap w' !! a = Some u' /\ same_unit u u') /\
  Proj._modules (project w') = Proj._modules (project w) /\
  Proj._packages (project w') = Proj._packages (project w).

(** Every entry of the index is a module of the tree, filed under its
    qualname. *)
Definition index_sound (w : World) (idx : gmap string addr) : Prop :=
  forall k x, idx !! k = Some x -> tree_module w x /\ qualname w x = Ok k.

(** The two invariants of the heap. *)
Definition heap_inv (w : World) : Prop :=
  wf_heap (heap w) /\ sentinels_agree (heap w).

(** The diagnostic log of variables has no duplicates. *)
Definition vars_inv (w : World) : Prop :=
  NoDup (Proj.unknown_vars (project w)).

(** A computation that keeps an invariant of the world, whether it
    returns or raises. *)
Definition preserves {A : Type} (I : World -> Prop) (c : M A) : Prop :=
  forall w, I w -> I (snd (c w)).

(** The worlds that the methods lead to, starting from a new project. *)
Inductive reachable (H : Host) : World -> Prop :=
| reach_new (local_path : string) :
    reachable H (new_world local_path)
| reach_load (data : gmap string string) (w : World) :
    reachable H w -> reachable H (snd (Project_load H data w))
| reach_package_load (a : addr) (w : World) :
    reachable H w -> reachable H (snd (Package_load H a w))
| reach_modules (a : addr) (w : World) :
    reachable H w -> reachable H (snd (Package_modules H a w))
| reach_packages (a : addr) (w : World) :
    reachable H w -> reachable H (snd (Package_packages H a w))
| reach_get_module (name : string) (w : World) :
    reachable H w -> reachable H (snd (Project_get_module H name w))
| reach_log_var (module var : string) (w : World) :
    reachable H w -> reachable H (snd (log_unknown_var module var w))
| reach_log_call (func : Func) (w : World) :
    reachable H w -> reachable H (snd (log_unknown_call func w)).

(** Checks [wf_heap] on a heap that is given in full. *)
Ltac check_wf_heap :=
  let a := fresh "a" in
  let u := fresh "u" in
  let p := fresh "p" in
  let Ha := fresh "Ha" in
  let Hp := fresh "Hp" in
  intros a u p Ha Hp; vm_compute in Ha;
  repeat (destruct a as [|a];
          [ inversion Ha; subst u; simpl in Hp;
            first [discriminate Hp | inversion Hp; subst p; lia]
          | simpl in Ha; try discriminate Ha ]).

(** Checks [sentinels_agree] on a heap that is given in full. *)
Ltac check_sentinels :=
  let a := fresh "a" in
  let u := fresh "u" in
  let Ha := fresh "Ha" in
  intros a u Ha; vm_compute in Ha;
  repeat (destruct a as [|a];
          [ inversion Ha; subst u; simpl; split; intros; first [reflexivity | discriminate]
          | simpl in Ha; try discriminate Ha ]).

(** The directory [/proj] of the scenarios: [a.py], [b.py], the package
    [pkg] with its [__init__.py], and the package [lib]. *)
Definition scenario_host : Host :=
  Posix.host "/home/dev" []
    [("/proj", [file_entry "a.py"; file_entry "b.py"; dir_entry "pkg"]);
     ("/proj/pkg", [file_entry "__init__.py"]);
     ("/proj/lib", [file_entry "__init__.py"])]
    ["/proj"; "/proj/a.py"; "/proj/b.py"; "/proj/pkg/__init__.py"; "/proj/lib/__init__.py"].

(** Name and path of each unit of a list of addresses. *)
Definition units_of (w : World) (l : list addr) : list (option (string * string)) :=
  map (fun a => (fun u => (Unit._name u, Unit._path u)) <$> heap w !! a) l.

(** * Notions used by the further statements *)

(** No white-space character starts in [w] when [s] follows it. *)
Fixpoint ws_free_in (w s : string) : Prop :=
  match w with
  | EmptyString => True
  | String c r => PyStr.ws_len (w +:+ s) = 0 /\ ws_free_in r s
  end.

(** No character of [s] is white space. *)
Definition ws_free (s : string) : Prop := ws_free_in s "".

(** U+00A0 and U+2003, as texts. *)
Definition nbsp : string := String (ascii_of_nat 194) (String (ascii_of_nat 160) "").
Definition emsp : string :=
  String (ascii_of_nat 226) (String (ascii_of_nat 128) (String (ascii_of_nat 131) "")).

(** The scripts and modules that the patterns of a field resolve to. *)
Definition resolved (H : Host) (data : gmap string string) (src field : string) : list string :=
  concat (map (fun pat => search_item H src pat (vlist data "excludes" ++ GLOBAL_EXCLS) false)
              (vlist data field)).

(** The world of [Project.load] once the scripts are in: the working
    directory made, [src] assigned, one [Script] per resolved path. *)
Definition with_scripts (H : Host) (src : string) (scripts : list string) (w : World) : World :=
  mkWorld
    (heap w ++ map (fun x => Module_init H KScript (relpath H x src) None PProject) scripts)
    (Proj.set_scripts
       (Proj._scripts (project w) ++ seq (length (heap w)) (length scripts))
       (Proj.set_src src (project w)))
    (scan_log w)
    (made_dirs w ++ [joinpath H (Proj.ctx_local_path (project w)) "project"]).

(** The last step of [Project.load]: one [Module] per path left. *)
Definition with_modules (H : Host) (modules : list string) (w : World) : World :=
  mkWorld
    (heap w ++ map (fun x => Module_init H KModule (relpath H x (Proj.src (project w))) None PProject)
                   modules)
    (Proj.set_modules
       (Proj._modules (project w) ++ seq (length (heap w)) (length modules))
       (project w))
    (scan_log w) (made_dirs w).

(** The middle of [Project.load]: the packages, from the items of the
    record or else by default; it returns the module paths. *)
Definition load_packages (H : Host) (src : string) (name : option string)
    (excludes scripts modules packages : list string) : M (list string) :=
  match packages with
  | _ :: _ =>
      foldM (fun item _ => load_package_item H src item) packages tt ;;;
      ret modules
  | [] => load_default H src name excludes scripts modules
  end.

(** The test a [packages] item passes: it starts with [@], or has no
    [@], or splits at [@] in exactly two. *)
Definition item_ok (item : string) : bool :=
  let i := PyStr.find "@" item in
  (i =? 0)%Z || (i =? -1)%Z || (length (PyStr.split "@" item) =? 2)%nat.

(** An item that names a configuration section: it starts with [@]. *)
Definition is_section (item : string) : bool := (PyStr.find "@" item =? 0)%Z.

(** The [Package] that an item which passes the test and names no
    section stands for: [path] or [path@name], a relative path taken
    under [src]. *)
Definition item_package (H : Host) (src item : string) : Unit.t :=
  let pn := if (PyStr.find "@" item =? -1)%Z then (item, basename H item)
            else match PyStr.split "@" item with
                 | [path; pkgname] => (path, pkgname)
                 | _ => (item, item)
                 end in
  Module_init H KPackage
    (if isabs H (fst pn) then fst pn else joinpath H src (fst pn))
    (Some (snd pn)) PProject.

(** The world with the top-level packages [us] added. *)
Definition add_packages (us : list Unit.t) (w : World) : World :=
  mkWorld (heap w ++ us)
          (Proj.set_packages
             (Proj._packages (project w) ++ seq (length (heap w)) (length us))
             (project w))
          (scan_log w) (made_dirs w).

(** The items up to the first one that fails the test. *)
Fixpoint ok_prefix (items : list string) : list string :=
  match items with
  | [] => []
  | item :: r => if item_ok item then item :: ok_prefix r else []
  end.

(** The packages of a list of items: one for each that names no section. *)
Definition item_packages (H : Host) (src : string) (items : list string) : list Unit.t :=
  map (item_package H src) (filter (fun item => is_section item = false) items).

(** The world after the middle phase of [Project.load]. *)
Definition with_packages (H : Host) (src : string) (name : option string)
    (excludes scripts modules packages : list string) (w : World) : World :=
  match packages with
  | _ :: _ => add_packages (item_packages H src (ok_prefix packages)) w
  | [] =>
      match modules, scripts with
      | [], [] =>
          if path_exists H (joinpath H src "__init__.py") then
            add_packages
              [Module_init H KPackage src
                 (Some (match name with
                        | Some n => if PyStr.truthy n then n else basename H src
                        | None => basename H src
                        end)) PProject] w
          else
            add_packages
              (map (fun x => Module_init H KPackage x None PProject)
                   (snd (scan_entries H GLOBAL_INCLS excludes (scandir H src))))
              (mkWorld (heap w) (project w) (scan_log w ++ [src]) (made_dirs w))
      | _, _ => w
      end
  end.

(** The packages that the middle phase of [Project.load] creates: those
    of the items, or else [src] itself, or else the directories of
    [src]. *)
Definition new_packages (H : Host) (src : string) (name : option string)
    (excludes scripts modules packages : list string) : list Unit.t :=
  match packages with
  | _ :: _ => item_packages H src (ok_prefix packages)
  | [] =>
      match modules, scripts with
      | [], [] =>
          if path_exists H (joinpath H src "__init__.py") then
            [Module_init H KPackage src
               (Some (match name with
                      | Some n => if PyStr.truthy n then n else basename H src
                      | None => basename H src
                      end)) PProject]
          else
            map (fun x => Module_init H KPackage x None PProject)
                (snd (scan_entries H GLOBAL_INCLS excludes (scandir H src)))
      | _, _ => []
      end
  end.

(** The module paths after the middle phase: the resolved ones, or the
    files of [src] when the default scan was made. *)
Definition default_modules (H : Host) (src : string)
    (excludes scripts modules packages : list string) : list string :=
  match packages, modules, scripts with
  | [], [], [] =>
      if path_exists H (joinpath H src "__init__.py") then []
      else map (joinpath H src)
               (fst (scan_entries H GLOBAL_INCLS excludes (scandir H src)))
  | _, _, _ => modules
  end.

(** The directories [Project.load] has [scan_path] list: [src], when
    the record names no package, nothing is resolved and [src] holds no
    [__init__.py]. *)
Definition default_listing (H : Host) (src : string)
    (scripts modules packages : list string) : list string :=
  match packages, modules, scripts with
  | [], [], [] => if path_exists H (joinpath H src "__init__.py") then [] else [src]
  | _, _, _ => []
  end.

(** An item of [packages] that cannot be unpacked: its first [@] is
    past the first character and it has a second one. *)
Definition bad_item (item : string) : Prop :=
  (0 < PyStr.find "@" item)%Z /\ 2 <= PyStr.count "@" item.

(** The host [H] with room for [n] nested generators only. *)
Definition with_limit (n : nat) (H : Host) : Host :=
  mkHost (os_sep H) (isabs H) (joinpath H) (basename H) (splitext H) (normpath H)
         (relpath H) (os_abspath H) (path_exists H) (glob H) (scandir H) (fnmatch H) n.

(** The attributes of the project that [load] has no business with. *)
Definition frame_of (p : Proj.t)
  : string * list Namespace * option (gmap string addr)
    * list string * list string * list string :=
  (Proj.ctx_local_path p, Proj._namespaces p, Proj._rmodules p,
   Proj.unknown_vars p, Proj.unknown_calls p, Proj.unknown_args p).

(** The logs of callers have no duplicates. *)
Definition calls_inv (w : World) : Prop :=
  NoDup (Proj.unknown_calls (project w)) /\ NoDup (Proj.unknown_args (project w)).

(** No unit is without a parent: the methods always hand one over. *)
Definition parented (h : list Unit.t) : Prop :=
  forall a u, h !! a = Some u -> Unit.parent u <> PNone.

(** The body of a loop that collects what a generator yields, as
    [list(...)] does. *)
Definition collect (x : addr) (acc : list addr) : M (list addr) := ret (acc ++ [x]).

(** [list(project.iter_module())] *)
Definition Project_iter_list (H : Host) : M (list addr) :=
  Project_iter_module H collect [].

(** [list(package.iter_module())], for at most [depth] nested
    generators. *)
Definition Package_iter_list (H : Host) (depth : nat) (a : addr) : M (list addr) :=
  Package_iter_module H depth a collect [].

(** What a finished iteration of a package guarantees: only lazy loads
    happened, and in any later world the same iteration yields the same
    units without any effect. *)
Definition iter_stable (H : Host)
    (iter : addr -> list addr -> M (list addr)) : Prop :=
  forall a acc w l w',
    sentinels_agree (heap w) ->
    iter a acc w = (Ok l, w') ->
    fills w w' /\ sentinels_agree (heap w') /\
    exists ys, l = acc ++ ys /\
      forall w'' acc', fills w' w'' -> iter a acc' w'' = (Ok (acc' ++ ys), w'').


(** [a] lies inside the package [p]: [p] is its parent, or the parent of
    a package it lies inside. *)
Inductive inside (h : list Unit.t) (p : addr) : addr -> Prop :=
| inside_child (a : addr) (u : Unit.t) :
    h !! a = Some u -> Unit.parent u = PUnit p -> inside h p a
| inside_step (a : addr) (u : Unit.t) (q : addr) :
    h !! a = Some u -> Unit.parent u = PUnit q -> inside h p q -> inside h p a.

(** A dotted suffix: nothing, or a dot and more. *)
Definition dotted (s : string) : Prop := s = "" \/ exists r, s = "." +:+ r.

(** Every address of [l] holds an object of class [k]. *)
Definition all_kind (h : list Unit.t) (k : Kind) (l : list addr) : Prop :=
  forall a, a ∈ l -> exists u, h !! a = Some u /\ Unit.kind u = k.

(** The lists hold what their names say: scripts, modules and packages
    of the project, modules and packages of every package. *)
Definition kinds_inv (w : World) : Prop :=
  all_kind (heap w) KScript (Proj._scripts (project w)) /\
  all_kind (heap w) KModule (Proj._modules (project w)) /\
  all_kind (heap w) KPackage (Proj._packages (project w)) /\
  forall p u, heap w !! p = Some u ->
    (forall ms, Unit._modules u = Some ms -> all_kind (heap w) KModule ms) /\
    (forall ps, Unit._packages u = Some ps -> all_kind (heap w) KPackage ps).

(** The reverse index, once built, holds modules only. *)
Definition index_kinds (w : World) : Prop :=
  forall idx, Proj._rmodules (project w) = Some idx ->
  forall k x, idx !! k = Some x ->
    exists u, heap w !! x = Some u /\ Unit.kind u = KModule.

(** No object of [w] has changed its class in [w']. *)
Definition keeps_kinds (w w' : World) : Prop :=
  forall a u, heap w !! a = Some u ->
    exists u', heap w' !! a = Some u' /\ Unit.kind u' = Unit.kind u.

(** A unit that is not loaded. *)
Definition unloaded (u : Unit.t) : Prop :=
  Unit._modules u = None /\ Unit._packages u = None.

(** What an iteration that collects modules keeps: the classes of the
    lists and of the objects, and a list of modules only. *)
Definition iter_kinds (iter : addr -> list addr -> M (list addr)) : Prop :=
  forall a acc w l w',
    kinds_inv w -> all_kind (heap w) KModule acc ->
    iter a acc w = (Ok l, w') ->
    kinds_inv w' /\ keeps_kinds w w' /\ all_kind (heap w') KModule l.

(** An object that holds a code object holds a tree as well. *)
Definition compiled_parsed {Ast Code : Type} (c : Attrs.t Ast Code) : Prop :=
  forall a, is_Some (Attrs._co c !! a) -> is_Some (Attrs._tree c !! a).

(** The attributes that calls of [parse_file] and [compile_file] lead
    to, from objects just made, whatever the files hold at each call. *)
Inductive attrs_reachable {Ast Code E : Type} : Attrs.t Ast Code -> Prop :=
| attrs_new : attrs_reachable Attrs.init
| attrs_parse (H : Host) (T : Toolchain Ast Code E) (force : bool) (a : addr)
    (w : World) (c : Attrs.t Ast Code) :
    attrs_reachable c -> attrs_reachable (snd (Module_parse_file H T force a w c))
| attrs_compile (H : Host) (T : Toolchain Ast Code E) (force : bool) (a : addr)
    (w : World) (c : Attrs.t Ast Code) :
    attrs_reachable c -> attrs_reachable (snd (Module_compile_file H T force a w c)).

(** Tools for the examples: trees and code objects are texts; the files
    of [paths] can be read and hold the revision [rev], and [compile]
    rejects the trees of [bad]. *)
Definition text_tools (rev : string) (paths bad : list string)
  : Toolchain string string string :=
  mkToolchain
    (fun p => if existsb (String.eqb p) paths then inr "utf-8" else inl "FileNotFoundError")
    (fun _ _ => None)
    (fun p _ => inr (rev +:+ " of " +:+ p))
    (fun tree p => if existsb (String.eqb tree) bad then inl "SyntaxError"
                   else inr ("code of " +:+ tree)).
Example split_ws_ex :
  PyStr.split_ws "  *.py  main%20%one.py	x " = ["*.py"; "main%20%one.py"; "x"].
Proof. reflexivity. Qed.

Example replace_ex : PyStr.replace "%20%" " " "a%20%b%20%%20%" = "a b  ".
Proof. reflexivity. Qed.

Example split_ex : PyStr.split ":" "m:f:a.b" = ["m"; "f"; "a.b"].
Proof. reflexivity. Qed.

Example split_empty_ex : PyStr.split ":" "" = [""].
Proof. reflexivity. Qed.

Example find_ex : PyStr.find "@" "lib@core" = 3%Z /\ PyStr.find "@" "lib" = (-1)%Z.
Proof. split; reflexivity. Qed.

Example strip_chars_ex :
  PyStr.strip_chars "/" "/a/b/" = "a/b" /\ PyStr.strip_chars "" "/a/b/" = "/a/b/".
Proof. split; reflexivity. Qed.

Example endswith_ex : PyStr.endswith "pkg/" "/" = true /\ PyStr.endswith "pkg" "/" = false.
Proof. split; reflexivity. Qed.

Example posix_ex1 : Posix.basename "/src/pkg/__init__.py" = "__init__.py". Proof. reflexivity. Qed.
Example posix_ex2 : Posix.splitext "__init__.py" = ("__init__", ".py"). Proof. reflexivity. Qed.
Example posix_ex3 : Posix.splitext ".bashrc" = (".bashrc", ""). Proof. reflexivity. Qed.
Example posix_ex3b : Posix.splitext "a/b.c/d" = ("a/b.c/d", ""). Proof. reflexivity. Qed.
Example posix_ex3c : Posix.splitext "a/..x.tar.gz" = ("a/..x.tar", ".gz"). Proof. reflexivity. Qed.
Example posix_ex4 : Posix.normpath "/src/./a//b/../c.py" = "/src/a/c.py". Proof. reflexivity. Qed.
Example posix_ex4b : Posix.normpath "../../a/.." = "../..". Proof. reflexivity. Qed.
Example posix_ex4c : Posix.normpath "/../a" = "/a". Proof. reflexivity. Qed.
Example posix_ex5 : Posix.relpath "/home" "/src/main.py" "/src" = "main.py". Proof. reflexivity. Qed.
Example posix_ex6 : Posix.relpath "/home" "/src" "/src" = ".". Proof. reflexivity. Qed.
Example posix_ex7 : Posix.relpath "/home" "x/a.py" "/src" = "../home/x/a.py". Proof. reflexivity. Qed.
Example posix_ex8 : Posix.fnmatch ".git" ".*" = true /\ Posix.fnmatch "a.py" "*.py" = true /\ Posix.fnmatch "a.pyc" "*.py" = false /\ Posix.fnmatch "a.pyw" "*.py?" = true.
Proof. repeat split; reflexivity. Qed.
Example posix_ex9 : Posix.join "/src" "a.py" = "/src/a.py" /\ Posix.join "/src/" "a.py" = "/src/a.py" /\ Posix.join "/src" "/a.py" = "/a.py" /\ Posix.join "" "a" = "a".
Proof. repeat split; reflexivity. Qed.

(** * The diagnostic logs *)

Lemma append_empty_r (s : string) : s +:+ "" = s.
Proof.
  induction s as [|c s IH]; [reflexivity|].
  change (String c (s +:+ "") = String c s). now rewrite IH.
Qed.

Lemma append_assoc (s t r : string) : (s +:+ t) +:+ r = s +:+ (t +:+ r).
Proof.
  induction s as [|c s IH]; [reflexivity|].
  change (String c ((s +:+ t) +:+ r) = String c (s +:+ (t +:+ r))). now rewrite IH.
Qed.

Lemma split_length (c : ascii) (s : string) :
  length (PyStr.split c s) = S (PyStr.count c s).
Proof.
  induction s as [|d s IH]; simpl; [reflexivity|].
  destruct (Ascii.eqb d c); simpl.
  - now rewrite IH.
  - destruct (PyStr.split c s) as [|w ws]; simpl in *; lia.
Qed.

(** C10.  A plain string with fewer than two colons splits into fewer
    than three fields, and [log_unknown_call] raises [IndexError] on
    [fields[2]] without recording anything. *)
Theorem log_unknown_call_short_key (s : string) (w : World) :
  PyStr.count ":" s < 2 ->
  log_unknown_call (FuncStr s) w = (Raise IndexError, w).
Proof.
  intros Hc. unfold log_unknown_call.
  assert (Hn : PyStr.split ":" s !! 2 = None).
  { apply lookup_ge_None. rewrite split_length. lia. }
  now rewrite Hn.
Qed.

Lemma log_unknown_call_short_key_witness :
  log_unknown_call (FuncStr "module:scope.name") (new_world "") = (Raise IndexError, new_world "").
Proof. apply log_unknown_call_short_key. vm_compute. lia. Defined.

Lemma str_mod_var_key (m v : string) :
  str_mod "%s:%s" (Tuple [m; v]) = Ok (var_key m v).
Proof.
  unfold str_mod, var_key. cbn [fill].
  rewrite <- (append_empty_r v) at 2. reflexivity.
Qed.

Lemma log_unknown_var_eq (m v : string) (w : World) :
  log_unknown_var m v w =
  (Ok tt,
   if bool_decide (var_key m v ∈ Proj.unknown_vars (project w)) then w
   else mkWorld (heap w)
          (Proj.set_unknown_vars (Proj.unknown_vars (project w) ++ [var_key m v]) (project w))
          (scan_log w) (made_dirs w)).
Proof.
  unfold log_unknown_var, bind, lift. rewrite str_mod_var_key.
  unfold get_project. destruct (bool_decide _); reflexivity.
Qed.

Lemma log_unknown_var_NoDup m v w :
  NoDup (Proj.unknown_vars (project w)) ->
  NoDup (Proj.unknown_vars (project (snd (log_unknown_var m v w)))).
Proof.
  intros Hnd. rewrite log_unknown_var_eq. simpl.
  destruct (bool_decide _) eqn:E; [exact Hnd|]. simpl.
  apply bool_decide_eq_false in E.
  apply NoDup_app. split; [exact Hnd|]. split.
  - intros x Hx Hin. apply list_elem_of_singleton in Hin. congruence.
  - apply NoDup_singleton.
Qed.

Lemma log_unknown_var_elem m v w :
  var_key m v ∈ Proj.unknown_vars (project (snd (log_unknown_var m v w))).
Proof.
  rewrite log_unknown_var_eq. simpl.
  destruct (bool_decide _) eqn:E.
  - now apply bool_decide_eq_true in E.
  - simpl. apply elem_of_app. right. apply list_elem_of_singleton. reflexivity.
Qed.

Lemma log_unknown_var_again m v w :
  var_key m v ∈ Proj.unknown_vars (project w) ->
  log_unknown_var m v w = (Ok tt, w).
Proof.
  intros Hin. rewrite log_unknown_var_eq.
  apply (bool_decide_eq_true _) in Hin. now rewrite Hin.
Qed.

Lemma log_unknown_vars_NoDup calls w :
  NoDup (Proj.unknown_vars (project w)) ->
  NoDup (Proj.unknown_vars (project (snd (log_unknown_vars calls w)))).
Proof.
  revert w. induction calls as [|[m v] calls IH]; intros w Hnd; [exact Hnd|].
  unfold log_unknown_vars in *. simpl. unfold bind at 1.
  pose proof (log_unknown_var_NoDup m v w Hnd) as H1.
  rewrite log_unknown_var_eq in *. simpl in *.
  now apply IH.
Qed.

Lemma NoDup_count_occ_1 (l : list string) (x : string) :
  NoDup l -> x ∈ l -> count_occ string_dec l x = 1.
Proof.
  intros Hnd Hin. apply NoDup_ListNoDup in Hnd.
  pose proof (proj1 (NoDup_count_occ string_dec l) Hnd x) as Hle.
  apply list_elem_of_In in Hin.
  pose proof (proj1 (count_occ_In string_dec l x) Hin). lia.
Qed.

(** C6.  After any sequence of calls of [log_unknown_var] on a new
    project [unknown_vars] has no duplicates; a call repeated with the
    same arguments changes nothing, and the key [module:var] is then in
    the log exactly once. *)
Theorem log_unknown_var_no_duplicates
    (local_path : string) (calls : list (string * string)) (m v : string) :
  let w := snd (log_unknown_vars calls (new_world local_path)) in
  let w1 := snd (log_unknown_var m v w) in
  let w2 := snd (log_unknown_var m v w1) in
  NoDup (Proj.unknown_vars (project w)) /\
  w2 = w1 /\
  count_occ string_dec (Proj.unknown_vars (project w2)) (var_key m v) = 1.
Proof.
  intros w w1 w2.
  assert (Hw : NoDup (Proj.unknown_vars (project w))).
  { apply log_unknown_vars_NoDup. simpl. constructor. }
  assert (E : w2 = w1).
  { unfold w2. rewrite log_unknown_var_again; [reflexivity|]. apply log_unknown_var_elem. }
  split; [exact Hw|]. split; [exact E|].
  rewrite E. apply NoDup_count_occ_1.
  - now apply log_unknown_var_NoDup.
  - apply log_unknown_var_elem.
Qed.

(** A list is one argument, and the format of the redirection has three
    conversions. *)
Lemma str_mod_three_of_list (fields : list string) :
  str_mod "%s:%s.%s" (ListObj fields) = Raise TypeError.
Proof. reflexivity. Qed.

(** The branch of [log_unknown_call] that means to redirect to
    [log_unknown_var] raises before anything is recorded. *)
Lemma log_unknown_call_redirect (s f2 : string) (w : World) :
  PyStr.split ":" s !! 2 = Some f2 ->
  PyStr.find "." f2 = (-1)%Z ->
  log_unknown_call (FuncStr s) w = (Raise TypeError, w).
Proof.
  intros Hf Hd. unfold log_unknown_call. rewrite Hf, Hd. reflexivity.
Qed.

(** C4, as the code has it.  A plain string whose third field holds an
    attribute chain is appended to [unknown_args], unless it is there
    already; nothing else changes, [unknown_calls] in particular. *)
Theorem log_unknown_call_chain (s f2 : string) (w : World) :
  PyStr.split ":" s !! 2 = Some f2 ->
  PyStr.find "." f2 <> (-1)%Z ->
  log_unknown_call (FuncStr s) w =
  (Ok tt,
   if bool_decide (s ∈ Proj.unknown_args (project w)) then w
   else mkWorld (heap w)
          (Proj.set_unknown_args (Proj.unknown_args (project w) ++ [s]) (project w))
          (scan_log w) (made_dirs w)).
Proof.
  intros Hf Hd. unfold log_unknown_call. rewrite Hf.
  apply Z.eqb_neq in Hd. rewrite Hd.
  unfold bind, get_project. destruct (bool_decide _); reflexivity.
Qed.

Lemma log_unknown_call_chain_witness :
  log_unknown_call (FuncStr "m:f:a.b") (new_world "") =
  (Ok tt, mkWorld [] (Proj.set_unknown_args ["m:f:a.b"] (Proj.init "")) [] []).
Proof.
  apply (log_unknown_call_chain "m:f:a.b" "a.b" (new_world "")).
  - reflexivity.
  - vm_compute. discriminate.
Defined.

(** C4 fails: the string [m:f:a.b], whose trailing field [a.b] holds an
    attribute chain, is not recorded in [unknown_calls]; it goes to
    [unknown_args].  And the string [m:f:x], whose trailing field holds
    none, reaches no log at all: the call raises [TypeError]. *)
Lemma log_unknown_call_not_in_unknown_calls :
  PyStr.split ":" "m:f:a.b" !! 2 = Some "a.b" /\
  PyStr.find "." "a.b" = 1%Z /\
  (let rw := log_unknown_call (FuncStr "m:f:a.b") (new_world "") in
   fst rw = Ok tt /\
   Proj.unknown_calls (project (snd rw)) = [] /\
   Proj.unknown_vars (project (snd rw)) = [] /\
   Proj.unknown_args (project (snd rw)) = ["m:f:a.b"]) /\
  PyStr.split ":" "m:f:x" !! 2 = Some "x" /\
  PyStr.find "." "x" = (-1)%Z /\
  (let rw := log_unknown_call (FuncStr "m:f:x") (new_world "") in
   fst rw = Raise TypeError /\
   Proj.unknown_vars (project (snd rw)) = [] /\
   Proj.unknown_calls (project (snd rw)) = [] /\
   Proj.unknown_args (project (snd rw)) = []).
Proof. repeat split. Qed.

(** * [Project.load] *)

Lemma extends_refl (w : World) : extends w w.
Proof.
  exists [], [], [], []. rewrite !app_nil_r. repeat split; constructor.
Qed.

Lemma extends_trans (w1 w2 w3 : World) :
  extends w1 w2 -> extends w2 w3 -> extends w1 w3.
Proof.
  intros (l & s & m & p & Hh & Hl & Hs & Hm & Hp & Hf & Hn & Hv)
         (l' & s' & m' & p' & Hh' & Hl' & Hs' & Hm' & Hp' & Hf' & Hn' & Hv').
  exists (l ++ l'), (s ++ s'), (m ++ m'), (p ++ p').
  rewrite Hh', Hh, Hs', Hs, Hm', Hm, Hp', Hp, Hn', Hn, Hv', Hv, <- !app_assoc.
  repeat split; try reflexivity.
  - apply Forall_app; split; assumption.
  - rewrite Hh' in Hf'. rewrite Hh in Hf, Hf'.
    rewrite !Forall_app in *. rewrite !length_app in *.
    destruct Hf as (Fs & Fm & Fp). destruct Hf' as (Fs' & Fm' & Fp').
    repeat split; (eapply Forall_impl; [eassumption|]); cbv beta; intros; lia.
Qed.

Lemma grows_ret {A : Type} (a : A) : grows (ret a).
Proof. intros w. split; [apply extends_refl | discriminate]. Qed.

Lemma grows_raise {A : Type} : grows (@raise A ValueError).
Proof. intros w. split; [apply extends_refl | simpl; congruence]. Qed.

Lemma grows_bind {A B : Type} (c : M A) (k : A -> M B) :
  grows c -> (forall a, grows (k a)) -> grows (bind c k).
Proof.
  intros Hc Hk w. unfold bind. destruct (Hc w) as [Hext Herr].
  destruct (c w) as [[a|e] w1]; simpl in *.
  - destruct (Hk a w1) as [Hext' Herr']. split; [|exact Herr'].
    eapply extends_trans; eassumption.
  - split; [exact Hext|]. intros e0 He0. apply Herr. congruence.
Qed.

Lemma grows_foldM {A St : Type} (f : A -> St -> M St) (l : list A) (s : St) :
  (forall x s', grows (f x s')) -> grows (foldM f l s).
Proof.
  intros Hf. revert s. induction l as [|x l IH]; intros s; simpl.
  - apply grows_ret.
  - apply grows_bind; [apply Hf|]. intros s'. apply IH.
Qed.

Lemma grows_get_project : grows get_project.
Proof. intros w. split; [apply extends_refl | discriminate]. Qed.

Lemma grows_makedirs (d : string) : grows (makedirs d).
Proof.
  intros w. split; [|discriminate]. simpl.
  exists [], [], [], []. simpl. rewrite !app_nil_r. repeat split; constructor.
Qed.

Lemma grows_log_scan (d : string) : grows (log_scan d).
Proof.
  intros w. split; [|discriminate]. simpl.
  exists [], [], [], []. simpl. rewrite !app_nil_r. repeat split; constructor.
Qed.

Lemma grows_set_src (s : string) : grows (modify_project (Proj.set_src s)).
Proof.
  intros w. split; [|discriminate]. simpl.
  exists [], [], [], []. simpl. rewrite !app_nil_r. repeat split; constructor.
Qed.

Lemma grows_lift {A : Type} (r : result A) :
  (forall e, r = Raise e -> e = ValueError) -> grows (lift r).
Proof. intros Hr w. split; [apply extends_refl | exact Hr]. Qed.

Lemma allocates_alloc (u : Unit.t) : top_unit u -> allocates (alloc u).
Proof. intros Hp w. exists u. split; [exact Hp | reflexivity]. Qed.

Lemma allocates_relsrc (H : Host) (k : Kind) (x : string) :
  allocates (r <- Project_relsrc H x ;; alloc (Module_init H k r None PProject)).
Proof. intros w. eexists. split; [|reflexivity]. repeat split. Qed.

(** A comprehension that creates one object per item returns consecutive
    new addresses. *)
Lemma mapM_allocates {A : Type} (f : A -> M addr) (l : list A) (w : World) :
  (forall x, allocates (f x)) ->
  exists us,
    Forall top_unit us /\
    length us = length l /\
    mapM f l w = (Ok (seq (length (heap w)) (length l)),
                  mkWorld (heap w ++ us) (project w) (scan_log w) (made_dirs w)).
Proof.
  intros Hf. revert w. induction l as [|x l IH]; intros w.
  - exists []. rewrite app_nil_r. destruct w. repeat split. constructor.
  - destruct (Hf x w) as (u & Hu & E).
    destruct (IH (mkWorld (heap w ++ [u]) (project w) (scan_log w) (made_dirs w)))
      as (us & Hus & Hlen & E').
    exists (u :: us). split; [constructor; assumption|].
    split; [simpl; congruence|].
    simpl. unfold bind at 1. rewrite E. unfold bind at 1. rewrite E'.
    simpl. rewrite length_app, <- app_assoc. simpl.
    replace (length (heap w) + 1) with (S (length (heap w))) by lia.
    reflexivity.
Qed.

Lemma Forall_seq_fresh (n k : nat) :
  Forall (fun a => n <= a < n + k) (seq n k).
Proof. apply Forall_forall. intros a Ha. apply elem_of_seq in Ha. lia. Qed.

Lemma grows_extend_scripts {A : Type} (f : A -> M addr) (l : list A) :
  (forall x, allocates (f x)) ->
  grows (xs <- mapM f l ;;
         modify_project (fun p => Proj.set_scripts (Proj._scripts p ++ xs) p)).
Proof.
  intros Hf w. destruct (mapM_allocates f l w Hf) as (us & Hus & Hlen & E).
  unfold bind. rewrite E. simpl. split; [|discriminate].
  exists us, (seq (length (heap w)) (length l)), [], []. simpl.
  rewrite !app_nil_r, length_app, Hlen.
  repeat split; try assumption. apply Forall_seq_fresh.
Qed.

Lemma grows_extend_modules {A : Type} (f : A -> M addr) (l : list A) :
  (forall x, allocates (f x)) ->
  grows (xs <- mapM f l ;;
         modify_project (fun p => Proj.set_modules (Proj._modules p ++ xs) p)).
Proof.
  intros Hf w. destruct (mapM_allocates f l w Hf) as (us & Hus & Hlen & E).
  unfold bind. rewrite E. simpl. split; [|discriminate].
  exists us, [], (seq (length (heap w)) (length l)), []. simpl.
  rewrite !app_nil_r, length_app, Hlen.
  repeat split; try assumption. apply Forall_seq_fresh.
Qed.

Lemma grows_extend_packages {A : Type} (f : A -> M addr) (l : list A) :
  (forall x, allocates (f x)) ->
  grows (xs <- mapM f l ;;
         modify_project (fun p => Proj.set_packages (Proj._packages p ++ xs) p)).
Proof.
  intros Hf w. destruct (mapM_allocates f l w Hf) as (us & Hus & Hlen & E).
  unfold bind. rewrite E. simpl. split; [|discriminate].
  exists us, [], [], (seq (length (heap w)) (length l)). simpl.
  rewrite !app_nil_r, length_app, Hlen.
  repeat split; try assumption. apply Forall_seq_fresh.
Qed.

Lemma grows_append_package (u : Unit.t) :
  top_unit u ->
  grows (obj <- alloc u ;;
         modify_project (fun p => Proj.set_packages (Proj._packages p ++ [obj]) p)).
Proof.
  intros Hp w. unfold bind. simpl. split; [|discriminate].
  exists [u], [], [], [length (heap w)]. simpl.
  rewrite !app_nil_r, length_app. simpl.
  split; [reflexivity|]. split; [now apply Forall_singleton|].
  repeat split; try reflexivity. apply Forall_singleton. lia.
Qed.

Lemma bind_assoc {A B C : Type} (c : M A) (k : A -> M B) (k' : B -> M C) (w : World) :
  bind c (fun a => bind (k a) k') w = bind (bind c k) k' w.
Proof. unfold bind. destruct (c w) as [[a|e] w1]; reflexivity. Qed.

Lemma grows_bind_assoc {A B C : Type} (c : M A) (k : A -> M B) (k' : B -> M C) :
  grows (bind c k) -> (forall b, grows (k' b)) ->
  grows (bind c (fun a => bind (k a) k')).
Proof.
  intros Hc Hk w. rewrite bind_assoc. now apply grows_bind.
Qed.

Lemma list_remove_error (x : string) (l : list string) (e : exn) :
  list_remove x l = Raise e -> e = ValueError.
Proof.
  induction l as [|y l IH]; simpl; [congruence|].
  destruct (String.eqb y x); [discriminate|].
  destruct (list_remove x l); [discriminate|]. intros E. apply IH. congruence.
Qed.

Lemma remove_each_error (xs l : list string) (e : exn) :
  remove_each xs l = Raise e -> e = ValueError.
Proof.
  revert l. induction xs as [|x xs IH]; intros l; simpl; [discriminate|].
  destruct (list_remove x l) as [l'|e'] eqn:E.
  - apply IH.
  - intros E'. apply (list_remove_error x l). congruence.
Qed.

Lemma reconcile_error (scripts modules : list string) (e : exn) :
  reconcile scripts modules = Raise e -> e = ValueError.
Proof.
  unfold reconcile. destruct scripts; [discriminate|].
  destruct modules; [discriminate|]. apply remove_each_error.
Qed.

Lemma grows_scan_path (H : Host) (path : string) (incl : option (list string))
    (excl : list string) :
  grows (scan_path H path incl excl).
Proof.
  unfold scan_path. apply grows_bind; [apply grows_log_scan|].
  intros _. apply grows_ret.
Qed.

Lemma top_unit_init (H : Host) (k : Kind) (path : string) (name : option string) :
  top_unit (Module_init H k path name PProject).
Proof. repeat split. Qed.

Lemma grows_load_package_item (H : Host) (src item : string) :
  grows (load_package_item H src item).
Proof.
  unfold load_package_item. destruct (_ =? 0)%Z; [apply grows_ret|].
  apply grows_bind.
  - destruct (_ =? -1)%Z; [apply grows_ret|].
    destruct (PyStr.split "@" item) as [|a [|b [|c l]]];
      first [apply grows_ret | apply grows_raise].
  - intros pn. apply grows_append_package, top_unit_init.
Qed.

Lemma grows_load_default (H : Host) (src : string) (name : option string)
    (excludes scripts modules : list string) :
  grows (load_default H src name excludes scripts modules).
Proof.
  unfold load_default. destruct modules; [|apply grows_ret].
  destruct scripts; [|apply grows_ret].
  destruct (path_exists H _).
  - apply grows_bind_assoc; [apply grows_append_package, top_unit_init|].
    intros _. apply grows_ret.
  - apply grows_bind; [apply grows_scan_path|]. intros fd.
    apply grows_bind_assoc; [|intros _; apply grows_ret].
    apply grows_extend_packages. intros x. apply allocates_alloc, top_unit_init.
Qed.

(** Without [src] the lookup [data['src']] raises at once: only the
    working directory has been made. *)
Lemma Project_load_no_src (H : Host) (data : gmap string string) (w : World) :
  data !! "src" = None ->
  Project_load H data w =
  (Raise (KeyError "src"),
   mkWorld (heap w) (project w) (scan_log w)
           (made_dirs w ++ [joinpath H (Proj.ctx_local_path (project w)) "project"])).
Proof. intros E. unfold Project_load, bind. simpl. rewrite E. reflexivity. Qed.

(** With [src], [load] only adds top-level units, and the one exception
    it can raise is the [ValueError] of a malformed [packages] item. *)
Lemma Project_load_grows (H : Host) (data : gmap string string) (s : string) :
  data !! "src" = Some s -> grows (Project_load H data).
Proof.
  intros E. unfold Project_load. rewrite E.
  apply grows_bind; [apply grows_get_project|]. intros p0.
  apply grows_bind; [apply grows_makedirs|]. intros _.
  apply grows_bind; [apply grows_ret|]. intros src.
  apply grows_bind; [apply grows_set_src|]. intros _.
  apply grows_bind_assoc.
  { apply grows_extend_scripts. intros x. apply allocates_relsrc. }
  intros _. apply grows_bind.
  { destruct (vlist data "packages").
    - apply grows_load_default.
    - apply grows_bind; [|intros _; apply grows_ret].
      apply grows_foldM. intros x _. apply grows_load_package_item. }
  intros modules1. apply grows_bind.
  { apply grows_lift. apply reconcile_error. }
  intros modules2. apply grows_extend_modules. intros x. apply allocates_relsrc.
Qed.

Lemma Project_load_extends (H : Host) (data : gmap string string) (w : World) :
  extends w (snd (Project_load H data w)).
Proof.
  destruct (data !! "src") as [s|] eqn:E.
  - apply (Project_load_grows H data s E w).
  - rewrite (Project_load_no_src H data w E). simpl.
    exists [], [], [], []. simpl. rewrite !app_nil_r. repeat split; constructor.
Qed.

Lemma extends_lookup (w w' : World) (a : addr) (u : Unit.t) :
  extends w w' -> heap w !! a = Some u -> heap w' !! a = Some u.
Proof.
  intros (l & s & m & p & Hh & _) Ha. rewrite Hh. now apply lookup_app_l_Some.
Qed.



(** * Scripts against modules in [Project.load] *)

Lemma list_remove_comm (x y : string) (l : list string) :
  x <> y ->
  match list_remove x l with Ok l1 => list_remove y l1 | Raise e => Raise e end =
  match list_remove y l with Ok l1 => list_remove x l1 | Raise e => Raise e end.
Proof.
  intros Hxy. induction l as [|z r IH]; simpl; [reflexivity|].
  destruct (String.eqb_spec z x) as [Hzx|Hzx];
    destruct (String.eqb_spec z y) as [Hzy|Hzy]; [congruence| | |].
  - destruct (list_remove y r) as [r'|e]; simpl; [|reflexivity].
    destruct (String.eqb_spec z x); [reflexivity|congruence].
  - destruct (list_remove x r) as [r'|e]; simpl; [|reflexivity].
    destruct (String.eqb_spec z y); [reflexivity|congruence].
  - destruct (list_remove x r) as [r1|e1] eqn:E1;
      destruct (list_remove y r) as [r2|e2] eqn:E2; simpl.
    + destruct (String.eqb_spec z y); [congruence|].
      destruct (String.eqb_spec z x); [congruence|].
      now rewrite IH.
    + destruct (String.eqb_spec z y); [congruence|]. now rewrite IH.
    + destruct (String.eqb_spec z x); [congruence|]. now rewrite <- IH.
    + pose proof (list_remove_error x r e1 E1). pose proof (list_remove_error y r e2 E2).
      congruence.
Qed.

(** The order in which the set intersection is iterated does not matter. *)
Lemma remove_each_perm (xs ys l : list string) :
  xs ≡ₚ ys -> remove_each xs l = remove_each ys l.
Proof.
  intros Hp. revert l. induction Hp as [|x xs ys Hp IH|x y xs|xs ys zs _ IH1 _ IH2]; intros l.
  - reflexivity.
  - simpl. destruct (list_remove x l); [apply IH | reflexivity].
  - simpl. destruct (String.eqb_spec x y) as [->|Hxy]; [reflexivity|].
    pose proof (list_remove_comm x y l Hxy) as Hc.
    destruct (list_remove y l) as [l1|e1]; destruct (list_remove x l) as [l2|e2].
    + now rewrite Hc.
    + destruct (list_remove x l1); [discriminate | congruence].
    + destruct (list_remove y l2); [discriminate | congruence].
    + pose proof (list_remove_comm x y l Hxy). congruence.
  - now rewrite IH1.
Qed.

Lemma list_remove_count (x : string) (l : list string) :
  x ∈ l ->
  exists l', list_remove x l = Ok l' /\
    forall y, count_occ string_dec l y =
              count_occ string_dec l' y + (if decide (y = x) then 1 else 0).
Proof.
  induction l as [|z r IH]; intros Hin; [now apply elem_of_nil in Hin|].
  simpl. destruct (String.eqb_spec z x) as [->|Hzx].
  - exists r. split; [reflexivity|]. intros y.
    destruct (string_dec x y) as [->|Hn]; destruct (decide _); try congruence; lia.
  - apply elem_of_cons in Hin. destruct Hin as [->|Hin]; [congruence|].
    destruct (IH Hin) as (r' & E & Hc). rewrite E. exists (z :: r').
    split; [reflexivity|]. intros y. simpl. rewrite Hc.
    destruct (string_dec z y); lia.
Qed.

Lemma count_occ_pos_elem_of (l : list string) (x : string) :
  x ∈ l <-> 0 < count_occ string_dec l x.
Proof. rewrite list_elem_of_In. apply count_occ_In. Qed.

Lemma remove_each_count (xs l : list string) :
  NoDup xs -> (forall x, x ∈ xs -> x ∈ l) ->
  exists l', remove_each xs l = Ok l' /\
    forall y, count_occ string_dec l y =
              count_occ string_dec l' y + (if decide (y ∈ xs) then 1 else 0).
Proof.
  revert l. induction xs as [|x xs IH]; intros l Hnd Hin.
  - exists l. split; [reflexivity|]. intros y.
    destruct (decide _) as [Hy|_]; [now apply elem_of_nil in Hy | lia].
  - apply NoDup_cons in Hnd. destruct Hnd as [Hx Hnd].
    destruct (list_remove_count x l) as (l1 & E1 & Hc1).
    { apply Hin. now left. }
    destruct (IH l1 Hnd) as (l' & E' & Hc').
    { intros x' Hx'. apply count_occ_pos_elem_of.
      assert (x' ∈ l) as Hl by (apply Hin; now right).
      apply count_occ_pos_elem_of in Hl. rewrite Hc1 in Hl.
      destruct (decide (x' = x)) as [->|_]; [contradiction | lia]. }
    exists l'. simpl. rewrite E1. split; [exact E'|]. intros y.
    rewrite Hc1, Hc'.
    destruct (decide (y = x)) as [->|Hyx].
    + destruct (decide (x ∈ xs)); [contradiction|].
      destruct (decide (x ∈ x :: xs)) as [_|Hn]; [lia|]. exfalso. apply Hn. now left.
    + destruct (decide (y ∈ xs)) as [Hy|Hy];
        destruct (decide (y ∈ x :: xs)) as [Hy'|Hy']; try lia.
      * exfalso. apply Hy'. now right.
      * apply elem_of_cons in Hy'. destruct Hy'; contradiction.
Qed.

Lemma elem_of_set_inter (xs ys : list string) (x : string) :
  x ∈ set_inter xs ys <-> x ∈ xs /\ x ∈ ys.
Proof.
  unfold set_inter. rewrite elem_of_remove_dups, list_elem_of_filter. tauto.
Qed.

(** What the reconciliation does: it never fails, and every path claimed
    by both lists loses exactly one of its occurrences among the modules. *)
Lemma reconcile_count (scripts modules : list string) :
  exists m2, reconcile scripts modules = Ok m2 /\
    forall y, count_occ string_dec modules y =
              count_occ string_dec m2 y +
              (if decide (y ∈ scripts /\ y ∈ modules) then 1 else 0).
Proof.
  unfold reconcile. destruct scripts as [|s0 scripts].
  { exists modules. split; [reflexivity|]. intros y.
    destruct (decide _) as [[Hy _]|_]; [now apply elem_of_nil in Hy | lia]. }
  destruct modules as [|m0 modules].
  { exists []. split; [reflexivity|]. intros y.
    destruct (decide _) as [[_ Hy]|_]; [now apply elem_of_nil in Hy | lia]. }
  destruct (remove_each_count (set_inter (s0 :: scripts) (m0 :: modules)) (m0 :: modules))
    as (l' & E & Hc).
  - apply NoDup_remove_dups.
  - intros x Hx. now apply elem_of_set_inter in Hx.
  - exists l'. split; [exact E|]. intros y. rewrite Hc.
    destruct (decide (y ∈ set_inter _ _)) as [Hy|Hy]; destruct (decide (_ /\ _)) as [Hy'|Hy'];
      try reflexivity; rewrite elem_of_set_inter in Hy; contradiction.
Qed.

(** A path both lists claim, and that the module list holds once, is
    gone from the modules. *)
Lemma reconcile_single (scripts modules m2 : list string) (x : string) :
  reconcile scripts modules = Ok m2 ->
  x ∈ scripts -> count_occ string_dec modules x = 1 -> x ∉ m2.
Proof.
  intros E Hs Hc. destruct (reconcile_count scripts modules) as (m2' & E' & Hcount).
  assert (m2' = m2) as -> by congruence.
  specialize (Hcount x). rewrite Hc in Hcount.
  destruct (decide _) as [_|Hn].
  - intros Hin. apply count_occ_pos_elem_of in Hin. lia.
  - exfalso. apply Hn. split; [exact Hs|]. apply count_occ_pos_elem_of. lia.
Qed.

(** A path the module list holds more than once stays among the modules. *)
Lemma reconcile_repeated (scripts modules m2 : list string) (x : string) :
  reconcile scripts modules = Ok m2 ->
  1 < count_occ string_dec modules x -> x ∈ m2.
Proof.
  intros E Hc. destruct (reconcile_count scripts modules) as (m2' & E' & Hcount).
  assert (m2' = m2) as -> by congruence.
  specialize (Hcount x). apply count_occ_pos_elem_of.
  destruct (decide _); lia.
Qed.

(** C3.  With [scripts = main.py] and [modules = *.py main.py] the path
    [/src/main.py] is resolved once as a script and twice as a module;
    the reconciliation removes one of the two, and [load] makes a
    [Module] of [main.py] besides the [Script]. *)
Theorem Project_load_overlap_repeated :
  let excludes := GLOBAL_EXCLS in
  let scripts := search_item flat_host "/src" "main.py" excludes false in
  let modules := search_item flat_host "/src" "*.py" excludes false ++
                 search_item flat_host "/src" "main.py" excludes false in
  let rw := Project_load flat_host overlap_data (new_world "/home/dev/.pyarmor") in
  scripts = ["/src/main.py"] /\
  modules = ["/src/main.py"; "/src/util.py"; "/src/main.py"] /\
  reconcile scripts modules = Ok ["/src/util.py"; "/src/main.py"] /\
  fst rw = Ok tt /\
  paths_of (snd rw) (Proj._scripts (project (snd rw))) = [Some "main.py"] /\
  paths_of (snd rw) (Proj._modules (project (snd rw))) = [Some "util.py"; Some "main.py"].
Proof. vm_compute. repeat split. Qed.

Example Project_load_overlap_once :
  let rw := Project_load flat_host overlap_once_data (new_world "/home/dev/.pyarmor") in
  fst rw = Ok tt /\
  paths_of (snd rw) (Proj._scripts (project (snd rw))) = [Some "main.py"] /\
  paths_of (snd rw) (Proj._modules (project (snd rw))) = [Some "util.py"].
Proof. vm_compute. repeat split. Qed.

(** * Names *)

(** Under [wf_heap] the recursion of [qualname] from [a] needs no more
    fuel than [S a]. *)
Lemma qualname_rec_fuel (h : list Unit.t) :
  wf_heap h ->
  forall a n, a < n -> qualname_rec n h a = qualname_rec (S a) h a.
Proof.
  intros Hwf a. induction a as [a IH] using lt_wf_ind. intros n Hn.
  destruct n as [|n]; [lia|]. cbn [qualname_rec].
  destruct (h !! a) as [u|] eqn:Ea; [|reflexivity].
  destruct (Unit.parent u) as [| |p] eqn:Ep; try reflexivity.
  pose proof (Hwf a u p Ea Ep) as Hp.
  rewrite (IH p Hp n) by lia. rewrite (IH p Hp a) by lia. reflexivity.
Qed.

Lemma qualname_rec_total (h : list Unit.t) :
  wf_heap h ->
  forall a, a < length h -> exists q, qualname_rec (S a) h a = Ok q.
Proof.
  intros Hwf a. induction a as [a IH] using lt_wf_ind. intros Ha.
  cbn [qualname_rec]. destruct (lookup_lt_is_Some_2 h a Ha) as [u Eu]. rewrite Eu.
  destruct (Unit.parent u) as [| |p] eqn:Ep; try (eexists; reflexivity).
  pose proof (Hwf a u p Eu Ep) as Hp.
  destruct (IH p Hp) as [pq Epq]; [lia|].
  rewrite (qualname_rec_fuel h Hwf p a Hp), Epq. eexists; reflexivity.
Qed.

Lemma qualname_fuel (w : World) (a : addr) :
  wf_heap (heap w) -> a < length (heap w) ->
  qualname w a = qualname_rec (S a) (heap w) a.
Proof. intros Hwf Ha. unfold qualname. now apply qualname_rec_fuel. Qed.

Lemma Module_name_init (u : Unit.t) :
  Unit._name u = "__init__" -> Module_name u = "".
Proof. intros E. unfold Module_name. now rewrite E. Qed.

(** C1, as the code has it.  In a heap where parents precede their
    children, [qualname] returns; under a parent that is a code unit it
    is the parent's [qualname], followed by a dot and [name] unless
    [name] is empty; under the project, or without a parent, it is the
    stored [_name] as it is.  The property [name] of a unit stored as
    [__init__] is empty. *)
Theorem qualname_spec (w : World) (a : addr) (u : Unit.t) :
  wf_heap (heap w) ->
  heap w !! a = Some u ->
  (Unit._name u = "__init__" -> Module_name u = "") /\
  match Unit.parent u with
  | PUnit p =>
      exists pq, qualname w p = Ok pq /\
        qualname w a =
        Ok (if PyStr.is_empty (Module_name u) then pq
            else pq +:+ "." +:+ Module_name u)
  | PNone | PProject => qualname w a = Ok (Unit._name u)
  end.
Proof.
  intros Hwf Ea. split; [apply Module_name_init|].
  assert (Ha : a < length (heap w)) by (eapply lookup_lt_Some; eassumption).
  rewrite (qualname_fuel w a Hwf Ha). cbn [qualname_rec]. rewrite Ea.
  destruct (Unit.parent u) as [| |p] eqn:Ep; try reflexivity.
  pose proof (Hwf a u p Ea Ep) as Hp.
  assert (Hpl : p < length (heap w)) by lia.
  destruct (qualname_rec_total (heap w) Hwf p Hpl) as [pq Epq].
  exists pq. rewrite (qualname_fuel w p Hwf Hpl). split; [exact Epq|].
  rewrite (qualname_rec_fuel (heap w) Hwf p a Hp), Epq.
  unfold PyStr.truthy. destruct (PyStr.is_empty (Module_name u)) eqn:Ee; simpl.
  - destruct (Module_name u); [|discriminate].
    now rewrite !append_empty_r.
  - f_equal. apply append_assoc.
Qed.

Lemma qualname_spec_witness :
  let w := snd (Package_load tree_host 0 tree_world) in
  exists pq, qualname w 0 = Ok pq /\ qualname w 4 = Ok (pq +:+ "." +:+ "m").
Proof.
  intros w.
  refine (proj2 (qualname_spec w 4
            (Unit.mk KModule (PUnit 0) "m.py" "m" None None) _ _)).
  - check_wf_heap.
  - reflexivity.
Defined.

Example qualname_package_init :
  let w := snd (Package_load tree_host 0 tree_world) in
  qualname w 0 = Ok "pkg" /\ qualname w 3 = Ok "pkg" /\ qualname w 4 = Ok "pkg.m" /\
  (Unit._name <$> heap w !! 3) = Some "__init__".
Proof. vm_compute. repeat split. Qed.

(** C1 fails for a module [__init__] right under the project, and for
    one without a parent: [name] is empty, yet [qualname] is
    ["__init__"].  No string would do as the project's qualname, since
    the sibling [a] has the qualname ["a"]. *)
Lemma qualname_top_level_init :
  (Unit.parent <$> heap tree_world !! 1) = Some PProject /\
  (Unit._name <$> heap tree_world !! 1) = Some "__init__" /\
  (Module_name <$> heap tree_world !! 1) = Some "" /\
  qualname tree_world 1 = Ok "__init__" /\
  (Module_name <$> heap tree_world !! 2) = Some "a" /\
  qualname tree_world 2 = Ok "a" /\
  (forall P : string,
     ~ (qualname tree_world 1 = Ok P /\ qualname tree_world 2 = Ok (P +:+ "." +:+ "a"))) /\
  (Unit.parent <$> heap orphan_world !! 0) = Some PNone /\
  (Module_name <$> heap orphan_world !! 0) = Some "" /\
  qualname orphan_world 0 = Ok "__init__".
Proof.
  repeat split; try (vm_compute; reflexivity).
  intros P [E1 E2]. vm_compute in E1. inversion E1; subst P.
  vm_compute in E2. discriminate E2.
Qed.

Lemma wf_heap_nil : wf_heap [].
Proof. intros a u p Ha. now rewrite lookup_nil in Ha. Qed.

Lemma wf_heap_app (h l : list Unit.t) :
  wf_heap h ->
  (forall u p, u ∈ l -> Unit.parent u = PUnit p -> p < length h) ->
  wf_heap (h ++ l).
Proof.
  intros Hwf Hl a u p Ha Hp. apply lookup_app_Some in Ha.
  destruct Ha as [Ha|[Hge Ha]].
  - eapply Hwf; eassumption.
  - assert (p < length h); [|lia].
    eapply Hl; [|exact Hp]. eapply list_elem_of_lookup_2; eassumption.
Qed.

(** [Project.load] keeps parents before their children. *)
Lemma Project_load_wf (H : Host) (data : gmap string string) (w : World) :
  wf_heap (heap w) -> wf_heap (heap (snd (Project_load H data w))).
Proof.
  intros Hwf. destruct (Project_load_extends H data w) as (l & _ & _ & _ & Hh & Hl & _).
  rewrite Hh. apply wf_heap_app; [exact Hwf|].
  intros u p Hu Hp. rewrite Forall_forall in Hl.
  destruct (Hl u Hu) as [Hpar _]. rewrite Hpar in Hp. discriminate.
Qed.

(** * [Package.load] and the lazy accessors *)

Lemma mapM_alloc {A : Type} (f : A -> Unit.t) (l : list A) (w : World) :
  mapM (fun x => alloc (f x)) l w =
  (Ok (seq (length (heap w)) (length l)),
   mkWorld (heap w ++ map f l) (project w) (scan_log w) (made_dirs w)).
Proof.
  revert w. induction l as [|x l IH]; intros w.
  - simpl. rewrite app_nil_r. now destruct w.
  - cbn [mapM]. unfold bind at 1. cbn [alloc]. unfold bind at 1. rewrite IH.
    cbn [heap project scan_log made_dirs ret].
    rewrite length_app, <- app_assoc. cbn [length map app].
    replace (length (heap w) + 1) with (S (length (heap w))) by lia.
    reflexivity.
Qed.

Lemma get_package_ok (a : addr) (u : Unit.t) (w : World) :
  heap w !! a = Some u -> Unit.kind u = KPackage -> get_package a w = (Ok u, w).
Proof. intros Ea Ek. unfold get_package. now rewrite Ea, Ek. Qed.

Lemma get_package_inv (a : addr) (u : Unit.t) (w w' : World) :
  get_package a w = (Ok u, w') ->
  w' = w /\ heap w !! a = Some u /\ Unit.kind u = KPackage.
Proof.
  unfold get_package. destruct (heap w !! a) as [v|]; [|discriminate].
  destruct (Unit.kind v) eqn:Ek; try discriminate.
  intros E. inversion E; subst. auto.
Qed.

Lemma get_package_err (a : addr) (e : exn) (w w' : World) :
  get_package a w = (Raise e, w') -> w' = w.
Proof.
  unfold get_package. destruct (heap w !! a) as [v|].
  - destruct (Unit.kind v); intros E; inversion E; reflexivity.
  - intros E; inversion E; reflexivity.
Qed.

(** [Package.load] has no guard of its own: on a package whose directory
    is known it scans and rebinds both lists, whatever they held. *)
Lemma Package_load_ok (H : Host) (a : addr) (u : Unit.t) (dir : string) (w : World) :
  heap w !! a = Some u -> Unit.kind u = KPackage ->
  fst (Module_abspath H a w) = Ok dir ->
  Package_load H a w = (Ok tt, loaded_world H a u dir w).
Proof.
  intros Ea Ek Ed. unfold Package_load.
  unfold bind at 1. rewrite (get_package_ok a u w Ea Ek).
  unfold bind at 1. unfold Module_abspath in *. cbn [fst] in Ed. rewrite Ed.
  unfold bind at 1. unfold scan_path. unfold bind at 1. cbn [log_scan ret].
  unfold bind at 1. rewrite mapM_alloc. cbn [heap project scan_log made_dirs fst snd].
  unfold bind at 1. unfold modify_unit at 1. cbn [heap project scan_log made_dirs].
  rewrite (lookup_app_l_Some _ _ _ _ Ea).
  unfold bind at 1. rewrite mapM_alloc. cbn [heap project scan_log made_dirs].
  unfold modify_unit. cbn [heap project scan_log made_dirs].
  assert (Ha : a < length (heap w)) by (eapply lookup_lt_Some; eassumption).
  assert (Hl : forall (x : Unit.t) (l1 l2 : list Unit.t),
             (<[a := x]> (heap w ++ l1) ++ l2) !! a = Some x).
  { intros x l1 l2. rewrite lookup_app_l by (rewrite length_insert, length_app; lia).
    apply list_lookup_insert_eq. rewrite length_app. lia. }
  rewrite Hl. unfold loaded_world. f_equal. f_equal.
  rewrite <- insert_app_l by (rewrite length_app; lia).
  rewrite list_insert_insert_eq. rewrite length_insert, length_app, length_map.
  rewrite <- app_assoc. reflexivity.
Qed.

Lemma loaded_world_lookup (H : Host) (a : addr) (u : Unit.t) (dir : string) (w : World) :
  heap w !! a = Some u ->
  let fd := scan_entries H GLOBAL_INCLS GLOBAL_EXCLS (scandir H dir) in
  heap (loaded_world H a u dir w) !! a =
  Some (Unit.set_children
          (Some (seq (length (heap w)) (length (fst fd))))
          (Some (seq (length (heap w) + length (fst fd)) (length (snd fd)))) u).
Proof.
  intros Ea fd. unfold loaded_world. cbn [heap].
  apply list_lookup_insert_eq. rewrite length_app.
  apply lookup_lt_Some in Ea. lia.
Qed.

Lemma Package_load_raise (H : Host) (a : addr) (e : exn) (w w' : World) :
  Package_load H a w = (Raise e, w') -> w' = w.
Proof.
  unfold Package_load. unfold bind at 1.
  destruct (get_package a w) as [[u|e0] w0] eqn:Eg.
  - apply get_package_inv in Eg. destruct Eg as (-> & Ea & Ek).
    destruct (fst (Module_abspath H a w)) as [dir|e1] eqn:Ed.
    + pose proof (Package_load_ok H a u dir w Ea Ek Ed) as Hok.
      unfold Package_load in Hok. unfold bind at 1 in Hok.
      rewrite (get_package_ok a u w Ea Ek) in Hok. rewrite Hok. discriminate.
    + unfold bind at 1. unfold Module_abspath in *. cbn [fst] in Ed. rewrite Ed.
      intros E. now inversion E.
  - apply get_package_err in Eg. subst w0. intros E. now inversion E.
Qed.

Lemma Package_load_inv (H : Host) (a : addr) (w w' : World) :
  Package_load H a w = (Ok tt, w') ->
  exists u dir,
    heap w !! a = Some u /\ Unit.kind u = KPackage /\
    fst (Module_abspath H a w) = Ok dir /\ w' = loaded_world H a u dir w.
Proof.
  intros E. pose proof E as E0. unfold Package_load in E. unfold bind at 1 in E.
  destruct (get_package a w) as [[u|e0] w0] eqn:Eg; [|discriminate].
  apply get_package_inv in Eg. destruct Eg as (-> & Ea & Ek).
  destruct (fst (Module_abspath H a w)) as [dir|e1] eqn:Ed.
  - exists u, dir. rewrite (Package_load_ok H a u dir w Ea Ek Ed) in E0.
    inversion E0. auto.
  - unfold bind at 1 in E. unfold Module_abspath in *. cbn [fst] in Ed.
    rewrite Ed in E. discriminate.
Qed.

(** The accessor [modules] on a package that is loaded: the list it
    holds, and no effect. *)
Lemma Package_modules_loaded (H : Host) (a : addr) (u : Unit.t) (ms : list addr) (w : World) :
  heap w !! a = Some u -> Unit.kind u = KPackage -> Unit._modules u = Some ms ->
  Package_modules H a w = (Ok ms, w).
Proof.
  intros Ea Ek Em. unfold Package_modules.
  unfold bind at 1. rewrite (get_package_ok a u w Ea Ek). rewrite Em.
  unfold bind at 1. cbn [ret]. unfold bind. rewrite (get_package_ok a u w Ea Ek).
  now rewrite Em.
Qed.

Lemma Package_packages_loaded (H : Host) (a : addr) (u : Unit.t) (ps : list addr) (w : World) :
  heap w !! a = Some u -> Unit.kind u = KPackage -> Unit._packages u = Some ps ->
  Package_packages H a w = (Ok ps, w).
Proof.
  intros Ea Ek Em. unfold Package_packages.
  unfold bind at 1. rewrite (get_package_ok a u w Ea Ek). rewrite Em.
  unfold bind at 1. cbn [ret]. unfold bind. rewrite (get_package_ok a u w Ea Ek).
  now rewrite Em.
Qed.

(** The accessors on a package that is not loaded yet are [load]
    followed by a read of the list. *)
Lemma Package_modules_unloaded (H : Host) (a : addr) (u : Unit.t) (w : World) :
  heap w !! a = Some u -> Unit.kind u = KPackage -> Unit._modules u = None ->
  Package_modules H a w =
  match fst (Module_abspath H a w) with
  | Ok dir =>
      let fd := scan_entries H GLOBAL_INCLS GLOBAL_EXCLS (scandir H dir) in
      (Ok (seq (length (heap w)) (length (fst fd))), loaded_world H a u dir w)
  | Raise e => (Raise e, w)
  end.
Proof.
  intros Ea Ek Em. unfold Package_modules.
  unfold bind at 1. rewrite (get_package_ok a u w Ea Ek). rewrite Em.
  unfold bind at 1.
  destruct (fst (Module_abspath H a w)) as [dir|e] eqn:Ed.
  - rewrite (Package_load_ok H a u dir w Ea Ek Ed).
    pose proof (loaded_world_lookup H a u dir w Ea) as Hl. cbv zeta in Hl.
    unfold bind. erewrite get_package_ok; [|exact Hl|exact Ek]. reflexivity.
  - destruct (Package_load H a w) as [[[]|e'] w'] eqn:El.
    + apply Package_load_inv in El. destruct El as (u' & dir & _ & _ & Ed' & _).
      congruence.
    + pose proof (Package_load_raise H a e' w w' El) as ->.
      unfold Package_load in El. unfold bind at 1 in El.
      rewrite (get_package_ok a u w Ea Ek) in El. unfold bind at 1 in El.
      unfold Module_abspath in *. cbn [fst] in Ed. rewrite Ed in El.
      inversion El. reflexivity.
Qed.

Lemma Package_packages_unloaded (H : Host) (a : addr) (u : Unit.t) (w : World) :
  heap w !! a = Some u -> Unit.kind u = KPackage -> Unit._packages u = None ->
  Package_packages H a w =
  match fst (Module_abspath H a w) with
  | Ok dir =>
      let fd := scan_entries H GLOBAL_INCLS GLOBAL_EXCLS (scandir H dir) in
      (Ok (seq (length (heap w) + length (fst fd)) (length (snd fd))),
       loaded_world H a u dir w)
  | Raise e => (Raise e, w)
  end.
Proof.
  intros Ea Ek Em. unfold Package_packages.
  unfold bind at 1. rewrite (get_package_ok a u w Ea Ek). rewrite Em.
  unfold bind at 1.
  destruct (fst (Module_abspath H a w)) as [dir|e] eqn:Ed.
  - rewrite (Package_load_ok H a u dir w Ea Ek Ed).
    pose proof (loaded_world_lookup H a u dir w Ea) as Hl. cbv zeta in Hl.
    unfold bind. erewrite get_package_ok; [|exact Hl|exact Ek]. reflexivity.
  - destruct (Package_load H a w) as [[[]|e'] w'] eqn:El.
    + apply Package_load_inv in El. destruct El as (u' & dir & _ & _ & Ed' & _).
      congruence.
    + pose proof (Package_load_raise H a e' w w' El) as ->.
      unfold Package_load in El. unfold bind at 1 in El.
      rewrite (get_package_ok a u w Ea Ek) in El. unfold bind at 1 in El.
      unfold Module_abspath in *. cbn [fst] in Ed. rewrite Ed in El.
      inversion El. reflexivity.
Qed.

(** On anything that is not a package both accessors raise, without
    effect. *)
Lemma Package_modules_not_package (H : Host) (a : addr) (e : exn) (w w' : World) :
  get_package a w = (Raise e, w') -> Package_modules H a w = (Raise e, w).
Proof.
  intros Eg. pose proof (get_package_err a e w w' Eg) as ->.
  unfold Package_modules, bind. now rewrite Eg.
Qed.

Lemma Package_packages_not_package (H : Host) (a : addr) (e : exn) (w w' : World) :
  get_package a w = (Raise e, w') -> Package_packages H a w = (Raise e, w).
Proof.
  intros Eg. pose proof (get_package_err a e w w' Eg) as ->.
  unfold Package_packages, bind. now rewrite Eg.
Qed.

(** C2, as the code has it.  [Package.load] does not look at the
    sentinel: on a package whose directory resolves, every call scans
    the directory once more and binds [_modules] and [_packages] to
    objects created by that call, whatever the two attributes held.
    The guard is in the accessors: after the call they return these
    lists without any effect. *)
Theorem Package_load_rescans (H : Host) (a : addr) (u : Unit.t) (dir : string) (w : World) :
  heap w !! a = Some u -> Unit.kind u = KPackage ->
  fst (Module_abspath H a w) = Ok dir ->
  let fd := scan_entries H GLOBAL_INCLS GLOBAL_EXCLS (scandir H dir) in
  let ms := seq (length (heap w)) (length (fst fd)) in
  let ps := seq (length (heap w) + length (fst fd)) (length (snd fd)) in
  let rw := Package_load H a w in
  fst rw = Ok tt /\
  scan_log (snd rw) = scan_log w ++ [dir] /\
  length (heap (snd rw)) = length (heap w) + length (fst fd) + length (snd fd) /\
  (Unit._modules <$> heap (snd rw) !! a) = Some (Some ms) /\
  (Unit._packages <$> heap (snd rw) !! a) = Some (Some ps) /\
  Package_modules H a (snd rw) = (Ok ms, snd rw) /\
  Package_packages H a (snd rw) = (Ok ps, snd rw).
Proof.
  intros Ea Ek Ed fd ms ps rw. subst rw.
  rewrite (Package_load_ok H a u dir w Ea Ek Ed). cbn [fst snd].
  pose proof (loaded_world_lookup H a u dir w Ea) as Hl. cbv zeta in Hl.
  fold fd in Hl. fold ms in Hl. fold ps in Hl.
  split; [reflexivity|]. split; [reflexivity|]. split.
  { unfold loaded_world. cbn [heap]. rewrite length_insert, !length_app, !length_map.
    fold fd. lia. }
  split; [now rewrite Hl|]. split; [now rewrite Hl|]. split.
  - eapply Package_modules_loaded; [exact Hl|exact Ek|reflexivity].
  - eapply Package_packages_loaded; [exact Hl|exact Ek|reflexivity].
Qed.

Lemma Package_load_rescans_witness :
  let rw := Package_load tree_host 0 tree_world in
  fst rw = Ok tt /\
  scan_log (snd rw) = ["/src/pkg"] /\
  length (heap (snd rw)) = 6 /\
  (Unit._modules <$> heap (snd rw) !! 0) = Some (Some [3; 4]) /\
  (Unit._packages <$> heap (snd rw) !! 0) = Some (Some [5]) /\
  Package_modules tree_host 0 (snd rw) = (Ok [3; 4], snd rw) /\
  Package_packages tree_host 0 (snd rw) = (Ok [5], snd rw).
Proof.
  exact (Package_load_rescans tree_host 0
           (Unit.mk KPackage PProject "/src/pkg" "pkg" None None) "/src/pkg" tree_world
           eq_refl eq_refl eq_refl).
Defined.

(** C2 fails: a second [Package.load] is not a no-op.  It reads the
    directory again and puts new objects in the place of the children
    the first call made. *)
Lemma Package_load_twice_differs :
  let w1 := snd (Package_load tree_host 0 tree_world) in
  let rw2 := Package_load tree_host 0 w1 in
  scan_log w1 = ["/src/pkg"] /\
  (Unit._modules <$> heap w1 !! 0) = Some (Some [3; 4]) /\
  (Unit._packages <$> heap w1 !! 0) = Some (Some [5]) /\
  fst rw2 = Ok tt /\
  scan_log (snd rw2) = ["/src/pkg"; "/src/pkg"] /\
  (Unit._modules <$> heap (snd rw2) !! 0) = Some (Some [6; 7]) /\
  (Unit._packages <$> heap (snd rw2) !! 0) = Some (Some [8]) /\
  snd rw2 <> w1.
Proof.
  repeat split; try (vm_compute; reflexivity).
  intros E. apply (f_equal scan_log) in E. vm_compute in E. discriminate E.
Qed.

(** C5.  On a unit whose two sentinels agree, each accessor called a
    second time returns what it returned the first time and leaves the
    world as the first call left it, so that no directory is read again;
    and once one accessor has returned its list, the other returns its
    own without any effect: the load the first one made serves both. *)
Theorem Package_accessors_idempotent (H : Host) (a : addr) (w : World) :
  sentinels_agree (heap w) ->
  let rm := Package_modules H a w in
  let rp := Package_packages H a w in
  Package_modules H a (snd rm) = rm /\
  Package_packages H a (snd rp) = rp /\
  (forall ms, fst rm = Ok ms ->
     exists ps, Package_packages H a (snd rm) = (Ok ps, snd rm)) /\
  (forall ps, fst rp = Ok ps ->
     exists ms, Package_modules H a (snd rp) = (Ok ms, snd rp)).
Proof.
  intros Hs rm rp. subst rm rp.
  destruct (get_package a w) as [[u|e] w0] eqn:Eg.
  2:{ rewrite (Package_modules_not_package H a e w w0 Eg).
      rewrite (Package_packages_not_package H a e w w0 Eg). cbn [fst snd].
      rewrite (Package_modules_not_package H a e w w0 Eg).
      rewrite (Package_packages_not_package H a e w w0 Eg).
      repeat split; intros; discriminate. }
  apply get_package_inv in Eg. destruct Eg as (-> & Ea & Ek).
  pose proof (Hs a u Ea) as Hagree.
  destruct (Unit._modules u) as [ms|] eqn:Em.
  - destruct (Unit._packages u) as [ps|] eqn:Ep.
    2:{ destruct Hagree as [_ Hc]. specialize (Hc eq_refl). discriminate. }
    rewrite (Package_modules_loaded H a u ms w Ea Ek Em).
    rewrite (Package_packages_loaded H a u ps w Ea Ek Ep). cbn [fst snd].
    rewrite (Package_modules_loaded H a u ms w Ea Ek Em).
    rewrite (Package_packages_loaded H a u ps w Ea Ek Ep).
    repeat split; intros; eexists; reflexivity.
  - assert (Ep : Unit._packages u = None) by (now apply Hagree).
    rewrite (Package_modules_unloaded H a u w Ea Ek Em).
    rewrite (Package_packages_unloaded H a u w Ea Ek Ep).
    destruct (fst (Module_abspath H a w)) as [dir|e] eqn:Ed.
    + cbv zeta. cbn [fst snd].
      pose proof (loaded_world_lookup H a u dir w Ea) as Hl. cbv zeta in Hl.
      erewrite (Package_modules_loaded H a _ _ _ Hl Ek) by reflexivity.
      erewrite (Package_packages_loaded H a _ _ _ Hl Ek) by reflexivity.
      repeat split; intros; eexists; reflexivity.
    + cbn [fst snd].
      rewrite (Package_modules_unloaded H a u w Ea Ek Em).
      rewrite (Package_packages_unloaded H a u w Ea Ek Ep). rewrite Ed.
      repeat split; intros; discriminate.
Qed.

Lemma Package_accessors_idempotent_witness :
  let rm := Package_modules tree_host 0 tree_world in
  let rp := Package_packages tree_host 0 tree_world in
  Package_modules tree_host 0 (snd rm) = rm /\
  Package_packages tree_host 0 (snd rp) = rp /\
  (forall ms, fst rm = Ok ms ->
     exists ps, Package_packages tree_host 0 (snd rm) = (Ok ps, snd rm)) /\
  (forall ps, fst rp = Ok ps ->
     exists ms, Package_modules tree_host 0 (snd rp) = (Ok ms, snd rp)).
Proof.
  apply (Package_accessors_idempotent tree_host 0 tree_world).
  check_sentinels.
Defined.

Example Package_accessors_on_tree :
  let rm := Package_modules tree_host 0 tree_world in
  fst rm = Ok [3; 4] /\ scan_log (snd rm) = ["/src/pkg"] /\
  Package_modules tree_host 0 (snd rm) = (Ok [3; 4], snd rm) /\
  Package_packages tree_host 0 (snd rm) = (Ok [5], snd rm).
Proof. vm_compute. repeat split. Qed.

(** * [Project.get_module] *)

Lemma same_unit_refl (u : Unit.t) : same_unit u u.
Proof. repeat split; auto. Qed.

Lemma same_unit_trans (u1 u2 u3 : Unit.t) :
  same_unit u1 u2 -> same_unit u2 u3 -> same_unit u1 u3.
Proof.
  intros (Hk & Hp & Hpa & Hn & Hm & Hq) (Hk' & Hp' & Hpa' & Hn' & Hm' & Hq').
  repeat split; try congruence; auto.
Qed.

Lemma fills_refl (w : World) : fills w w.
Proof.
  split; [lia|]. split; [|split; reflexivity].
  intros a u Ha. exists u. split; [exact Ha | apply same_unit_refl].
Qed.

Lemma fills_trans (w1 w2 w3 : World) : fills w1 w2 -> fills w2 w3 -> fills w1 w3.
Proof.
  intros (Hl & Hu & Hm & Hp) (Hl' & Hu' & Hm' & Hp').
  split; [lia|]. split; [|split; congruence].
  intros a u Ha. destruct (Hu a u Ha) as (u2 & Ha2 & Hs).
  destruct (Hu' a u2 Ha2) as (u3 & Ha3 & Hs').
  exists u3. split; [exact Ha3|]. eapply same_unit_trans; eassumption.
Qed.

Lemma tree_pkg_fills (w w' : World) (a : addr) :
  fills w w' -> tree_pkg w a -> tree_pkg w' a.
Proof.
  intros Hf Ht. pose proof Hf as (_ & Hu & _ & Hp).
  induction Ht as [a Ha|p u ps a _ IH Hl Hps Ha].
  - apply tree_pkg_top. now rewrite Hp.
  - destruct (Hu p u Hl) as (u' & Hl' & Hs).
    destruct Hs as (_ & _ & _ & _ & _ & Hq).
    eapply tree_pkg_sub; [exact IH | exact Hl' | apply Hq; exact Hps | exact Ha].
Qed.

Lemma tree_module_fills (w w' : World) (a : addr) :
  fills w w' -> tree_module w a -> tree_module w' a.
Proof.
  intros Hf [Ha|(p & u & ms & Hp & Hl & Hms & Ha)].
  - left. destruct Hf as (_ & _ & Hm & _). now rewrite Hm.
  - right. pose proof Hf as (_ & Hu & _ & _).
    destruct (Hu p u Hl) as (u' & Hl' & Hs).
    destruct Hs as (_ & _ & _ & _ & Hm & _).
    exists p, u', ms. split; [eapply tree_pkg_fills; eassumption|].
    split; [exact Hl'|]. split; [apply Hm; exact Hms | exact Ha].
Qed.

Lemma Module_name_same (u u' : Unit.t) :
  Unit._name u' = Unit._name u -> Module_name u' = Module_name u.
Proof. intros E. unfold Module_name. now rewrite E. Qed.

(** A qualname, once computed, stays: loads neither rename a unit nor
    change its parent. *)
Lemma qualname_rec_fills (w w' : World) :
  fills w w' ->
  forall n m a q, n <= m ->
    qualname_rec n (heap w) a = Ok q -> qualname_rec m (heap w') a = Ok q.
Proof.
  intros (_ & Hu & _ & _) n. induction n as [|n IH]; intros m a q Hnm E.
  - discriminate E.
  - destruct m as [|m]; [lia|]. cbn [qualname_rec] in *.
    destruct (heap w !! a) as [u|] eqn:Ea; [|discriminate E].
    destruct (Hu a u Ea) as (u' & Ea' & Hs). rewrite Ea'.
    destruct Hs as (_ & Hp & _ & Hn & _ & _). rewrite Hp, Hn.
    rewrite (Module_name_same u u' Hn).
    destruct (Unit.parent u) as [| |p]; try exact E.
    destruct (qualname_rec n (heap w) p) as [pq|e] eqn:Ep; [|discriminate E].
    rewrite (IH m p pq) by (lia || exact Ep). exact E.
Qed.

Lemma qualname_fills (w w' : World) (a : addr) (q : string) :
  fills w w' -> qualname w a = Ok q -> qualname w' a = Ok q.
Proof.
  intros Hf. unfold qualname. apply qualname_rec_fills; [exact Hf|].
  now destruct Hf.
Qed.

Lemma index_sound_fills (w w' : World) (idx : gmap string addr) :
  fills w w' -> index_sound w idx -> index_sound w' idx.
Proof.
  intros Hf Hi k x Hk. destruct (Hi k x Hk) as [Ht Hq].
  split; [eapply tree_module_fills | eapply qualname_fills]; eassumption.
Qed.

Lemma index_sound_empty (w : World) : index_sound w ∅.
Proof. intros k x Hk. now rewrite lookup_empty in Hk. Qed.

(** Filing a module of the tree keeps the index sound, and has no effect
    on the world. *)
Lemma index_unit_sound (x : addr) (idx idx' : gmap string addr) (w w' : World) :
  tree_module w x -> index_sound w idx ->
  index_unit x idx w = (Ok idx', w') ->
  w' = w /\ index_sound w idx'.
Proof.
  intros Ht Hi. unfold index_unit, bind, Module_qualname.
  destruct (qualname w x) as [q|e] eqn:Eq; [|discriminate].
  cbn [ret]. intros E. inversion E; subst. split; [reflexivity|].
  intros k y Hk. destruct (decide (q = k)) as [->|Hne].
  - rewrite lookup_insert_eq in Hk. inversion Hk; subst. auto.
  - rewrite lookup_insert_ne in Hk by exact Hne. now apply Hi.
Qed.

Lemma foldM_index_unit (xs : list addr) (idx idx' : gmap string addr) (w w' : World) :
  (forall x, x ∈ xs -> tree_module w x) -> index_sound w idx ->
  foldM index_unit xs idx w = (Ok idx', w') ->
  w' = w /\ index_sound w idx'.
Proof.
  revert idx. induction xs as [|x xs IH]; intros idx Hx Hi.
  - cbn [foldM ret]. intros E. inversion E; subst. auto.
  - cbn [foldM]. unfold bind at 1.
    destruct (index_unit x idx w) as [[idx1|e] w1] eqn:E1; [|discriminate].
    destruct (index_unit_sound x idx idx1 w w1) as [-> Hi1]; try assumption.
    { apply Hx. now left. }
    apply IH; [|exact Hi1]. intros y Hy. apply Hx. now right.
Qed.

Lemma loaded_world_lookup_ne (H : Host) (a b : addr) (u v : Unit.t) (dir : string) (w : World) :
  b <> a -> heap w !! b = Some v ->
  heap (loaded_world H a u dir w) !! b = Some v.
Proof.
  intros Hne Hb. unfold loaded_world. cbn [heap].
  rewrite list_lookup_insert_ne by congruence.
  now apply lookup_app_l_Some.
Qed.

Lemma loaded_world_fills (H : Host) (a : addr) (u : Unit.t) (dir : string) (w : World) :
  heap w !! a = Some u -> Unit._modules u = None -> Unit._packages u = None ->
  fills w (loaded_world H a u dir w).
Proof.
  intros Ea Em Ep. split; [|split; [|split; reflexivity]].
  - unfold loaded_world. cbn [heap]. rewrite length_insert, length_app. lia.
  - intros b v Hb. destruct (decide (b = a)) as [->|Hne].
    + assert (v = u) as -> by congruence.
      eexists. split; [apply (loaded_world_lookup H a u dir w Ea)|].
      repeat split; try reflexivity; intros l Hl; cbn; congruence.
    + exists v. split; [now apply loaded_world_lookup_ne | apply same_unit_refl].
Qed.

Lemma loaded_world_sentinels (H : Host) (a : addr) (u : Unit.t) (dir : string) (w : World) :
  sentinels_agree (heap w) -> heap w !! a = Some u ->
  sentinels_agree (heap (loaded_world H a u dir w)).
Proof.
  intros Hs Ea b v Hb. destruct (decide (b = a)) as [->|Hne].
  - rewrite (loaded_world_lookup H a u dir w Ea) in Hb. inversion Hb; subst v.
    cbn. split; discriminate.
  - unfold loaded_world in Hb. cbn [heap] in Hb.
    rewrite list_lookup_insert_ne in Hb by congruence.
    apply lookup_app_Some in Hb. destruct Hb as [Hb|[_ Hb]]; [now apply (Hs b)|].
    apply list_elem_of_lookup_2 in Hb. apply elem_of_app in Hb.
    destruct Hb as [Hb|Hb]; apply list_elem_of_fmap in Hb;
      destruct Hb as (x & -> & _); cbn; tauto.
Qed.

(** The loop over sub-packages, given what one package does. *)
Lemma foldM_packages_sound (H : Host)
    (iter : addr -> gmap string addr -> M (gmap string addr)) :
  (forall a idx w idx' w',
     sentinels_agree (heap w) -> tree_pkg w a -> index_sound w idx ->
     iter a idx w = (Ok idx', w') ->
     fills w w' /\ sentinels_agree (heap w') /\ index_sound w' idx') ->
  forall ps idx w idx' w',
    sentinels_agree (heap w) -> (forall p, p ∈ ps -> tree_pkg w p) ->
    index_sound w idx ->
    foldM iter ps idx w = (Ok idx', w') ->
    fills w w' /\ sentinels_agree (heap w') /\ index_sound w' idx'.
Proof.
  intros Hiter ps. induction ps as [|p ps IH]; intros idx w idx' w' Hs Hp Hi.
  - cbn [foldM ret]. intros E. inversion E; subst.
    split; [apply fills_refl | auto].
  - cbn [foldM]. unfold bind at 1.
    destruct (iter p idx w) as [[idx1|e] w1] eqn:E1; [|discriminate].
    destruct (Hiter p idx w idx1 w1) as (Hf1 & Hs1 & Hi1); try assumption.
    { apply Hp. now left. }
    intros E.
    destruct (IH idx1 w1 idx' w') as (Hf2 & Hs2 & Hi2); try assumption.
    { intros q Hq. eapply tree_pkg_fills; [exact Hf1|]. apply Hp. now right. }
    split; [eapply fills_trans; eassumption | auto].
Qed.

(** The load that [iter_module] makes when a list is still [None]. *)
Lemma iter_load_step (H : Host) (a : addr) (u : Unit.t) (w w1 : World) :
  sentinels_agree (heap w) ->
  heap w !! a = Some u -> Unit.kind u = KPackage ->
  match Unit._modules u, Unit._packages u with
  | Some _, Some _ => ret tt
  | _, _ => Package_load H a
  end w = (Ok tt, w1) ->
  fills w w1 /\ sentinels_agree (heap w1) /\
  exists u1 ms ps,
    heap w1 !! a = Some u1 /\ Unit.kind u1 = KPackage /\
    Unit._modules u1 = Some ms /\ Unit._packages u1 = Some ps.
Proof.
  intros Hs Ea Ek. pose proof (Hs a u Ea) as Hagree.
  destruct (Unit._modules u) as [ms|] eqn:Em; destruct (Unit._packages u) as [ps|] eqn:Ep.
  - cbn [ret]. intros E. inversion E; subst w1.
    split; [apply fills_refl|]. split; [exact Hs|]. exists u, ms, ps. auto.
  - destruct Hagree as [_ Hc]. specialize (Hc eq_refl). discriminate.
  - destruct Hagree as [Hc _]. specialize (Hc eq_refl). discriminate.
  - intros E. apply Package_load_inv in E.
    destruct E as (u' & dir & Ea' & _ & _ & ->).
    assert (u' = u) as -> by congruence.
    split; [now apply loaded_world_fills|].
    split; [now apply loaded_world_sentinels|].
    eexists _, _, _. split; [apply (loaded_world_lookup H a u dir w Ea)|].
    cbn. auto.
Qed.

(** Iterating a package of the tree files modules of the tree only, and
    changes the world by lazy loads only. *)
Lemma Package_iter_module_sound (H : Host) (d : nat) :
  forall a idx w idx' w',
    sentinels_agree (heap w) -> tree_pkg w a -> index_sound w idx ->
    Package_iter_module H d a index_unit idx w = (Ok idx', w') ->
    fills w w' /\ sentinels_agree (heap w') /\ index_sound w' idx'.
Proof.
  induction d as [|d IH]; intros a idx w idx' w' Hs Ht Hi; [discriminate|].
  cbn [Package_iter_module]. unfold bind at 1.
  destruct (get_package a w) as [[u|e] w0] eqn:Eg; [|discriminate].
  apply get_package_inv in Eg. destruct Eg as (-> & Ea & Ek).
  unfold bind at 1.
  destruct (match Unit._modules u, Unit._packages u with
            | Some _, Some _ => ret tt
            | _, _ => Package_load H a
            end w) as [[[]|e] w1] eqn:El; [|discriminate].
  destruct (iter_load_step H a u w w1 Hs Ea Ek El)
    as (Hf1 & Hs1 & u1 & ms & ps & Ea1 & Ek1 & Em1 & Ep1).
  unfold bind at 1. rewrite (get_package_ok a u1 w1 Ea1 Ek1).
  unfold bind at 1. rewrite Em1. cbn [iter_attr ret].
  assert (Ht1 : tree_pkg w1 a) by (eapply tree_pkg_fills; eassumption).
  assert (Hi1 : index_sound w1 idx) by (eapply index_sound_fills; eassumption).
  unfold bind at 1.
  destruct (foldM index_unit ms idx w1) as [[idx2|e] w2] eqn:Ef; [|discriminate].
  destruct (foldM_index_unit ms idx idx2 w1 w2) as [-> Hi2]; try assumption.
  { intros x Hx. right. exists a, u1, ms. auto. }
  unfold bind at 1. rewrite (get_package_ok a u1 w1 Ea1 Ek1).
  unfold bind at 1. rewrite Ep1. cbn [iter_attr ret].
  intros E.
  destruct (foldM_packages_sound H
              (fun pkg s' => Package_iter_module H d pkg index_unit s') IH
              ps idx2 w1 idx' w') as (Hf2 & Hs2 & Hi'); try assumption.
  { intros p Hp. eapply tree_pkg_sub; eassumption. }
  split; [eapply fills_trans; eassumption | auto].
Qed.

Lemma Project_iter_module_sound (H : Host) (w w' : World) (idx' : gmap string addr) :
  sentinels_agree (heap w) ->
  Project_iter_module H index_unit ∅ w = (Ok idx', w') ->
  fills w w' /\ sentinels_agree (heap w') /\ index_sound w' idx'.
Proof.
  intros Hs. unfold Project_iter_module. unfold bind at 1. cbn [get_project].
  unfold bind at 1.
  destruct (foldM index_unit (Proj._modules (project w)) ∅ w) as [[idx1|e] w1] eqn:Ef;
    [|discriminate].
  destruct (foldM_index_unit (Proj._modules (project w)) ∅ idx1 w w1) as [-> Hi1];
    [intros x Hx; now left | apply index_sound_empty | exact Ef |].
  unfold bind at 1. cbn [get_project]. unfold bind at 1.
  destruct (foldM _ (Proj._packages (project w)) idx1 w) as [[idx2|e] w2] eqn:Ep;
    [|discriminate].
  destruct (foldM_packages_sound H
              (fun child s' => Package_iter_module H (recursion_limit H) child index_unit s')
              (Package_iter_module_sound H (recursion_limit H))
              (Proj._packages (project w)) idx1 w idx2 w2) as (Hf & Hs2 & Hi2);
    try assumption.
  { intros p Hp. now apply tree_pkg_top. }
  destruct (Proj._namespaces (project w)); [|discriminate].
  cbn [ret]. intros E. inversion E; subst. auto.
Qed.

(** With the index in place a lookup reads it and nothing else. *)
Lemma Project_get_module_indexed (H : Host) (name : string) (w : World)
    (idx : gmap string addr) :
  Proj._rmodules (project w) = Some idx ->
  Project_get_module H name w = (Ok (idx !! name), w).
Proof.
  intros E. unfold Project_get_module, bind. cbn [get_project]. rewrite E.
  cbn [ret]. now rewrite E.
Qed.

(** The first lookup builds the index by iterating the whole tree. *)
Lemma Project_get_module_first (H : Host) (name : string) (w w1 : World) (r : option addr) :
  Proj._rmodules (project w) = None ->
  Project_get_module H name w = (Ok r, w1) ->
  exists idx w',
    Project_iter_module H index_unit ∅ w = (Ok idx, w') /\
    w1 = mkWorld (heap w') (Proj.set_rmodules (Some idx) (project w'))
                 (scan_log w') (made_dirs w') /\
    r = idx !! name.
Proof.
  intros E. unfold Project_get_module. unfold bind at 1. cbn [get_project]. rewrite E.
  unfold bind at 1. unfold bind at 1.
  destruct (Project_iter_module H index_unit ∅ w) as [[idx|e] w'] eqn:Ei; [|discriminate].
  cbn [modify_project]. unfold bind. cbn [get_project project Proj.set_rmodules Proj._rmodules].
  cbn [ret]. intros E1. inversion E1; subst. exists idx, w'. auto.
Qed.

Lemma fills_set_rmodules (w : World) (r : option (gmap string addr)) :
  fills w (mkWorld (heap w) (Proj.set_rmodules r (project w)) (scan_log w) (made_dirs w)).
Proof.
  split; [reflexivity|]. split; [|split; reflexivity].
  intros a u Ha. exists u. split; [exact Ha | apply same_unit_refl].
Qed.

(** C8.  When [get_module] returns, a second call with the same
    qualname returns the same object and has no effect.  When that first
    call was the one that built the index, every later lookup returns
    without an exception; what it finds is a module of the tree with the
    qualname asked for, so that a qualname no module of the tree has is
    answered by [None]. *)
Theorem Project_get_module_repeatable (H : Host) (name : string) (w w1 : World)
    (r : option addr) :
  Project_get_module H name w = (Ok r, w1) ->
  Project_get_module H name w1 = (Ok r, w1) /\
  (sentinels_agree (heap w) -> Proj._rmodules (project w) = None ->
   forall name', exists r',
     Project_get_module H name' w1 = (Ok r', w1) /\
     (forall a, r' = Some a -> tree_module w1 a /\ qualname w1 a = Ok name') /\
     ((forall a, tree_module w1 a -> qualname w1 a <> Ok name') -> r' = None)).
Proof.
  intros E. destruct (Proj._rmodules (project w)) as [idx|] eqn:Er.
  - rewrite (Project_get_module_indexed H name w idx Er) in E.
    inversion E; subst. split; [now apply Project_get_module_indexed|].
    intros _ Hn. discriminate Hn.
  - destruct (Project_get_module_first H name w w1 r Er E) as (idx & w' & Ei & -> & ->).
    split; [now apply Project_get_module_indexed|].
    intros Hs _ name'. exists (idx !! name').
    split; [now apply Project_get_module_indexed|].
    destruct (Project_iter_module_sound H w w' idx Hs Ei) as (_ & _ & Hi).
    pose proof (index_sound_fills _ _ idx (fills_set_rmodules w' (Some idx)) Hi) as Hi'.
    assert (Hfound : forall a, idx !! name' = Some a ->
              tree_module (mkWorld (heap w') (Proj.set_rmodules (Some idx) (project w'))
                                   (scan_log w') (made_dirs w')) a /\
              qualname (mkWorld (heap w') (Proj.set_rmodules (Some idx) (project w'))
                                (scan_log w') (made_dirs w')) a = Ok name').
    { intros a Ha. now apply Hi'. }
    split; [exact Hfound|].
    intros Hno. destruct (idx !! name') as [a|] eqn:Ea; [|reflexivity].
    exfalso. destruct (Hfound a eq_refl) as [Ht Hq]. exact (Hno a Ht Hq).
Qed.

Lemma Project_get_module_repeatable_witness :
  let w1 := snd (Project_get_module tree_host "pkg.sub.x" tree_world) in
  Project_get_module tree_host "pkg.sub.x" w1 = (Ok (Some 7), w1) /\
  forall name', exists r',
    Project_get_module tree_host name' w1 = (Ok r', w1) /\
    (forall a, r' = Some a -> tree_module w1 a /\ qualname w1 a = Ok name') /\
    ((forall a, tree_module w1 a -> qualname w1 a <> Ok name') -> r' = None).
Proof.
  intros w1.
  destruct (Project_get_module_repeatable tree_host "pkg.sub.x" tree_world w1 (Some 7))
    as [Hsame Hall].
  - vm_compute. reflexivity.
  - split; [exact Hsame|]. apply Hall.
    + check_sentinels.
    + reflexivity.
Defined.

Example Project_get_module_on_tree :
  let w1 := snd (Project_get_module tree_host "pkg" tree_world) in
  fst (Project_get_module tree_host "pkg" tree_world) = Ok (Some 3) /\
  scan_log w1 = ["/src/pkg"; "/src/pkg/sub"] /\
  Project_get_module tree_host "pkg" w1 = (Ok (Some 3), w1) /\
  Project_get_module tree_host "pkg.m" w1 = (Ok (Some 4), w1) /\
  Project_get_module tree_host "pkg.sub" w1 = (Ok (Some 6), w1) /\
  Project_get_module tree_host "a" w1 = (Ok (Some 2), w1) /\
  Project_get_module tree_host "__init__" w1 = (Ok (Some 1), w1) /\
  Project_get_module tree_host "pkg.none" w1 = (Ok None, w1).
Proof. vm_compute. repeat split. Qed.

(** * Invariants of the worlds the methods lead to *)

Section Preserves.

Variable I : World -> Prop.

Lemma preserves_ret {A : Type} (a : A) : preserves I (ret a).
Proof. intros w Hw. exact Hw. Qed.

Lemma preserves_raise {A : Type} (e : exn) : preserves I (@raise A e).
Proof. intros w Hw. exact Hw. Qed.

Lemma preserves_bind {A B : Type} (c : M A) (k : A -> M B) :
  preserves I c -> (forall a, preserves I (k a)) -> preserves I (bind c k).
Proof.
  intros Hc Hk w Hw. specialize (Hc w Hw). unfold bind.
  destruct (c w) as [[a|e] w1]; cbn [snd] in *; [now apply Hk | exact Hc].
Qed.

Lemma preserves_foldM {A St : Type} (f : A -> St -> M St) (l : list A) (s : St) :
  (forall x s', preserves I (f x s')) -> preserves I (foldM f l s).
Proof.
  intros Hf. revert s. induction l as [|x l IH]; intros s; cbn [foldM].
  - apply preserves_ret.
  - apply preserves_bind; [apply Hf | intros s'; apply IH].
Qed.

(** A computation that leaves the world as it is. *)
Lemma preserves_pure {A : Type} (c : M A) :
  (forall w, snd (c w) = w) -> preserves I c.
Proof. intros Hc w Hw. now rewrite Hc. Qed.

Lemma preserves_get_project : preserves I get_project.
Proof. now apply preserves_pure. Qed.

Lemma preserves_get_package (a : addr) : preserves I (get_package a).
Proof.
  apply preserves_pure. intros w. unfold get_package.
  destruct (heap w !! a) as [u|]; [destruct (Unit.kind u)|]; reflexivity.
Qed.

Lemma preserves_iter_attr (l : option (list addr)) : preserves I (iter_attr l).
Proof. destruct l; [apply preserves_ret | apply preserves_raise]. Qed.

Lemma preserves_index_unit (x : addr) (idx : gmap string addr) :
  preserves I (index_unit x idx).
Proof.
  apply preserves_pure. intros w. unfold index_unit, bind, Module_qualname.
  destruct (qualname w x); reflexivity.
Qed.

Lemma preserves_Package_modules (H : Host) (a : addr) :
  preserves I (Package_load H a) -> preserves I (Package_modules H a).
Proof.
  intros Hl. unfold Package_modules.
  apply preserves_bind; [apply preserves_get_package|]. intros u.
  apply preserves_bind.
  - destruct (Unit._modules u); [apply preserves_ret | exact Hl].
  - intros _. apply preserves_bind; [apply preserves_get_package|]. intros u'.
    apply preserves_iter_attr.
Qed.

Lemma preserves_Package_packages (H : Host) (a : addr) :
  preserves I (Package_load H a) -> preserves I (Package_packages H a).
Proof.
  intros Hl. unfold Package_packages.
  apply preserves_bind; [apply preserves_get_package|]. intros u.
  apply preserves_bind.
  - destruct (Unit._packages u); [apply preserves_ret | exact Hl].
  - intros _. apply preserves_bind; [apply preserves_get_package|]. intros u'.
    apply preserves_iter_attr.
Qed.

Lemma preserves_Package_iter_module {St : Type} (H : Host) (body : addr -> St -> M St) :
  (forall a, preserves I (Package_load H a)) ->
  (forall x s, preserves I (body x s)) ->
  forall d a s, preserves I (Package_iter_module H d a body s).
Proof.
  intros Hl Hb d. induction d as [|d IH]; intros a s; cbn [Package_iter_module].
  - apply preserves_raise.
  - apply preserves_bind; [apply preserves_get_package|]. intros u.
    apply preserves_bind.
    { destruct (Unit._modules u); [destruct (Unit._packages u)|];
        first [apply preserves_ret | apply Hl]. }
    intros _. apply preserves_bind; [apply preserves_get_package|]. intros u1.
    apply preserves_bind; [apply preserves_iter_attr|]. intros ms.
    apply preserves_bind; [now apply preserves_foldM|]. intros s1.
    apply preserves_bind; [apply preserves_get_package|]. intros u2.
    apply preserves_bind; [apply preserves_iter_attr|]. intros ps.
    apply preserves_foldM. intros pkg s'. apply IH.
Qed.

Lemma preserves_Project_get_module (H : Host) (name : string) :
  (forall a, preserves I (Package_load H a)) ->
  (forall r, preserves I (modify_project (Proj.set_rmodules r))) ->
  preserves I (Project_get_module H name).
Proof.
  intros Hl Hr. unfold Project_get_module.
  apply preserves_bind; [apply preserves_get_project|]. intros p.
  apply preserves_bind.
  - destruct (Proj._rmodules p); [apply preserves_ret|].
    apply preserves_bind; [|intros idx; apply Hr].
    unfold Project_iter_module.
    apply preserves_bind; [apply preserves_get_project|]. intros p1.
    apply preserves_bind; [apply preserves_foldM; intros; apply preserves_index_unit|].
    intros s1. apply preserves_bind; [apply preserves_get_project|]. intros p2.
    apply preserves_bind.
    + apply preserves_foldM. intros child s'.
      apply preserves_Package_iter_module; [exact Hl|].
      intros; apply preserves_index_unit.
    + intros s2. destruct (Proj._namespaces p2);
        [apply preserves_ret | apply preserves_raise].
  - intros _. apply preserves_bind; [apply preserves_get_project|]. intros p'.
    destruct (Proj._rmodules p'); [apply preserves_ret | apply preserves_raise].
Qed.

End Preserves.

Lemma loaded_world_wf (H : Host) (a : addr) (u : Unit.t) (dir : string) (w : World) :
  wf_heap (heap w) -> heap w !! a = Some u ->
  wf_heap (heap (loaded_world H a u dir w)).
Proof.
  intros Hwf Ea b v p Hb Hp. destruct (decide (b = a)) as [->|Hne].
  - rewrite (loaded_world_lookup H a u dir w Ea) in Hb. inversion Hb; subst v.
    cbn in Hp. eapply Hwf; eassumption.
  - unfold loaded_world in Hb. cbn [heap] in Hb.
    rewrite list_lookup_insert_ne in Hb by congruence.
    apply lookup_app_Some in Hb. destruct Hb as [Hb|[Hge Hb]].
    + eapply Hwf; eassumption.
    + apply lookup_lt_Some in Ea.
      apply list_elem_of_lookup_2 in Hb. apply elem_of_app in Hb.
      destruct Hb as [Hb|Hb]; apply list_elem_of_fmap in Hb;
        destruct Hb as (x & -> & _); cbn in Hp; inversion Hp; subst p; lia.
Qed.

(** What [Package.load] leaves behind: the world as it was when it
    raises, the loaded world otherwise. *)
Lemma Package_load_world (H : Host) (a : addr) (w : World) :
  snd (Package_load H a w) = w \/
  exists u dir, heap w !! a = Some u /\ snd (Package_load H a w) = loaded_world H a u dir w.
Proof.
  destruct (Package_load H a w) as [[[]|e] w'] eqn:E.
  - right. apply Package_load_inv in E. destruct E as (u & dir & Ea & _ & _ & ->).
    exists u, dir. auto.
  - left. apply Package_load_raise in E. exact E.
Qed.

Lemma heap_inv_Package_load (H : Host) (a : addr) : preserves heap_inv (Package_load H a).
Proof.
  intros w [Hwf Hs]. destruct (Package_load_world H a w) as [->|(u & dir & Ea & ->)].
  - split; assumption.
  - split; [now apply loaded_world_wf | now apply loaded_world_sentinels].
Qed.

Lemma vars_inv_Package_load (H : Host) (a : addr) : preserves vars_inv (Package_load H a).
Proof.
  intros w Hw. destruct (Package_load_world H a w) as [->|(u & dir & Ea & ->)]; exact Hw.
Qed.

Lemma sentinels_agree_app (h l : list Unit.t) :
  sentinels_agree h -> Forall top_unit l -> sentinels_agree (h ++ l).
Proof.
  intros Hs Hl a u Ha. apply lookup_app_Some in Ha. destruct Ha as [Ha|[_ Ha]].
  - now apply (Hs a).
  - rewrite Forall_forall in Hl. apply list_elem_of_lookup_2 in Ha.
    destruct (Hl u Ha) as (_ & -> & ->). tauto.
Qed.

Lemma heap_inv_Project_load (H : Host) (data : gmap string string) :
  preserves heap_inv (Project_load H data).
Proof.
  intros w [Hwf Hs]. split; [now apply Project_load_wf|].
  destruct (Project_load_extends H data w) as (l & _ & _ & _ & Hh & Hl & _).
  rewrite Hh. now apply sentinels_agree_app.
Qed.

Lemma vars_inv_Project_load (H : Host) (data : gmap string string) :
  preserves vars_inv (Project_load H data).
Proof.
  intros w Hw. unfold vars_inv.
  destruct (Project_load_extends H data w) as (l & s & m & p & _ & _ & _ & _ & _ & _ & _ & Hv).
  now rewrite Hv.
Qed.

Lemma log_unknown_call_world (func : Func) (w : World) :
  heap (snd (log_unknown_call func w)) = heap w /\
  Proj.unknown_vars (project (snd (log_unknown_call func w))) =
  Proj.unknown_vars (project w).
Proof.
  unfold log_unknown_call. destruct func as [s|m scopes].
  - destruct (PyStr.split ":" s !! 2) as [f2|]; [|split; reflexivity].
    destruct (_ =? _)%Z; [split; reflexivity|].
    unfold bind, get_project. destruct (bool_decide _); split; reflexivity.
  - unfold bind, get_project. destruct (bool_decide _); split; reflexivity.
Qed.

(** Every world the methods lead to from a new project has parents
    before children and sentinels that agree: the hypotheses of the
    statements above hold on all of them. *)
Lemma reachable_heap_inv (H : Host) (w : World) : reachable H w -> heap_inv w.
Proof.
  induction 1 as [lp|data w _ IH|a w _ IH|a w _ IH|a w _ IH|name w _ IH|m v w _ IH|f w _ IH].
  - split; [apply wf_heap_nil|]. intros a u Ha. cbn [new_world heap] in Ha.
    now rewrite lookup_nil in Ha.
  - now apply heap_inv_Project_load.
  - now apply heap_inv_Package_load.
  - apply preserves_Package_modules; [apply heap_inv_Package_load | exact IH].
  - apply preserves_Package_packages; [apply heap_inv_Package_load | exact IH].
  - apply preserves_Project_get_module; [apply heap_inv_Package_load | | exact IH].
    intros r w' Hw'. exact Hw'.
  - unfold heap_inv. rewrite log_unknown_var_eq. cbn [snd].
    destruct (bool_decide _); exact IH.
  - unfold heap_inv. destruct (log_unknown_call_world f w) as [-> _]. exact IH.
Qed.

(** And on all of them the log of unknown variables is free of
    duplicates, whatever calls came between those of [log_unknown_var]. *)
Lemma reachable_vars_inv (H : Host) (w : World) : reachable H w -> vars_inv w.
Proof.
  induction 1 as [lp|data w _ IH|a w _ IH|a w _ IH|a w _ IH|name w _ IH|m v w _ IH|f w _ IH].
  - apply NoDup_nil_2.
  - now apply vars_inv_Project_load.
  - now apply vars_inv_Package_load.
  - apply preserves_Package_modules; [apply vars_inv_Package_load | exact IH].
  - apply preserves_Package_packages; [apply vars_inv_Package_load | exact IH].
  - apply preserves_Project_get_module; [apply vars_inv_Package_load | | exact IH].
    intros r w' Hw'. exact Hw'.
  - now apply log_unknown_var_NoDup.
  - unfold vars_inv. destruct (log_unknown_call_world f w) as [_ ->]. exact IH.
Qed.

(** * Scenarios *)

(** No pattern at all and no [__init__.py] in [src]: the files of [src]
    become modules and its directories packages; the module
    [pkg/__init__.py] shares the qualname of its package. *)
Example scenario_scan :
  let data : gmap string string := {["src" := "/proj"]} in
  let rw := Project_load scenario_host data (new_world "/home/dev/.pyarmor") in
  let w := snd rw in
  let w' := snd (Package_modules scenario_host 0 w) in
  fst rw = Ok tt /\
  units_of w (Proj._scripts (project w)) = [] /\
  units_of w (Proj._modules (project w)) =
    [Some ("a", "a.py"); Some ("b", "b.py")] /\
  units_of w (Proj._packages (project w)) = [Some ("pkg", "pkg")] /\
  qualname w 0 = Ok "pkg" /\
  fst (Package_modules scenario_host 0 w) = Ok [3] /\
  units_of w' [3] = [Some ("__init__", "__init__.py")] /\
  qualname w' 3 = Ok "pkg".
Proof. vm_compute. repeat split. Qed.

(** A package item of the form [path@name]. *)
Example scenario_alias :
  let data : gmap string string := <["packages" := "lib@core"]> {["src" := "/proj"]} in
  let rw := Project_load scenario_host data (new_world "/home/dev/.pyarmor") in
  let w := snd rw in
  fst rw = Ok tt /\
  units_of w (Proj._modules (project w)) = [] /\
  units_of w (Proj._packages (project w)) = [Some ("core", "/proj/lib")] /\
  fst (Module_abspath scenario_host 0 w) = Ok "/proj/lib" /\
  qualname w 0 = Ok "core".
Proof. vm_compute. repeat split. Qed.

(** A package item with two [@] cannot be unpacked: [ValueError], after
    the items before it have been appended. *)
Example scenario_bad_item :
  let data : gmap string string :=
    <["packages" := "lib@core pkg@a@b"]> {["src" := "/proj"]} in
  let rw := Project_load scenario_host data (new_world "/home/dev/.pyarmor") in
  fst rw = Raise ValueError /\
  units_of (snd rw) (Proj._packages (project (snd rw))) = [Some ("core", "/proj/lib")].
Proof. vm_compute. repeat split. Qed.

(** * The file-system helpers *)

Lemma scan_entries_filter (H : Host) (xlist excludes : list string) (ets : list DirEntry) :
  scan_entries H xlist excludes ets =
  (de_name <$> filter (fun et => negb (any_fnmatch H (de_name et) excludes)
                                 && negb (de_is_dir et) && de_is_file et
                                 && any_fnmatch H (de_name et) xlist = true) ets,
   de_name <$> filter (fun et => negb (any_fnmatch H (de_name et) excludes)
                                 && de_is_dir et = true) ets).
Proof.
  induction ets as [|et r IH]; [reflexivity|].
  cbn [scan_entries]. rewrite IH. rewrite !filter_cons.
  destruct (any_fnmatch H (de_name et) excludes); cbn [negb andb].
  { repeat (destruct (decide _) as [Hd|Hd]; [discriminate Hd|]). reflexivity. }
  destruct (de_is_dir et); cbn [negb andb].
  { destruct (decide (false = true)) as [Hd|_]; [discriminate Hd|].
    destruct (decide (true = true)) as [_|Hd]; [reflexivity | congruence]. }
  destruct (decide (false = true)) as [Hd|_]; [discriminate Hd|].
  destruct (de_is_file et && any_fnmatch H (de_name et) xlist) eqn:E.
  - destruct (decide (true = true)) as [_|Hd]; [reflexivity | congruence].
  - destruct (decide (false = true)) as [Hd|_]; [discriminate Hd | reflexivity].
Qed.

(** X1.  [scan_path] reads the directory once and returns, in the order
    of the directory: as files the entries that are regular files, match
    no exclude pattern and match an include pattern ([*.py] and [*.pyw]
    when no include list, or an empty one, is given); as directories the
    entries that are directories and match no exclude pattern, whatever
    the include patterns.  An entry that is neither is dropped. *)
Theorem scan_path_spec (H : Host) (path : string) (includes : option (list string))
    (excludes : list string) (w : World) :
  let xlist := match includes with
               | Some (x :: l) => x :: l
               | _ => GLOBAL_INCLS
               end in
  exists files dirs,
    scan_path H path includes excludes w =
    (Ok (files, dirs),
     mkWorld (heap w) (project w) (scan_log w ++ [path]) (made_dirs w)) /\
    (forall f, f ∈ files <->
       exists et, et ∈ scandir H path /\ de_name et = f /\
         any_fnmatch H f excludes = false /\ de_is_dir et = false /\
         de_is_file et = true /\ any_fnmatch H f xlist = true) /\
    (forall d, d ∈ dirs <->
       exists et, et ∈ scandir H path /\ de_name et = d /\
         any_fnmatch H d excludes = false /\ de_is_dir et = true) /\
    files `sublist_of` (de_name <$> scandir H path) /\
    dirs `sublist_of` (de_name <$> scandir H path).
Proof.
  intros xlist. unfold scan_path. fold xlist. unfold bind. cbn [log_scan ret].
  rewrite scan_entries_filter. eexists _, _. split; [reflexivity|].
  split; [|split; [|split]].
  - intros f. rewrite list_elem_of_fmap. split.
    + intros (et & -> & Het). apply list_elem_of_filter in Het. destruct Het as [Hp Het].
      exists et. split; [exact Het|]. split; [reflexivity|].
      destruct (any_fnmatch H (de_name et) excludes); [discriminate Hp|].
      destruct (de_is_dir et); [discriminate Hp|].
      destruct (de_is_file et); [|discriminate Hp].
      cbn in Hp. auto.
    + intros (et & Het & <- & He & Hd & Hf & Hi). exists et. split; [reflexivity|].
      apply list_elem_of_filter. split; [|exact Het]. now rewrite He, Hd, Hf, Hi.
  - intros d. rewrite list_elem_of_fmap. split.
    + intros (et & -> & Het). apply list_elem_of_filter in Het. destruct Het as [Hp Het].
      exists et. split; [exact Het|]. split; [reflexivity|].
      destruct (any_fnmatch H (de_name et) excludes); [discriminate Hp|].
      destruct (de_is_dir et); [|discriminate Hp]. auto.
    + intros (et & Het & <- & He & Hd). exists et. split; [reflexivity|].
      apply list_elem_of_filter. split; [|exact Het]. now rewrite He, Hd.
  - apply fmap_sublist, sublist_filter.
  - apply fmap_sublist, sublist_filter.
Qed.

(** X2.  [search_item] returns nothing for an empty pattern; for any
    other pattern its results are the normalised matches of the pattern
    (taken under [root] unless it is absolute) whose base name, a
    trailing separator of the match set aside when the pattern ends in
    one, matches no exclude pattern.  The matches keep their order and
    none is added; without exclude patterns all of them are returned. *)
Theorem search_item_spec (H : Host) (root : string) (c : ascii) (p : string)
    (excludes : list string) (recursive : bool) :
  let pattern := String c p in
  let sep := if PyStr.endswith pattern (os_sep H) then os_sep H else "" in
  let pt := if isabs H pattern then pattern else joinpath H root pattern in
  search_item H root "" excludes recursive = [] /\
  (forall x, x ∈ search_item H root pattern excludes recursive <->
     exists item, item ∈ glob H pt recursive /\ x = normpath H item /\
       any_fnmatch H (basename H (PyStr.strip_chars sep item)) excludes = false) /\
  search_item H root pattern excludes recursive
    `sublist_of` (normpath H <$> glob H pt recursive) /\
  search_item H root pattern [] recursive = normpath H <$> glob H pt recursive.
Proof.
  intros pattern sep pt. split; [reflexivity|].
  unfold search_item. fold sep. fold pt. cbn [PyStr.is_empty pattern].
  change (map (normpath H)) with (fmap (M:=list) (normpath H)).
  split; [|split].
  - intros x. rewrite list_elem_of_fmap. split.
    + intros (item & -> & Hi). apply list_elem_of_filter in Hi. destruct Hi as [Hp Hi].
      exists item. split; [exact Hi|]. split; [reflexivity|].
      cbv zeta in Hp. destruct excludes as [|e es]; [reflexivity|].
      cbn [andb] in Hp. now apply negb_true_iff in Hp.
    + intros (item & Hi & -> & He). exists item. split; [reflexivity|].
      apply list_elem_of_filter. split; [|exact Hi]. cbv zeta. rewrite He.
      now destruct excludes.
  - apply fmap_sublist, sublist_filter.
  - f_equal. induction (glob H pt recursive) as [|g l IH]; [reflexivity|].
    rewrite filter_cons. cbn. destruct (decide (true = true)); [|congruence].
    f_equal. exact IH.
Qed.

(** * The pattern lists of the project record *)

Lemma ws_len_String (c : ascii) (r : string) :
  PyStr.ws_len (String c r) =
  if PyStr.is_ws c then 1
  else match r with
       | EmptyString => 0
       | String d r' =>
           if PyStr.byte_is c 194 && (PyStr.byte_is d 133 || PyStr.byte_is d 160) then 2
           else match r' with
                | EmptyString => 0
                | String e _ => if PyStr.ws3 c d e then 3 else 0
                end
       end.
Proof. reflexivity. Qed.

(** A white-space character that starts a text starts every text that
    begins with it. *)
Lemma ws_len_app (t u : string) : PyStr.ws_len (t +:+ u) = 0 -> PyStr.ws_len t = 0.
Proof.
  destruct t as [|c [|d [|e t]]]; [reflexivity| | |].
  - change (String c "" +:+ u) with (String c u). rewrite !ws_len_String.
    destruct (PyStr.is_ws c); [discriminate|]. reflexivity.
  - change (String c (String d "") +:+ u) with (String c (String d u)).
    rewrite !ws_len_String.
    destruct (PyStr.is_ws c); [discriminate|].
    destruct (PyStr.byte_is c 194 && _); [discriminate|]. reflexivity.
  - change (String c (String d (String e t)) +:+ u)
      with (String c (String d (String e (t +:+ u)))).
    rewrite !ws_len_String. exact (fun E => E).
Qed.

Lemma ws_free_in_free (w s : string) : ws_free_in w s -> ws_free w.
Proof.
  unfold ws_free. induction w as [|c w IH]; [exact (fun E => E)|].
  cbn [ws_free_in]. intros [E Hw]. split; [|now apply IH].
  rewrite append_empty_r. exact (ws_len_app _ _ E).
Qed.

Lemma ws_free_in_snoc (w : string) (c : ascii) (r : string) :
  ws_free_in w (String c r) -> PyStr.ws_len (String c r) = 0 ->
  ws_free_in (w +:+ String c "") r.
Proof.
  induction w as [|d w IH]; intros Hw Hc.
  - change ("" +:+ String c "") with (String c ""). cbn [ws_free_in].
    change (String c "" +:+ r) with (String c r). auto.
  - change (String d w +:+ String c "") with (String d (w +:+ String c "")).
    cbn [ws_free_in] in *. destruct Hw as [E Hw]. split; [|now apply IH].
    change (String d (w +:+ String c "") +:+ r)
      with (String d ((w +:+ String c "") +:+ r)).
    rewrite append_assoc. exact E.
Qed.

Lemma append_not_empty_r (s : string) (c : ascii) : s +:+ String c "" <> "".
Proof. destruct s; discriminate. Qed.

(** The words [split_ws_aux] yields are not empty and hold no white
    space.  While a white-space character is being passed no word is
    being read. *)
Lemma split_ws_aux_words (s : string) :
  forall (cur : option string) (skip : nat),
    (forall w, cur = Some w -> skip = 0 /\ w <> "" /\ ws_free_in w s) ->
    Forall (fun w => w <> "" /\ ws_free w) (PyStr.split_ws_aux cur skip s).
Proof.
  induction s as [|c s IH]; intros cur skip Hcur; cbn [PyStr.split_ws_aux].
  - destruct cur as [w|]; [|constructor].
    destruct (Hcur w eq_refl) as (_ & Hne & Hf).
    constructor; [|constructor]. split; [exact Hne | exact (ws_free_in_free _ _ Hf)].
  - destruct skip as [|k].
    + destruct (PyStr.ws_len (String c s)) as [|k] eqn:El.
      * apply IH. intros w Hw. inversion Hw; subst w. split; [reflexivity|].
        destruct cur as [w|].
        -- destruct (Hcur w eq_refl) as (_ & _ & Hf).
           split; [apply append_not_empty_r | now apply ws_free_in_snoc].
        -- split; [discriminate|]. cbn [ws_free_in].
           change (String c "" +:+ s) with (String c s). auto.
      * destruct cur as [w|].
        -- destruct (Hcur w eq_refl) as (_ & Hne & Hf).
           constructor; [split; [exact Hne | exact (ws_free_in_free _ _ Hf)]|].
           apply IH. discriminate.
        -- apply IH. discriminate.
    + destruct cur as [w|]; [destruct (Hcur w eq_refl) as (E & _); discriminate E|].
      apply IH. discriminate.
Qed.

Lemma lstrip_ws_free (s : string) : ws_free s -> PyStr.lstrip s = s.
Proof.
  destruct s as [|c s]; [reflexivity|]. unfold ws_free. cbn [ws_free_in].
  rewrite append_empty_r. intros [E _]. unfold PyStr.lstrip. cbn [PyStr.lstrip_ws_aux].
  now rewrite E.
Qed.

Lemma rstrip_ws_free (s : string) : ws_free s -> PyStr.rstrip s = s.
Proof.
  unfold ws_free. induction s as [|c s IH]; [reflexivity|].
  cbn [ws_free_in]. rewrite append_empty_r. intros [E Hs].
  cbn [PyStr.rstrip PyStr.all_ws_aux]. rewrite E. now rewrite (IH Hs).
Qed.

Lemma strip_ws_free (s : string) : ws_free s -> PyStr.strip s = s.
Proof.
  intros Hs. unfold PyStr.strip. rewrite (lstrip_ws_free s Hs). now apply rstrip_ws_free.
Qed.

Lemma replace_not_empty (old new s : string) :
  old <> "" -> new <> "" -> s <> "" -> PyStr.replace old new s <> "".
Proof.
  intros Ho Hn Hs. unfold PyStr.replace.
  destruct old as [|o old]; [congruence|]. cbn [PyStr.is_empty].
  destruct s as [|c s]; [congruence|]. cbn [PyStr.replace_aux].
  destruct (String.prefix (String o old) (String c s)); [|discriminate].
  destruct new as [|n new]; [congruence|]. discriminate.
Qed.

(** Where the needle's first character does not occur, nothing is
    replaced. *)
Lemma replace_aux_absent (o : ascii) (old new s : string) :
  PyStr.count o s = 0 -> PyStr.replace_aux (String o old) new 0 s = s.
Proof.
  induction s as [|c s IH]; [reflexivity|]. cbn [PyStr.count PyStr.replace_aux].
  destruct (Ascii.eqb c o) eqn:Ec; [discriminate|]. cbn. intros Hc.
  destruct (Ascii.ascii_dec o c) as [->|_].
  - rewrite Ascii.eqb_refl in Ec. discriminate.
  - now rewrite (IH Hc).
Qed.

(** X3.  The local [vlist] of [Project.load] yields no item for a
    missing field and never an empty item; an item of the field, as
    [str.split()] cuts it at white space (Unicode white space
    included), that is written without [%] is passed on as it is. *)
Theorem vlist_spec (data : gmap string string) (name : string) :
  vlist (delete name data) name = [] /\
  Forall (fun x => x <> "") (vlist data name) /\
  (forall x, x ∈ PyStr.split_ws (default "" (data !! name)) ->
             PyStr.count "%" x = 0 -> x ∈ vlist data name).
Proof.
  assert (Hw : forall v, Forall (fun w => w <> "" /\ ws_free w) (PyStr.split_ws v)).
  { intros v. apply split_ws_aux_words. discriminate. }
  split; [|split].
  - unfold vlist. now rewrite lookup_delete_eq.
  - unfold vlist. apply Forall_fmap. eapply Forall_impl; [apply Hw|].
    intros x [Hx Hf]. unfold compose. cbv beta. rewrite (strip_ws_free x Hf).
    apply replace_not_empty; [discriminate | discriminate | exact Hx].
  - intros x Hx Hc. unfold vlist.
    change (map ?f ?l) with (fmap (M:=list) f l). apply list_elem_of_fmap.
    exists x. split; [|exact Hx].
    specialize (Hw (default "" (data !! name))). rewrite Forall_forall in Hw.
    destruct (Hw x Hx) as [_ Hf]. rewrite (strip_ws_free x Hf).
    unfold PyStr.replace. cbn [PyStr.is_empty]. symmetry. now apply replace_aux_absent.
Qed.

Example vlist_examples (data : gmap string string) (name : string) :
  vlist (<[name := "  	 "]> data) name = [] /\
  vlist (<[name := "my%20%app/*.py lib"]> data) name = ["my app/*.py"; "lib"] /\
  vlist (<[name := "lib@core" +:+ nbsp +:+ "pkg@alias" +:+ emsp]> data) name
  = ["lib@core"; "pkg@alias"].
Proof. unfold vlist. rewrite !lookup_insert_eq. repeat split; vm_compute; reflexivity. Qed.

(** * More on the overlap of scripts and modules *)

Lemma list_remove_sublist (x : string) (l l' : list string) :
  list_remove x l = Ok l' -> l' `sublist_of` l.
Proof.
  revert l'. induction l as [|y r IH]; intros l'; cbn [list_remove]; [discriminate|].
  destruct (String.eqb y x).
  - intros E. inversion E; subst. now apply sublist_cons.
  - destruct (list_remove x r) as [r'|e]; [|discriminate].
    intros E. inversion E; subst. apply sublist_skip. now apply IH.
Qed.

Lemma remove_each_sublist (xs l l' : list string) :
  remove_each xs l = Ok l' -> l' `sublist_of` l.
Proof.
  revert l. induction xs as [|x xs IH]; intros l; cbn [remove_each].
  - intros E. inversion E; subst. reflexivity.
  - destruct (list_remove x l) as [l1|e] eqn:E1; [|discriminate].
    intros E. etransitivity; [apply (IH l1 E) | now apply (list_remove_sublist x)].
Qed.

(** X4.  The reconciliation at the end of [Project.load] never raises,
    in whatever order the intersection of the two sets is iterated: the
    surviving module paths keep their order, a path that is also a
    script loses exactly one occurrence, and any other path keeps all of
    its occurrences. *)
Theorem reconcile_any_order (scripts modules xs : list string) :
  xs ≡ₚ set_inter scripts modules ->
  exists m2,
    remove_each xs modules = Ok m2 /\
    reconcile scripts modules = Ok m2 /\
    m2 `sublist_of` modules /\
    forall y, count_occ string_dec modules y =
              count_occ string_dec m2 y +
              (if decide (y ∈ scripts /\ y ∈ modules) then 1 else 0).
Proof.
  intros Hp. destruct (reconcile_count scripts modules) as (m2 & E & Hc).
  assert (Er : remove_each (set_inter scripts modules) modules = Ok m2).
  { unfold reconcile in E. destruct scripts as [|s0 ss]; [inversion E; reflexivity|].
    destruct modules as [|m0 ms]; [|exact E]. inversion E; subst m2.
    assert (set_inter (s0 :: ss) [] = []) as ->; [|reflexivity].
    apply elem_of_nil_inv. intros x Hx. apply elem_of_set_inter in Hx.
    destruct Hx as [_ Hx]. now apply elem_of_nil in Hx. }
  exists m2. rewrite (remove_each_perm _ _ modules Hp).
  split; [exact Er|]. split; [exact E|]. split; [|exact Hc].
  now apply (remove_each_sublist (set_inter scripts modules)).
Qed.

Lemma reconcile_any_order_witness :
  exists m2,
    remove_each ["b"; "a"] ["a"; "c"; "b"; "a"] = Ok m2 /\
    reconcile ["a"; "b"; "d"] ["a"; "c"; "b"; "a"] = Ok m2 /\
    m2 `sublist_of` ["a"; "c"; "b"; "a"] /\
    forall y, count_occ string_dec ["a"; "c"; "b"; "a"] y =
              count_occ string_dec m2 y +
              (if decide (y ∈ ["a"; "b"; "d"] /\ y ∈ ["a"; "c"; "b"; "a"]) then 1 else 0).
Proof.
  apply (reconcile_any_order ["a"; "b"; "d"] ["a"; "c"; "b"; "a"] ["b"; "a"]).
  vm_compute. apply perm_swap.
Defined.

(** * [Project.load], phase by phase *)

Lemma mapM_relsrc_alloc (H : Host) (k : Kind) (l : list string) (w : World) :
  mapM (fun x => r <- Project_relsrc H x ;; alloc (Module_init H k r None PProject)) l w =
  (Ok (seq (length (heap w)) (length l)),
   mkWorld (heap w ++ map (fun x => Module_init H k (relpath H x (Proj.src (project w)))
                                      None PProject) l)
           (project w) (scan_log w) (made_dirs w)).
Proof.
  revert w. induction l as [|x l IH]; intros w.
  - cbn [mapM ret map length seq]. rewrite app_nil_r. now destruct w.
  - cbn [mapM]. unfold bind at 1. unfold bind at 1. cbn [Project_relsrc get_project bind ret alloc].
    unfold bind at 1. rewrite IH. cbn [heap project scan_log made_dirs ret].
    rewrite length_app, <- app_assoc. cbn [length map app seq].
    replace (length (heap w) + 1) with (S (length (heap w))) by lia. reflexivity.
Qed.

Lemma bind_ok {A B : Type} (c : M A) (k : A -> M B) (a : A) (w w' : World) :
  c w = (Ok a, w') -> bind c k w = k a w'.
Proof. intros E. unfold bind. now rewrite E. Qed.

Lemma bind_raise {A B : Type} (c : M A) (k : A -> M B) (e : exn) (w w' : World) :
  c w = (Raise e, w') -> bind c k w = (Raise e, w').
Proof. intros E. unfold bind. now rewrite E. Qed.

(** [Project.load] on a record with [src], as three phases. *)
Lemma Project_load_phases (H : Host) (data : gmap string string) (src : string) (w : World) :
  data !! "src" = Some src ->
  let scripts := resolved H data src "scripts" in
  let modules := resolved H data src "modules" in
  Project_load H data w =
  match load_packages H src (data !! "name") (vlist data "excludes" ++ GLOBAL_EXCLS)
          scripts modules (vlist data "packages") (with_scripts H src scripts w) with
  | (Ok modules1, w1) =>
      match reconcile scripts modules1 with
      | Ok modules2 => (Ok tt, with_modules H modules2 w1)
      | Raise e => (Raise e, w1)
      end
  | (Raise e, w1) => (Raise e, w1)
  end.
Proof.
  intros E scripts modules. unfold Project_load. rewrite E.
  unfold bind at 1. cbn [get_project]. unfold bind at 1. cbn [makedirs].
  unfold bind at 1. cbn [ret]. unfold bind at 1. cbn [modify_project heap project scan_log made_dirs].
  unfold bind at 1. fold (resolved H data src "scripts"). fold scripts.
  rewrite mapM_relsrc_alloc. cbn [heap project scan_log made_dirs Proj.src Proj.set_src].
  unfold bind at 1. cbn [modify_project heap project scan_log made_dirs].
  fold (resolved H data src "modules"). fold modules.
  unfold bind at 1. unfold load_packages, with_scripts.
  cbn [Proj._scripts Proj.set_src Proj.ctx_local_path].
  match goal with
  | |- context [match ?c ?w0 with _ => _ end] =>
      destruct (c w0) as [[modules1|e] w1]
  end; [|reflexivity].
  unfold bind at 1. unfold lift.
  destruct (reconcile scripts modules1) as [modules2|e]; [|reflexivity].
  erewrite bind_ok by apply mapM_relsrc_alloc. reflexivity.
Qed.

Lemma add_packages_nil (w : World) : add_packages [] w = w.
Proof.
  unfold add_packages. cbn [length seq]. rewrite !app_nil_r.
  destruct w as [h p s m]. cbn. f_equal. now destruct p.
Qed.

Lemma add_packages_app (us vs : list Unit.t) (w : World) :
  add_packages vs (add_packages us w) = add_packages (us ++ vs) w.
Proof.
  unfold add_packages. cbn [heap project scan_log made_dirs Proj._packages Proj.set_packages].
  rewrite <- !app_assoc, !length_app, seq_app. reflexivity.
Qed.

(** One turn of the loop over the items: a section is skipped, an item
    that fails the test raises and leaves the world alone, any other
    item adds its package. *)
Lemma load_package_item_run (H : Host) (src item : string) (w : World) :
  load_package_item H src item w =
  if is_section item then (Ok tt, w)
  else if item_ok item then (Ok tt, add_packages [item_package H src item] w)
  else (Raise ValueError, w).
Proof.
  unfold load_package_item, is_section, item_ok, item_package.
  destruct (PyStr.find "@" item =? 0)%Z eqn:E0; [reflexivity|].
  cbn [orb]. destruct (PyStr.find "@" item =? -1)%Z eqn:E1; cbn [orb].
  - unfold bind. cbn [ret alloc modify_project heap project scan_log made_dirs fst snd].
    reflexivity.
  - destruct (PyStr.split "@" item) as [|a [|b [|c l]]]; cbn [length Nat.eqb];
      try reflexivity.
Qed.

(** The loop over the items: the packages of the items before the first
    that fails the test, and [ValueError] if there is one. *)
Lemma load_package_items_run (H : Host) (src : string) (items : list string) (w : World) :
  foldM (fun item _ => load_package_item H src item) items tt w =
  (if forallb item_ok items then Ok tt else Raise ValueError,
   add_packages (item_packages H src (ok_prefix items)) w).
Proof.
  revert w. induction items as [|item items IH]; intros w.
  - cbn. now rewrite add_packages_nil.
  - cbn [foldM forallb ok_prefix].
    pose proof (load_package_item_run H src item w) as Hrun.
    destruct (is_section item) eqn:Es.
    + assert (Hok : item_ok item = true).
      { unfold item_ok. unfold is_section in Es. now rewrite Es. }
      rewrite Hok. cbn [andb]. rewrite (bind_ok _ _ _ _ _ Hrun). rewrite IH.
      unfold item_packages. rewrite filter_cons.
      destruct (decide (is_section item = false)) as [Hd|_]; [congruence|]. reflexivity.
    + destruct (item_ok item) eqn:Hok; cbn [andb].
      * rewrite (bind_ok _ _ _ _ _ Hrun). rewrite IH. f_equal.
        unfold item_packages at 2. rewrite filter_cons.
        destruct (decide (is_section item = false)) as [_|Hd]; [|congruence].
        cbn [map]. rewrite add_packages_app. reflexivity.
      * rewrite (bind_raise _ _ _ _ _ Hrun). cbn. now rewrite add_packages_nil.
Qed.

(** The default of [Project.load], taken when the record names no
    package: nothing if a script or a module was resolved; [src] as one
    package if it holds [__init__.py]; else the files of [src] as
    modules and its directories as packages. *)
Lemma load_default_run (H : Host) (src : string) (name : option string)
    (excludes scripts modules : list string) (w : World) :
  load_default H src name excludes scripts modules w =
  match modules, scripts with
  | [], [] =>
      if path_exists H (joinpath H src "__init__.py") then
        (Ok [],
         add_packages
           [Module_init H KPackage src
              (Some (match name with
                     | Some n => if PyStr.truthy n then n else basename H src
                     | None => basename H src
                     end)) PProject] w)
      else
        let fd := scan_entries H GLOBAL_INCLS excludes (scandir H src) in
        (Ok (map (joinpath H src) (fst fd)),
         add_packages (map (fun x => Module_init H KPackage x None PProject) (snd fd))
           (mkWorld (heap w) (project w) (scan_log w ++ [src]) (made_dirs w)))
  | _, _ => (Ok modules, w)
  end.
Proof.
  unfold load_default. destruct modules as [|m ms]; [|reflexivity].
  destruct scripts as [|s ss]; [|reflexivity].
  destruct (path_exists H _).
  - unfold bind. cbn [ret alloc modify_project heap project scan_log made_dirs]. reflexivity.
  - unfold bind at 1. unfold scan_path. unfold bind at 1. cbn [log_scan ret].
    erewrite bind_ok by apply mapM_alloc.
    unfold bind. cbn [modify_project ret heap project scan_log made_dirs].
    unfold add_packages. cbn [heap project scan_log made_dirs]. rewrite length_map.
    reflexivity.
Qed.

Lemma load_packages_run (H : Host) (src : string) (name : option string)
    (excludes scripts modules packages : list string) (w : World) :
  load_packages H src name excludes scripts modules packages w =
  (if forallb item_ok packages
   then Ok (default_modules H src excludes scripts modules packages)
   else Raise ValueError,
   with_packages H src name excludes scripts modules packages w).
Proof.
  unfold load_packages, with_packages, default_modules.
  destruct packages as [|item items].
  - rewrite load_default_run. cbn [forallb].
    destruct modules; [|reflexivity]. destruct scripts; [|reflexivity].
    destruct (path_exists H _); reflexivity.
  - pose proof (load_package_items_run H src (item :: items) w) as Hrun.
    destruct (forallb item_ok (item :: items)).
    + rewrite (bind_ok _ _ _ _ _ Hrun). reflexivity.
    + rewrite (bind_raise _ _ _ _ _ Hrun). reflexivity.
Qed.

(** [Project.load] on a record with [src], in closed form: scripts,
    then packages, then, unless an item failed, the modules left by the
    reconciliation. *)
Lemma Project_load_run (H : Host) (data : gmap string string) (src : string) (w : World) :
  data !! "src" = Some src ->
  let excludes := vlist data "excludes" ++ GLOBAL_EXCLS in
  let scripts := resolved H data src "scripts" in
  let modules := resolved H data src "modules" in
  let packages := vlist data "packages" in
  let w1 := with_packages H src (data !! "name") excludes scripts modules packages
              (with_scripts H src scripts w) in
  exists modules2,
    reconcile scripts (default_modules H src excludes scripts modules packages)
      = Ok modules2 /\
    Project_load H data w =
    if forallb item_ok packages then (Ok tt, with_modules H modules2 w1)
    else (Raise ValueError, w1).
Proof.
  intros E excludes scripts modules packages w1.
  destruct (reconcile_count scripts (default_modules H src excludes scripts modules packages))
    as (m2 & Er & _).
  exists m2. split; [exact Er|].
  rewrite (Project_load_phases H data src w E).
  fold excludes scripts modules packages. rewrite load_packages_run. fold w1.
  destruct (forallb item_ok packages); [|reflexivity]. now rewrite Er.
Qed.

Lemma find_ge (c : ascii) (s : string) : (-1 <= PyStr.find c s)%Z.
Proof.
  induction s as [|d s IH]; cbn [PyStr.find]; [lia|].
  destruct (Ascii.eqb d c); [lia|]. destruct (PyStr.find c s); lia.
Qed.

Lemma find_absent (c : ascii) (s : string) :
  PyStr.find c s = (-1)%Z <-> PyStr.count c s = 0.
Proof.
  induction s as [|d s IH]; cbn [PyStr.find PyStr.count]; [tauto|].
  destruct (Ascii.eqb d c); [split; [lia | discriminate]|].
  pose proof (find_ge c s) as Hge. cbn [Nat.add]. rewrite <- IH.
  destruct (PyStr.find c s) as [|p|p]; split; try lia; try discriminate.
Qed.

(** An item fails the test when its first [@] is not in front and it
    has a second one. *)
Lemma item_ok_false (item : string) :
  item_ok item = false <->
  (0 < PyStr.find "@" item)%Z /\ 2 <= PyStr.count "@" item.
Proof.
  unfold item_ok. cbv zeta. rewrite split_length.
  pose proof (find_ge "@" item) as Hge.
  pose proof (find_absent "@" item) as Habs.
  rewrite !orb_false_iff, !Z.eqb_neq, Nat.eqb_neq. split.
  - intros [[H0 H1] H2]. split; [lia|].
    destruct (PyStr.count "@" item) as [|[|n]]; [|lia|lia].
    exfalso. apply H1. now apply Habs.
  - intros [Hf Hc]. repeat split; lia.
Qed.

Lemma forallb_item_ok_false (items : list string) :
  forallb item_ok items = false <-> Exists bad_item items.
Proof.
  induction items as [|x l IH]; cbn [forallb].
  - split; [discriminate | intros Hex; inversion Hex].
  - rewrite andb_false_iff, Exists_cons, IH. unfold bad_item at 1.
    now rewrite item_ok_false.
Qed.

Lemma Project_load_fst (H : Host) (data : gmap string string) (src : string) (w : World) :
  data !! "src" = Some src ->
  fst (Project_load H data w) =
  if forallb item_ok (vlist data "packages") then Ok tt else Raise ValueError.
Proof.
  intros E. destruct (Project_load_run H data src w E) as (m2 & _ & ->).
  now destruct (forallb item_ok (vlist data "packages")).
Qed.

Lemma with_packages_logs (H : Host) (src : string) (name : option string)
    (excludes scripts modules packages : list string) (w : World) :
  let w' := with_packages H src name excludes scripts modules packages w in
  made_dirs w' = made_dirs w /\
  scan_log w' = scan_log w ++ default_listing H src scripts modules packages.
Proof.
  unfold with_packages, default_listing. destruct packages as [|item items].
  - destruct modules; [|cbn; now rewrite app_nil_r].
    destruct scripts; [|cbn; now rewrite app_nil_r].
    destruct (path_exists H _); cbn; rewrite ?app_nil_r; auto.
  - cbn. now rewrite app_nil_r.
Qed.

(** The two logs after [Project.load] on a record with [src]. *)
Lemma Project_load_logs (H : Host) (data : gmap string string) (src : string) (w : World) :
  data !! "src" = Some src ->
  let w' := snd (Project_load H data w) in
  made_dirs w' = made_dirs w ++ [joinpath H (Proj.ctx_local_path (project w)) "project"] /\
  scan_log w' =
  scan_log w ++ default_listing H src (resolved H data src "scripts")
                  (resolved H data src "modules") (vlist data "packages").
Proof.
  intros E. destruct (Project_load_run H data src w E) as (m2 & _ & ->).
  match goal with
  | |- context [with_packages ?H ?s ?n ?e ?sc ?m ?p ?w0] =>
      destruct (with_packages_logs H s n e sc m p w0) as [Hm Hs]
  end.
  destruct (forallb item_ok (vlist data "packages"));
    cbn [snd with_modules made_dirs scan_log]; rewrite Hm, Hs; split; reflexivity.
Qed.

(** A call whose logs grow by [dm] and [ds] fails at the first of
    these directories that the operating system refuses. *)
Lemma os_run_logs {A : Type} (os : OS) (c : M A) (w : World) (dm ds : list string) :
  made_dirs (snd (c w)) = made_dirs w ++ dm ->
  scan_log (snd (c w)) = scan_log w ++ ds ->
  os_run os c w =
  match List.find (fun d => negb (can_make os d)) dm with
  | Some d => Raises (Ext (OSError d))
  | None =>
      match List.find (fun d => negb (can_list os d)) ds with
      | Some d => Raises (Ext (OSError d))
      | None =>
          match fst (c w) with
          | Ok a => Returns a
          | Raise e => Raises (Py e)
          end
      end
  end.
Proof.
  intros Hm Hs. unfold os_run. cbv zeta. now rewrite Hm, Hs, !drop_app_length.
Qed.

(** A call that returns, or raises an exception of its own, under the
    failures of the operating system does so without them as well. *)
Lemma os_run_returns {A : Type} (os : OS) (c : M A) (w : World) (a : A) :
  os_run os c w = Returns a -> fst (c w) = Ok a.
Proof.
  unfold os_run. cbv zeta.
  destruct (List.find _ _); [discriminate|]. destruct (List.find _ _); [discriminate|].
  destruct (fst (c w)); [|discriminate]. intros E. now inversion E.
Qed.

Lemma os_run_raises {A : Type} (os : OS) (c : M A) (w : World) (e : exn) :
  os_run os c w = Raises (Py e) -> fst (c w) = Raise e.
Proof.
  unfold os_run. cbv zeta.
  destruct (List.find _ _); [discriminate|]. destruct (List.find _ _); [discriminate|].
  destruct (fst (c w)); [discriminate|]. intros E. now inversion E.
Qed.

(** [Project.load] on a record with [src], with the failures of the
    operating system. *)
Lemma Project_load_os_run (H : Host) (os : OS) (data : gmap string string) (src : string)
    (w : World) :
  data !! "src" = Some src ->
  os_run os (Project_load H data) w =
  if can_make os (joinpath H (Proj.ctx_local_path (project w)) "project") then
    match default_listing H src (resolved H data src "scripts")
            (resolved H data src "modules") (vlist data "packages") with
    | [] => if forallb item_ok (vlist data "packages") then Returns tt
            else Raises (Py ValueError)
    | _ :: _ =>
        if can_list os src then Returns tt else Raises (Ext (OSError src))
    end
  else Raises (Ext (OSError (joinpath H (Proj.ctx_local_path (project w)) "project"))).
Proof.
  intros E. destruct (Project_load_logs H data src w E) as [Hm Hs].
  rewrite (os_run_logs os _ w _ _ Hm Hs). cbn [List.find].
  destruct (can_make os _); cbn [negb]; [|reflexivity].
  rewrite (Project_load_fst H data src w E).
  unfold default_listing.
  destruct (vlist data "packages") as [|item items];
    [|cbn [List.find]; now destruct (forallb item_ok (item :: items))].
  destruct (resolved H data src "modules"); [|reflexivity].
  destruct (resolved H data src "scripts"); [|reflexivity].
  destruct (path_exists H _); [reflexivity|].
  cbn [List.find forallb]. now destruct (can_list os src).
Qed.

(** X5.  On a record with [src], once [os.makedirs] has succeeded,
    [Project.load] raises [ValueError] exactly when some item of
    [packages] has its first [@] past the first character and a second
    [@] after it.  Without such an item it returns, unless it has to
    list [src] and [os.scandir] refuses: with [KeyError] for a missing
    [src] and the [OSError] of [os.makedirs], these are its only
    exceptions. *)
Theorem Project_load_ValueError (H : Host) (os : OS) (data : gmap string string)
    (src : string) (w : World) :
  data !! "src" = Some src ->
  can_make os (joinpath H (Proj.ctx_local_path (project w)) "project") = true ->
  let r := os_run os (Project_load H data) w in
  (Exists bad_item (vlist data "packages") <-> r = Raises (Py ValueError)) /\
  (~ Exists bad_item (vlist data "packages") ->
   (r = Returns tt \/ r = Raises (Ext (OSError src))) /\
   (can_list os src = true -> r = Returns tt)).
Proof.
  intros E Hmk r. subst r. rewrite (Project_load_os_run H os data src w E), Hmk.
  rewrite <- forallb_item_ok_false. unfold default_listing.
  destruct (vlist data "packages") as [|item items].
  - cbn [forallb]. split.
    + split; [discriminate|].
      destruct (resolved H data src "modules"); [|discriminate].
      destruct (resolved H data src "scripts"); [|discriminate].
      destruct (path_exists H _); [discriminate|].
      destruct (can_list os src); discriminate.
    + intros _.
      destruct (resolved H data src "modules"); [|auto].
      destruct (resolved H data src "scripts"); [|auto].
      destruct (path_exists H _); [auto|].
      destruct (can_list os src); split; auto; discriminate.
  - destruct (forallb item_ok (item :: items)); split.
    + split; discriminate.
    + auto.
    + split; reflexivity.
    + intros Hno. now contradiction Hno.
Qed.

Lemma Project_load_ValueError_witness :
  let data : gmap string string := <["packages" := "lib@core pkg@a@b"]> {["src" := "/proj"]} in
  os_run os_ok (Project_load scenario_host data) (new_world "/home/dev/.pyarmor")
  = Raises (Py ValueError).
Proof.
  intros data.
  apply (proj1 (Project_load_ValueError scenario_host os_ok data "/proj"
                  (new_world "/home/dev/.pyarmor") eq_refl eq_refl)).
  apply Exists_cons_tl, Exists_cons_hd. split; vm_compute; [reflexivity | lia].
Defined.

Lemma reconcile_nil_l (modules : list string) : reconcile [] modules = Ok modules.
Proof. reflexivity. Qed.

(** What the middle phase leaves of the project: everything but the
    list of packages. *)
Lemma with_packages_project (H : Host) (src : string) (name : option string)
    (excludes scripts modules packages : list string) (w : World) :
  exists ps,
    project (with_packages H src name excludes scripts modules packages w) =
    Proj.set_packages (Proj._packages (project w) ++ ps) (project w).
Proof.
  assert (Hsame : project w = Proj.set_packages (Proj._packages (project w) ++ []) (project w)).
  { rewrite app_nil_r. now destruct (project w). }
  unfold with_packages. destruct packages as [|item items].
  - destruct modules; [|exists []; exact Hsame].
    destruct scripts; [|exists []; exact Hsame].
    destruct (path_exists H _); eexists; reflexivity.
  - eexists; reflexivity.
Qed.

Lemma with_packages_heap (H : Host) (src : string) (name : option string)
    (excludes scripts modules packages : list string) (w : World) :
  exists us,
    heap (with_packages H src name excludes scripts modules packages w) = heap w ++ us.
Proof.
  unfold with_packages. destruct packages as [|item items].
  - destruct modules; [|exists []; now rewrite app_nil_r].
    destruct scripts; [|exists []; now rewrite app_nil_r].
    destruct (path_exists H _); eexists; reflexivity.
  - eexists; reflexivity.
Qed.

(** X6.  [Project.load] calls [os.makedirs] once, on the directory
    [project] under the context's local path, before it looks at the
    record.  It calls [scan_path] in one situation only: the record has
    [src] but names no package, its patterns resolve to no script and no
    module, and [src] holds no [__init__.py]; the directory listed is
    then [src].  What [glob.glob] reads to resolve the patterns is not
    counted, and the run is one that the operating system does not
    interrupt. *)
Theorem Project_load_effects (H : Host) (data : gmap string string) (w : World) :
  let w' := snd (Project_load H data w) in
  made_dirs w' = made_dirs w ++ [joinpath H (Proj.ctx_local_path (project w)) "project"] /\
  scan_log w' =
  scan_log w ++
  match data !! "src" with
  | None => []
  | Some src =>
      match vlist data "packages", resolved H data src "modules",
            resolved H data src "scripts" with
      | [], [], [] =>
          if path_exists H (joinpath H src "__init__.py") then [] else [src]
      | _, _, _ => []
      end
  end.
Proof.
  intros w'. subst w'. destruct (data !! "src") as [src|] eqn:E.
  - destruct (Project_load_run H data src w E) as (m2 & _ & ->).
    match goal with
    | |- context [with_packages ?H ?s ?n ?e ?sc ?m ?p ?w0] =>
        destruct (with_packages_logs H s n e sc m p w0) as [Hm Hs]
    end.
    unfold default_listing in Hs.
    destruct (forallb item_ok (vlist data "packages"));
      cbn [snd with_modules made_dirs scan_log]; rewrite Hm, Hs; split; reflexivity.
  - rewrite (Project_load_no_src H data w E). cbn [snd made_dirs scan_log].
    now rewrite app_nil_r.
Qed.

Lemma lookup_app_index {A : Type} (l k : list A) (i : nat) :
  (l ++ k) !! (length l + i) = k !! i.
Proof. rewrite lookup_app_r by lia. f_equal. lia. Qed.

(** X7.  With a [packages] field, [Project.load] makes one [Package]
    per item that names no section, in the order of the items and up to
    the first item that fails the test; they follow the scripts in the
    heap and are appended to the packages of the project.  [scan_path]
    is not called: [Project.load] does not list [src] itself, even when
    every item is a section and nothing else is resolved, so that once
    [os.makedirs] has succeeded the call cannot fail on the file
    system. *)
Theorem Project_load_package_items (H : Host) (data : gmap string string) (src : string)
    (w : World) :
  data !! "src" = Some src ->
  vlist data "packages" <> [] ->
  let pkgs := item_packages H src (ok_prefix (vlist data "packages")) in
  let n := length (heap w) + length (resolved H data src "scripts") in
  let w' := snd (Project_load H data w) in
  Proj._packages (project w') = Proj._packages (project w) ++ seq n (length pkgs) /\
  (forall i u, pkgs !! i = Some u -> heap w' !! (n + i) = Some u) /\
  scan_log w' = scan_log w /\
  forall os, can_make os (joinpath H (Proj.ctx_local_path (project w)) "project") = true ->
    os_run os (Project_load H data) w =
    if forallb item_ok (vlist data "packages") then Returns tt else Raises (Py ValueError).
Proof.
  intros E Hne pkgs n w'.
  destruct (Project_load_run H data src w E) as (m2 & _ & Hrun).
  assert (Hscan : scan_log w' = scan_log w).
  { unfold w'. rewrite Hrun. unfold with_packages.
    destruct (vlist data "packages") as [|item items]; [congruence|].
    destruct (forallb item_ok (item :: items)); reflexivity. }
  assert (Hos : forall os,
            can_make os (joinpath H (Proj.ctx_local_path (project w)) "project") = true ->
            os_run os (Project_load H data) w =
            if forallb item_ok (vlist data "packages") then Returns tt
            else Raises (Py ValueError)).
  { intros os Hmk. rewrite (Project_load_os_run H os data src w E), Hmk.
    unfold default_listing. destruct (vlist data "packages"); [congruence | reflexivity]. }
  assert (Hn : length (heap (with_scripts H src (resolved H data src "scripts") w)) = n).
  { unfold with_scripts. cbn [heap]. now rewrite length_app, length_map. }
  split; [|split; [|split; [exact Hscan | exact Hos]]]; unfold w'; rewrite Hrun;
    unfold with_packages;
    destruct (vlist data "packages") as [|item items] eqn:Ep; try congruence; fold pkgs.
  - destruct (forallb item_ok (item :: items)); cbn [snd with_modules add_packages project
      Proj._packages Proj.set_packages Proj.set_modules];
      rewrite Hn; reflexivity.
  - intros i u Hu. rewrite <- Hn.
    destruct (forallb item_ok (item :: items)); cbn [snd with_modules add_packages heap].
    + apply lookup_app_l_Some. rewrite lookup_app_index. exact Hu.
    + rewrite lookup_app_index. exact Hu.
Qed.

Lemma Project_load_package_items_witness :
  let data : gmap string string :=
    <["packages" := "@extra lib@core pkg"]> {["src" := "/proj"]} in
  let w' := snd (Project_load scenario_host data (new_world "/home/dev/.pyarmor")) in
  Proj._packages (project w') = [0; 1] /\
  (forall i u,
     [Unit.mk KPackage PProject "/proj/lib" "core" None None;
      Unit.mk KPackage PProject "/proj/pkg" "pkg" None None] !! i = Some u ->
     heap w' !! (0 + i) = Some u) /\
  scan_log w' = [] /\
  os_run (os_without ["/proj"]) (Project_load scenario_host data)
    (new_world "/home/dev/.pyarmor") = Returns tt.
Proof.
  intros data w'.
  destruct (Project_load_package_items scenario_host data "/proj"
              (new_world "/home/dev/.pyarmor") eq_refl) as (Hp & Hh & Hs & Hos).
  - vm_compute. discriminate.
  - split; [exact Hp|]. split; [exact Hh|]. split; [exact Hs|].
    exact (Hos (os_without ["/proj"]) eq_refl).
Defined.

Lemma with_scripts_nil (H : Host) (src : string) (w : World) :
  heap (with_scripts H src [] w) = heap w /\
  Proj._scripts (project (with_scripts H src [] w)) = Proj._scripts (project w) /\
  Proj._modules (project (with_scripts H src [] w)) = Proj._modules (project w) /\
  Proj._packages (project (with_scripts H src [] w)) = Proj._packages (project w) /\
  Proj.src (project (with_scripts H src [] w)) = src.
Proof. unfold with_scripts. cbn. rewrite !app_nil_r. auto. Qed.

(** X8.  The default of [Project.load]: the record names no package and
    its patterns resolve to no script and no module; [os.makedirs] has
    succeeded.  If [src] holds [__init__.py], the call returns: [src]
    itself becomes the one new package, named by the field [name] or
    else by the base name of [src], and no module is made.  Otherwise
    [src] is listed, and the call raises the [OSError] of [os.scandir]
    when it cannot be; when it can, the call returns: every directory
    kept becomes a package, every file kept becomes a module whose path
    is taken relative to [src], the packages coming first in the heap.
    No script is added. *)
Theorem Project_load_default (H : Host) (os : OS) (data : gmap string string)
    (src : string) (w : World) :
  data !! "src" = Some src ->
  vlist data "packages" = [] ->
  resolved H data src "scripts" = [] ->
  resolved H data src "modules" = [] ->
  can_make os (joinpath H (Proj.ctx_local_path (project w)) "project") = true ->
  let r := os_run os (Project_load H data) w in
  let w' := snd (Project_load H data w) in
  let n := length (heap w) in
  if path_exists H (joinpath H src "__init__.py") then
    let pkgname := match data !! "name" with
                   | Some nm => if PyStr.truthy nm then nm else basename H src
                   | None => basename H src
                   end in
    r = Returns tt /\
    heap w' = heap w ++ [Module_init H KPackage src (Some pkgname) PProject] /\
    Proj._packages (project w') = Proj._packages (project w) ++ [n] /\
    Proj._modules (project w') = Proj._modules (project w) /\
    Proj._scripts (project w') = Proj._scripts (project w)
  else
    let fd := scan_entries H GLOBAL_INCLS (vlist data "excludes" ++ GLOBAL_EXCLS)
                (scandir H src) in
    r = (if can_list os src then Returns tt else Raises (Ext (OSError src))) /\
    (can_list os src = true ->
     heap w' =
       heap w
       ++ map (fun d => Module_init H KPackage d None PProject) (snd fd)
       ++ map (fun f => Module_init H KModule (relpath H (joinpath H src f) src) None PProject)
              (fst fd) /\
     Proj._packages (project w') =
       Proj._packages (project w) ++ seq n (length (snd fd)) /\
     Proj._modules (project w') =
       Proj._modules (project w) ++ seq (n + length (snd fd)) (length (fst fd)) /\
     Proj._scripts (project w') = Proj._scripts (project w)).
Proof.
  intros E Ep Es Em Hmk r w' n. subst r w'.
  rewrite (Project_load_os_run H os data src w E), Hmk.
  destruct (Project_load_run H data src w E) as (m2 & Er & ->).
  rewrite Ep, Es, Em in *. cbn [forallb fst snd].
  unfold default_modules in Er. unfold with_packages, default_listing.
  destruct (with_scripts_nil H src w) as (Hh & Hs & Hm & Hp & Hsrc).
  destruct (path_exists H (joinpath H src "__init__.py")).
  - rewrite reconcile_nil_l in Er. inversion Er; subst m2.
    cbn [with_modules add_packages heap project map length seq
         Proj._scripts Proj._modules Proj._packages Proj.set_modules Proj.set_packages].
    rewrite Hh, Hs, Hm, Hp, !app_nil_r. auto.
  - rewrite reconcile_nil_l in Er. inversion Er; subst m2.
    split; [reflexivity|]. intros _.
    cbn [with_modules add_packages heap project
         Proj._scripts Proj._modules Proj._packages Proj.set_modules Proj.set_packages
         Proj.src].
    rewrite Hh, Hs, Hm, Hp, Hsrc, !length_app, !length_map, map_map, <- app_assoc.
    auto.
Qed.

Lemma Project_load_default_witness :
  let data : gmap string string := {["src" := "/proj"]} in
  let w0 := new_world "/home/dev/.pyarmor" in
  let w' := snd (Project_load scenario_host data w0) in
  os_run os_ok (Project_load scenario_host data) w0 = Returns tt /\
  os_run (os_without ["/proj"]) (Project_load scenario_host data) w0
    = Raises (Ext (OSError "/proj")) /\
  heap w' =
    [Unit.mk KPackage PProject "pkg" "pkg" None None;
     Unit.mk KModule PProject "a.py" "a" None None;
     Unit.mk KModule PProject "b.py" "b" None None] /\
  Proj._packages (project w') = [0] /\
  Proj._modules (project w') = [1; 2] /\
  Proj._scripts (project w') = [].
Proof.
  intros data w0 w'.
  destruct (Project_load_default scenario_host os_ok data "/proj" w0
              eq_refl eq_refl eq_refl eq_refl eq_refl) as [Hr Hst].
  destruct (Project_load_default scenario_host (os_without ["/proj"]) data "/proj" w0
              eq_refl eq_refl eq_refl eq_refl eq_refl) as [Hr' _].
  split; [exact Hr|]. split; [exact Hr'|]. exact (Hst eq_refl).
Defined.

(** X9.  [Project.load] is not atomic: when it raises [ValueError],
    [src] has been assigned and one [Script] per resolved script path
    has been created and appended, and the packages of the items before
    the offending one are in place; no module has been added. *)
Theorem Project_load_not_atomic (H : Host) (os : OS) (data : gmap string string)
    (src : string) (w : World) :
  data !! "src" = Some src ->
  os_run os (Project_load H data) w = Raises (Py ValueError) ->
  let scripts := resolved H data src "scripts" in
  let pkgs := item_packages H src (ok_prefix (vlist data "packages")) in
  let w' := snd (Project_load H data w) in
  Proj.src (project w') = src /\
  heap w' =
    heap w
    ++ map (fun x => Module_init H KScript (relpath H x src) None PProject) scripts
    ++ pkgs /\
  Proj._scripts (project w') =
    Proj._scripts (project w) ++ seq (length (heap w)) (length scripts) /\
  Proj._packages (project w') =
    Proj._packages (project w) ++ seq (length (heap w) + length scripts) (length pkgs) /\
  Proj._modules (project w') = Proj._modules (project w).
Proof.
  intros E Hos scripts pkgs w'. subst w'.
  pose proof (os_run_raises os _ w ValueError Hos) as Hraise.
  destruct (Project_load_run H data src w E) as (m2 & _ & Hrun).
  rewrite Hrun in *. destruct (forallb item_ok (vlist data "packages")) eqn:Ef;
    [discriminate Hraise|]. cbn [snd]. unfold with_packages.
  destruct (vlist data "packages") as [|item items] eqn:Ep; [discriminate Ef|].
  fold pkgs. fold scripts. unfold add_packages, with_scripts.
  cbn [heap project Proj.src Proj._scripts Proj._modules Proj._packages
       Proj.set_packages Proj.set_scripts Proj.set_src].
  rewrite length_app, length_map, <- app_assoc. auto.
Qed.

Lemma Project_load_not_atomic_witness :
  let data : gmap string string :=
    <["scripts" := "main.py"]>
      (<["packages" := "lib@core" +:+ nbsp +:+ "pkg@a@b"]> {["src" := "/src"]}) in
  let w' := snd (Project_load flat_host data (new_world "/home/dev/.pyarmor")) in
  Proj.src (project w') = "/src" /\
  heap w' = [Unit.mk KScript PProject "main.py" "main" None None;
             Unit.mk KPackage PProject "/src/lib" "core" None None] /\
  Proj._scripts (project w') = [0] /\
  Proj._packages (project w') = [1] /\
  Proj._modules (project w') = [].
Proof.
  intros data.
  exact (Project_load_not_atomic flat_host os_ok data "/src" (new_world "/home/dev/.pyarmor")
           eq_refl eq_refl).
Defined.

(** * A second [Project.load] *)

Lemma with_packages_fields (H : Host) (src : string) (name : option string)
    (excludes scripts modules packages : list string) (w : World) :
  let w' := with_packages H src name excludes scripts modules packages w in
  let pkgs := new_packages H src name excludes scripts modules packages in
  heap w' = heap w ++ pkgs /\
  Proj._packages (project w') =
    Proj._packages (project w) ++ seq (length (heap w)) (length pkgs) /\
  Proj._scripts (project w') = Proj._scripts (project w) /\
  Proj._modules (project w') = Proj._modules (project w) /\
  Proj.src (project w') = Proj.src (project w).
Proof.
  unfold with_packages, new_packages. destruct packages as [|item items].
  - destruct modules; [|cbn; rewrite !app_nil_r; auto].
    destruct scripts; [|cbn; rewrite !app_nil_r; auto].
    destruct (path_exists H _); cbn; auto.
  - cbn. auto.
Qed.

Lemma ok_prefix_all (items : list string) :
  forallb item_ok items = true -> ok_prefix items = items.
Proof.
  induction items as [|item items IH]; [reflexivity|]. cbn [forallb ok_prefix].
  destruct (item_ok item); [|discriminate]. cbn. intros E. now rewrite IH.
Qed.

(** C9.  A second [Project.load] on the same project only appends.
    Whatever it does, the lists of scripts, modules and packages after
    it are those left by the first call followed by addresses of new
    objects, and every object of the heap is as the first call left it.
    When it returns, the operating system having refused nothing,
    what it has appended is what it found: one [Script]
    per path its script patterns resolve to, then the packages of its
    items (or of the default), then one [Module] per module path left by
    the reconciliation, in this order and with paths relative to its
    [src]. *)
Theorem Project_load_twice_appends (H : Host) (d1 d2 : gmap string string) (w0 : World) :
  let w1 := snd (Project_load H d1 w0) in
  let w2 := snd (Project_load H d2 w1) in
  (exists s m p : list addr,
     Proj._scripts (project w2) = Proj._scripts (project w1) ++ s /\
     Proj._modules (project w2) = Proj._modules (project w1) ++ m /\
     Proj._packages (project w2) = Proj._packages (project w1) ++ p /\
     Forall (fun a => length (heap w1) <= a < length (heap w2)) (s ++ m ++ p)) /\
  Proj._namespaces (project w2) = Proj._namespaces (project w1) /\
  (forall a u, heap w1 !! a = Some u -> heap w2 !! a = Some u) /\
  forall os src,
    d2 !! "src" = Some src -> os_run os (Project_load H d2) w1 = Returns tt ->
    let excludes := vlist d2 "excludes" ++ GLOBAL_EXCLS in
    let scripts := resolved H d2 src "scripts" in
    let modules := resolved H d2 src "modules" in
    let packages := vlist d2 "packages" in
    let pkgs := new_packages H src (d2 !! "name") excludes scripts modules packages in
    let n := length (heap w1) in
    exists modules2,
      reconcile scripts (default_modules H src excludes scripts modules packages)
        = Ok modules2 /\
      heap w2 =
        heap w1
        ++ map (fun x => Module_init H KScript (relpath H x src) None PProject) scripts
        ++ pkgs
        ++ map (fun x => Module_init H KModule (relpath H x src) None PProject) modules2 /\
      Proj._scripts (project w2) =
        Proj._scripts (project w1) ++ seq n (length scripts) /\
      Proj._packages (project w2) =
        Proj._packages (project w1) ++ seq (n + length scripts) (length pkgs) /\
      Proj._modules (project w2) =
        Proj._modules (project w1)
        ++ seq (n + length scripts + length pkgs) (length modules2).
Proof.
  intros w1 w2.
  pose proof (Project_load_extends H d2 w1) as Hext. fold w2 in Hext.
  split; [|split; [|split]].
  - destruct Hext as (l & s & m & p & Hh & Hl & Hs & Hm & Hp & Hf & Hn & _).
    exists s, m, p. repeat split; assumption.
  - destruct Hext as (l & s & m & p & Hh & Hl & Hs & Hm & Hp & Hf & Hn & _). exact Hn.
  - intros a u. now apply extends_lookup.
  - intros os src E Hos excludes scripts modules packages pkgs n.
    pose proof (os_run_returns os _ w1 tt Hos) as Hret.
    destruct (Project_load_run H d2 src w1 E) as (m2 & Er & Hrun).
    exists m2. split; [exact Er|].
    unfold w2. rewrite Hrun in Hret |- *.
    fold excludes scripts modules packages in Hret |- *.
    destruct (forallb item_ok packages) eqn:Ef; [|discriminate Hret]. cbn [snd].
    destruct (with_packages_fields H src (d2 !! "name") excludes scripts modules packages
                (with_scripts H src scripts w1)) as (Hh & Hp & Hs & Hm & Hsrc).
    fold pkgs in Hh, Hp.
    unfold with_modules. cbn [heap project Proj._scripts Proj._modules Proj._packages
                              Proj.set_modules].
    rewrite Hh, Hp, Hs, Hm, Hsrc. unfold with_scripts.
    cbn [heap project Proj.src Proj._scripts Proj._modules Proj._packages
         Proj.set_scripts Proj.set_src].
    rewrite !length_app, !length_map, <- !app_assoc. fold n. auto.
Qed.

Lemma Project_load_twice_appends_witness :
  let w1 := snd (Project_load flat_host overlap_once_data (new_world "/home/dev/.pyarmor")) in
  let w2 := snd (Project_load flat_host overlap_once_data w1) in
  exists modules2,
    reconcile ["/src/main.py"] ["/src/main.py"; "/src/util.py"] = Ok modules2 /\
    heap w2 =
      heap w1
      ++ [Unit.mk KScript PProject "main.py" "main" None None]
      ++ []
      ++ map (fun x => Module_init flat_host KModule
                         (relpath flat_host x "/src") None PProject) modules2 /\
    Proj._scripts (project w2) = Proj._scripts (project w1) ++ [2] /\
    Proj._packages (project w2) = Proj._packages (project w1) ++ [] /\
    Proj._modules (project w2) = Proj._modules (project w1) ++ seq 3 (length modules2).
Proof.
  intros w1 w2.
  exact (proj2 (proj2 (proj2
           (Project_load_twice_appends flat_host overlap_once_data overlap_once_data
              (new_world "/home/dev/.pyarmor"))))
           os_ok "/src" eq_refl eq_refl).
Defined.

(** * What [Project.load] leaves alone *)

Lemma Project_load_frame (H : Host) (data : gmap string string) (w : World) :
  frame_of (project (snd (Project_load H data w))) = frame_of (project w).
Proof.
  destruct (data !! "src") as [src|] eqn:E.
  2:{ now rewrite (Project_load_no_src H data w E). }
  destruct (Project_load_run H data src w E) as (m2 & _ & ->).
  match goal with
  | |- context [with_packages ?H ?s ?n ?e ?sc ?m ?p ?w0] =>
      destruct (with_packages_project H s n e sc m p w0) as (ps & Hp)
  end.
  destruct (forallb item_ok (vlist data "packages")); cbn [snd with_modules project];
    rewrite Hp; reflexivity.
Qed.

(** X10.  [Project.load] does not touch the reverse index of
    [get_module]: once the index is built, a later [load] leaves it in
    place, and [get_module] keeps answering from it, whatever units the
    [load] added. *)
Theorem Project_load_keeps_index (H : Host) (data : gmap string string) (name : string)
    (w : World) (idx : gmap string addr) :
  Proj._rmodules (project w) = Some idx ->
  let w' := snd (Project_load H data w) in
  Project_get_module H name w' = (Ok (idx !! name), w').
Proof.
  intros E w'. apply Project_get_module_indexed.
  pose proof (Project_load_frame H data w) as Hf. fold w' in Hf.
  unfold frame_of in Hf. inversion Hf. congruence.
Qed.

Lemma Project_load_keeps_index_witness :
  let w := snd (Project_get_module flat_host "main" (new_world "/home/dev/.pyarmor")) in
  let w' := snd (Project_load flat_host overlap_once_data w) in
  Project_get_module flat_host "util" w' = (Ok None, w').
Proof.
  intros w.
  exact (Project_load_keeps_index flat_host overlap_once_data "util" w ∅ eq_refl).
Defined.

Example Project_load_then_index :
  let w' := snd (Project_load flat_host overlap_once_data (new_world "/home/dev/.pyarmor")) in
  fst (Project_get_module flat_host "util" w') = Ok (Some 1).
Proof. vm_compute. reflexivity. Qed.

(** * The logs of callers *)

Lemma log_unknown_call_calls_inv (func : Func) (w : World) :
  calls_inv w -> calls_inv (snd (log_unknown_call func w)).
Proof.
  intros [Hc Ha]. unfold calls_inv, log_unknown_call. destruct func as [s|m scopes].
  - destruct (PyStr.split ":" s !! 2) as [f2|]; [|split; assumption].
    destruct (_ =? _)%Z; [split; assumption|].
    unfold bind, get_project. destruct (bool_decide _) eqn:Eb; [split; assumption|].
    cbn. split; [assumption|]. apply bool_decide_eq_false in Eb.
    apply NoDup_app. split; [assumption|]. split; [|apply NoDup_singleton].
    intros x Hx Hin. apply list_elem_of_singleton in Hin. subst x. exact (Eb Hx).
  - unfold bind, get_project. destruct (bool_decide _) eqn:Eb; [split; assumption|].
    cbn. split; [|assumption]. apply bool_decide_eq_false in Eb.
    apply NoDup_app. split; [assumption|]. split; [|apply NoDup_singleton].
    intros x Hx Hin. apply list_elem_of_singleton in Hin. subst x. exact (Eb Hx).
Qed.

Lemma calls_inv_frame (w w' : World) :
  frame_of (project w') = frame_of (project w) -> calls_inv w -> calls_inv w'.
Proof. unfold frame_of, calls_inv. intros E. inversion E. congruence. Qed.

Lemma calls_inv_Package_load (H : Host) (a : addr) : preserves calls_inv (Package_load H a).
Proof.
  intros w Hw. destruct (Package_load_world H a w) as [->|(u & dir & Ea & ->)]; exact Hw.
Qed.

(** X11.  The logs [unknown_calls] and [unknown_args] never hold a
    duplicate: on every world the methods lead to from a new project,
    whatever calls of [log_unknown_call] and of the other methods were
    made, each of the two lists is free of repetitions. *)
Theorem reachable_calls_inv (H : Host) (w : World) :
  reachable H w ->
  NoDup (Proj.unknown_calls (project w)) /\ NoDup (Proj.unknown_args (project w)).
Proof.
  change (reachable H w -> calls_inv w).
  induction 1 as [lp|data w _ IH|a w _ IH|a w _ IH|a w _ IH|name w _ IH|m v w _ IH|f w _ IH].
  - split; apply NoDup_nil_2.
  - eapply calls_inv_frame; [apply Project_load_frame | exact IH].
  - now apply calls_inv_Package_load.
  - apply preserves_Package_modules; [apply calls_inv_Package_load | exact IH].
  - apply preserves_Package_packages; [apply calls_inv_Package_load | exact IH].
  - apply preserves_Project_get_module; [apply calls_inv_Package_load | | exact IH].
    intros r w' Hw'. exact Hw'.
  - rewrite log_unknown_var_eq. cbn [snd]. destruct (bool_decide _); exact IH.
  - now apply log_unknown_call_calls_inv.
Qed.

Lemma reachable_calls_inv_witness :
  let w := snd (log_unknown_call (FuncObj "m" ["C"; "f"])
             (snd (log_unknown_call (FuncStr "m:f:a.b")
                (snd (log_unknown_call (FuncObj "m" ["C"; "f"])
                   (snd (log_unknown_call (FuncStr "m:f:a.b")
                      (new_world "")))))))) in
  NoDup (Proj.unknown_calls (project w)) /\ NoDup (Proj.unknown_args (project w)).
Proof.
  intros w. apply (reachable_calls_inv flat_host w).
  repeat apply reach_log_call. apply reach_new.
Defined.

Example log_unknown_call_repeated :
  let w := snd (log_unknown_call (FuncObj "m" ["C"; "f"])
             (snd (log_unknown_call (FuncStr "m:f:a.b")
                (snd (log_unknown_call (FuncObj "m" ["C"; "f"])
                   (snd (log_unknown_call (FuncStr "m:f:a.b")
                      (new_world "")))))))) in
  Proj.unknown_calls (project w) = ["m:C.f"] /\ Proj.unknown_args (project w) = ["m:f:a.b"].
Proof. vm_compute. split; reflexivity. Qed.

(** X12.  A plain string whose third field exists and holds no dot
    reaches no log: [log_unknown_call] raises [TypeError], for the
    format of the redirection is applied to a list, and leaves the
    project as it was. *)
Theorem log_unknown_call_no_chain (s f2 : string) (w : World) :
  PyStr.split ":" s !! 2 = Some f2 ->
  PyStr.count "." f2 = 0 ->
  log_unknown_call (FuncStr s) w = (Raise TypeError, w).
Proof.
  intros Hf Hc. apply find_absent in Hc.
  unfold log_unknown_call. rewrite Hf, Hc. reflexivity.
Qed.

Lemma log_unknown_call_no_chain_witness :
  log_unknown_call (FuncStr "pkg.mod:Cls.method:obj") (new_world "") =
  (Raise TypeError, new_world "").
Proof.
  apply (log_unknown_call_no_chain "pkg.mod:Cls.method:obj" "obj" (new_world ""));
    reflexivity.
Defined.

(** * Paths *)

Lemma abspath_rec_fuel (H : Host) (h : list Unit.t) (p : Proj.t) :
  wf_heap h ->
  forall a n, a < n -> abspath_rec H n h p a = abspath_rec H (S a) h p a.
Proof.
  intros Hwf a. induction a as [a IH] using lt_wf_ind. intros n Hn.
  destruct n as [|n]; [lia|]. cbn [abspath_rec].
  destruct (h !! a) as [u|] eqn:Ea; [|reflexivity].
  destruct (isabs H (Unit._path u)); [reflexivity|].
  destruct (Unit.parent u) as [| |q] eqn:Ep; try reflexivity.
  pose proof (Hwf a u q Ea Ep) as Hq.
  rewrite (IH q Hq n) by lia. rewrite (IH q Hq a) by lia. reflexivity.
Qed.

Lemma abspath_rec_total (H : Host) (h : list Unit.t) (p : Proj.t) :
  wf_heap h -> parented h ->
  forall a, a < length h -> exists d, abspath_rec H (S a) h p a = Ok d.
Proof.
  intros Hwf Hpar a. induction a as [a IH] using lt_wf_ind. intros Ha.
  cbn [abspath_rec]. destruct (lookup_lt_is_Some_2 h a Ha) as [u Eu]. rewrite Eu.
  destruct (isabs H (Unit._path u)); [eexists; reflexivity|].
  destruct (Unit.parent u) as [| |q] eqn:Ep.
  - exfalso. exact (Hpar a u Eu Ep).
  - eexists; reflexivity.
  - pose proof (Hwf a u q Eu Ep) as Hq.
    destruct (IH q Hq) as [d Ed]; [lia|].
    rewrite (abspath_rec_fuel H h p Hwf q a Hq), Ed. eexists; reflexivity.
Qed.

(** X13.  [Module.abspath] in a heap where parents precede their
    children: an absolute [_path] is the answer as it is; a relative one
    is joined to the [abspath] of the parent unit, or to that of the
    project, which is [os.path.abspath] of the [src] assigned last;
    without a parent a relative path raises [AttributeError]. *)
Theorem abspath_spec (H : Host) (w : World) (a : addr) (u : Unit.t) :
  wf_heap (heap w) ->
  heap w !! a = Some u ->
  let r := fst (Module_abspath H a w) in
  if isabs H (Unit._path u) then r = Ok (Unit._path u)
  else match Unit.parent u with
       | PNone => r = Raise AttributeError
       | PProject =>
           r = Ok (joinpath H (os_abspath H (Proj.src (project w))) (Unit._path u))
       | PUnit q =>
           r = match fst (Module_abspath H q w) with
               | Ok d => Ok (joinpath H d (Unit._path u))
               | Raise e => Raise e
               end
       end.
Proof.
  intros Hwf Ea r. subst r. unfold Module_abspath. cbn [fst].
  assert (Ha : a < length (heap w)) by (eapply lookup_lt_Some; eassumption).
  rewrite (abspath_rec_fuel H (heap w) (project w) Hwf a (length (heap w)) Ha).
  cbn [abspath_rec]. rewrite Ea.
  destruct (isabs H (Unit._path u)); [reflexivity|].
  destruct (Unit.parent u) as [| |q] eqn:Ep; try reflexivity.
  pose proof (Hwf a u q Ea Ep) as Hq.
  rewrite (abspath_rec_fuel H (heap w) (project w) Hwf q a Hq).
  rewrite (abspath_rec_fuel H (heap w) (project w) Hwf q (length (heap w))) by lia.
  reflexivity.
Qed.

Lemma abspath_spec_witness :
  let w := snd (Package_packages tree_host 0 tree_world) in
  fst (Module_abspath tree_host 5 w) =
  match fst (Module_abspath tree_host 0 w) with
  | Ok d => Ok (Posix.join d "sub")
  | Raise e => Raise e
  end.
Proof.
  intros w.
  refine (abspath_spec tree_host w 5 (Unit.mk KPackage (PUnit 0) "sub" "sub" None None) _ _).
  - check_wf_heap.
  - reflexivity.
Defined.

Example abspath_on_tree :
  let w := snd (Package_packages tree_host 0 tree_world) in
  fst (Module_abspath tree_host 0 w) = Ok "/src/pkg" /\
  fst (Module_abspath tree_host 5 w) = Ok "/src/pkg/sub" /\
  fst (Module_abspath tree_host 2 w) = Ok "/src/a.py" /\
  fst (Module_abspath tree_host 0 orphan_world) = Raise AttributeError.
Proof. vm_compute. repeat split. Qed.

Lemma parented_Package_load (H : Host) (a : addr) :
  preserves (fun w => parented (heap w)) (Package_load H a).
Proof.
  intros w Hw. destruct (Package_load_world H a w) as [->|(u & dir & Ea & ->)]; [exact Hw|].
  intros b v Hb. destruct (decide (b = a)) as [->|Hne].
  - rewrite (loaded_world_lookup H a u dir w Ea) in Hb. inversion Hb; subst v.
    cbn. exact (Hw a u Ea).
  - unfold loaded_world in Hb. cbn [heap] in Hb.
    rewrite list_lookup_insert_ne in Hb by congruence.
    apply lookup_app_Some in Hb. destruct Hb as [Hb|[_ Hb]]; [exact (Hw b v Hb)|].
    apply list_elem_of_lookup_2 in Hb. apply elem_of_app in Hb.
    destruct Hb as [Hb|Hb]; apply list_elem_of_fmap in Hb;
      destruct Hb as (x & -> & _); cbn; discriminate.
Qed.

Lemma reachable_parented (H : Host) (w : World) : reachable H w -> parented (heap w).
Proof.
  induction 1 as [lp|data w _ IH|a w _ IH|a w _ IH|a w _ IH|name w _ IH|m v w _ IH|f w _ IH].
  - intros a u Ha. cbn [new_world heap] in Ha. now rewrite lookup_nil in Ha.
  - destruct (Project_load_extends H data w) as (l & _ & _ & _ & Hh & Hl & _).
    rewrite Hh. intros a u Ha. apply lookup_app_Some in Ha.
    destruct Ha as [Ha|[_ Ha]]; [exact (IH a u Ha)|].
    rewrite Forall_forall in Hl. apply list_elem_of_lookup_2 in Ha.
    destruct (Hl u Ha) as (-> & _). discriminate.
  - now apply parented_Package_load.
  - apply (preserves_Package_modules (fun w => parented (heap w)));
      [apply parented_Package_load | exact IH].
  - apply (preserves_Package_packages (fun w => parented (heap w)));
      [apply parented_Package_load | exact IH].
  - apply (preserves_Project_get_module (fun w => parented (heap w)));
      [apply parented_Package_load | | exact IH].
    intros r w' Hw'. exact Hw'.
  - rewrite log_unknown_var_eq. cbn [snd]. destruct (bool_decide _); exact IH.
  - destruct (log_unknown_call_world f w) as [-> _]. exact IH.
Qed.

Lemma os_run_pure {A : Type} (os : OS) (c : M A) (w : World) (a : A) :
  c w = (Ok a, w) -> os_run os c w = Returns a.
Proof.
  intros E. rewrite (os_run_logs os c w [] []); rewrite ?E; cbn [snd fst List.find];
    now rewrite ?app_nil_r.
Qed.

Lemma os_run_loaded_world {A : Type} (H : Host) (os : OS) (c : M A) (w : World) (x : A)
    (a : addr) (u : Unit.t) (dir : string) :
  c w = (Ok x, loaded_world H a u dir w) ->
  os_run os c w = if can_list os dir then Returns x else Raises (Ext (OSError dir)).
Proof.
  intros E. rewrite (os_run_logs os c w [] [dir]); rewrite ?E; cbn [snd fst List.find];
    [|now rewrite app_nil_r | reflexivity].
  now destruct (can_list os dir).
Qed.

(** X14.  On a project built by the methods a package never fails to
    load for a reason of its own: its directory resolves, and
    [Package.load] lists that one directory; it returns when
    [os.scandir] can list it and raises the [OSError] of [os.scandir]
    otherwise.  Each of the two accessors returns the list it holds, or
    else loads in the same way and returns the new list. *)
Theorem Package_load_outcome (H : Host) (os : OS) (w : World) (a : addr) (u : Unit.t) :
  reachable H w ->
  heap w !! a = Some u -> Unit.kind u = KPackage ->
  exists dir,
    let fd := scan_entries H GLOBAL_INCLS GLOBAL_EXCLS (scandir H dir) in
    let n := length (heap w) in
    let or_refused {A : Type} (x : A) : outcome os_error A :=
      if can_list os dir then Returns x else Raises (Ext (OSError dir)) in
    fst (Module_abspath H a w) = Ok dir /\
    Package_load H a w = (Ok tt, loaded_world H a u dir w) /\
    os_run os (Package_load H a) w = or_refused tt /\
    os_run os (Package_modules H a) w =
      match Unit._modules u with
      | Some ms => Returns ms
      | None => or_refused (seq n (length (fst fd)))
      end /\
    os_run os (Package_packages H a) w =
      match Unit._packages u with
      | Some ps => Returns ps
      | None => or_refused (seq (n + length (fst fd)) (length (snd fd)))
      end.
Proof.
  intros Hr Ea Ek.
  destruct (reachable_heap_inv H w Hr) as [Hwf _].
  pose proof (reachable_parented H w Hr) as Hpar.
  assert (Ha : a < length (heap w)) by (eapply lookup_lt_Some; eassumption).
  destruct (abspath_rec_total H (heap w) (project w) Hwf Hpar a Ha) as [dir Ed].
  assert (Ed' : fst (Module_abspath H a w) = Ok dir).
  { unfold Module_abspath. cbn [fst].
    now rewrite (abspath_rec_fuel H (heap w) (project w) Hwf a (length (heap w)) Ha). }
  pose proof (Package_load_ok H a u dir w Ea Ek Ed') as Hload.
  exists dir. cbv zeta. split; [exact Ed'|]. split; [exact Hload|].
  split; [exact (os_run_loaded_world H os _ w tt a u dir Hload)|]. split.
  - destruct (Unit._modules u) as [ms|] eqn:Em.
    + apply os_run_pure. now apply (Package_modules_loaded H a u ms w).
    + apply (os_run_loaded_world H os _ w _ a u dir).
      now rewrite (Package_modules_unloaded H a u w Ea Ek Em), Ed'.
  - destruct (Unit._packages u) as [ps|] eqn:Ep.
    + apply os_run_pure. now apply (Package_packages_loaded H a u ps w).
    + apply (os_run_loaded_world H os _ w _ a u dir).
      now rewrite (Package_packages_unloaded H a u w Ea Ek Ep), Ed'.
Qed.

Lemma Package_load_outcome_witness :
  let data : gmap string string := <["packages" := "nolib pkg"]> {["src" := "/proj"]} in
  let w := snd (Project_load scenario_host data (new_world "/home/dev/.pyarmor")) in
  let os := os_without ["/proj/nolib"] in
  os_run os (Package_load scenario_host 0) w = Raises (Ext (OSError "/proj/nolib")) /\
  os_run os (Package_modules scenario_host 0) w = Raises (Ext (OSError "/proj/nolib")) /\
  os_run os (Package_load scenario_host 1) w = Returns tt /\
  os_run os (Package_modules scenario_host 1) w = Returns [2].
Proof.
  intros data w os.
  destruct (Package_load_outcome scenario_host os w 0
              (Unit.mk KPackage PProject "/proj/nolib" "nolib" None None))
    as (d0 & Ed0 & _ & Hl0 & Hm0 & _);
    [apply reach_load, reach_new | reflexivity | reflexivity |].
  destruct (Package_load_outcome scenario_host os w 1
              (Unit.mk KPackage PProject "/proj/pkg" "pkg" None None))
    as (d1 & Ed1 & _ & Hl1 & Hm1 & _);
    [apply reach_load, reach_new | reflexivity | reflexivity |].
  assert (d0 = "/proj/nolib") as -> by (vm_compute in Ed0; congruence).
  assert (d1 = "/proj/pkg") as -> by (vm_compute in Ed1; congruence).
  repeat split; assumption.
Defined.

(** * Iterating twice *)

Lemma foldM_collect (xs acc : list addr) (w : World) :
  foldM collect xs acc w = (Ok (acc ++ xs), w).
Proof.
  revert acc. induction xs as [|x xs IH]; intros acc.
  - cbn. now rewrite app_nil_r.
  - cbn [foldM]. erewrite bind_ok by reflexivity. rewrite IH, <- app_assoc. reflexivity.
Qed.

Lemma foldM_iter_stable (H : Host) (iter : addr -> list addr -> M (list addr)) :
  iter_stable H iter ->
  forall ps acc w l w',
    sentinels_agree (heap w) ->
    foldM iter ps acc w = (Ok l, w') ->
    fills w w' /\ sentinels_agree (heap w') /\
    exists ys, l = acc ++ ys /\
      forall w'' acc', fills w' w'' -> foldM iter ps acc' w'' = (Ok (acc' ++ ys), w'').
Proof.
  intros Hiter ps. induction ps as [|p ps IH]; intros acc w l w' Hs.
  - cbn [foldM ret]. intros E. inversion E; subst.
    split; [apply fills_refl|]. split; [exact Hs|]. exists [].
    split; [now rewrite app_nil_r|]. intros w'' acc' _. now rewrite app_nil_r.
  - cbn [foldM]. unfold bind at 1.
    destruct (iter p acc w) as [[l1|e] w1] eqn:E1; [|discriminate].
    destruct (Hiter p acc w l1 w1 Hs E1) as (Hf1 & Hs1 & ys1 & -> & Hst1).
    intros E. destruct (IH (acc ++ ys1) w1 l w' Hs1 E) as (Hf2 & Hs2 & ys2 & -> & Hst2).
    split; [eapply fills_trans; eassumption|]. split; [exact Hs2|].
    exists (ys1 ++ ys2). split; [now rewrite app_assoc|].
    intros w'' acc' Hf. cbn [foldM].
    erewrite bind_ok by (apply Hst1; eapply fills_trans; eassumption).
    rewrite (Hst2 w'' (acc' ++ ys1) Hf). now rewrite app_assoc.
Qed.

Lemma fills_get_package (w w' : World) (a : addr) (u : Unit.t) (ms ps : list addr) :
  fills w w' ->
  heap w !! a = Some u -> Unit.kind u = KPackage ->
  Unit._modules u = Some ms -> Unit._packages u = Some ps ->
  exists u', get_package a w' = (Ok u', w') /\
             Unit._modules u' = Some ms /\ Unit._packages u' = Some ps.
Proof.
  intros (_ & Hu & _) Ea Ek Em Ep.
  destruct (Hu a u Ea) as (u' & Ea' & Hk & _ & _ & _ & Hm & Hp).
  exists u'. split; [apply get_package_ok; congruence|]. auto.
Qed.

Lemma Package_iter_module_stable (H : Host) (d : nat) :
  iter_stable H (fun a acc => Package_iter_module H d a collect acc).
Proof.
  induction d as [|d IH]; intros a acc w l w' Hs; [discriminate|].
  cbn [Package_iter_module]. unfold bind at 1.
  destruct (get_package a w) as [[u|e] w0] eqn:Eg; [|discriminate].
  apply get_package_inv in Eg. destruct Eg as (-> & Ea & Ek).
  unfold bind at 1.
  destruct (match Unit._modules u, Unit._packages u with
            | Some _, Some _ => ret tt
            | _, _ => Package_load H a
            end w) as [[[]|e] w1] eqn:El; [|discriminate].
  destruct (iter_load_step H a u w w1 Hs Ea Ek El)
    as (Hf1 & Hs1 & u1 & ms & ps & Ea1 & Ek1 & Em1 & Ep1).
  unfold bind at 1. rewrite (get_package_ok a u1 w1 Ea1 Ek1).
  unfold bind at 1. rewrite Em1. cbn [iter_attr ret].
  unfold bind at 1. rewrite foldM_collect.
  unfold bind at 1. rewrite (get_package_ok a u1 w1 Ea1 Ek1).
  unfold bind at 1. rewrite Ep1. cbn [iter_attr ret].
  intros E.
  destruct (foldM_iter_stable H _ IH ps (acc ++ ms) w1 l w' Hs1 E)
    as (Hf2 & Hs2 & ys & -> & Hst).
  split; [eapply fills_trans; eassumption|]. split; [exact Hs2|].
  exists (ms ++ ys). split; [now rewrite app_assoc|].
  intros w'' acc' Hf.
  destruct (fills_get_package w1 w'' a u1 ms ps) as (u'' & Eg'' & Em'' & Ep'');
    try assumption.
  { eapply fills_trans; eassumption. }
  cbn [Package_iter_module].
  rewrite (bind_ok _ _ _ _ _ Eg''). rewrite Em'', Ep''.
  erewrite bind_ok by reflexivity.
  rewrite (bind_ok _ _ _ _ _ Eg''). rewrite Em''. cbn [iter_attr].
  erewrite bind_ok by reflexivity.
  erewrite bind_ok by apply foldM_collect.
  rewrite (bind_ok _ _ _ _ _ Eg''). rewrite Ep''. cbn [iter_attr].
  erewrite bind_ok by reflexivity.
  rewrite (Hst w'' (acc' ++ ms) Hf). now rewrite app_assoc.
Qed.

Lemma project_Package_load (H : Host) (p : Proj.t) (a : addr) :
  preserves (fun w => project w = p) (Package_load H a).
Proof.
  intros w Hw. destruct (Package_load_world H a w) as [->|(u & dir & Ea & ->)]; exact Hw.
Qed.

(** X15.  A traversal that came to its end can be repeated: iterating
    the modules of a package, or of the whole project, a second time
    yields the same units in the same order and has no effect at all,
    so that no directory is read again. *)
Theorem iter_module_repeatable (H : Host) (d : nat) (a : addr) (w : World) :
  sentinels_agree (heap w) ->
  (forall l w', Package_iter_list H d a w = (Ok l, w') ->
                Package_iter_list H d a w' = (Ok l, w')) /\
  (forall l w', Project_iter_list H w = (Ok l, w') ->
                Project_iter_list H w' = (Ok l, w')).
Proof.
  intros Hs. split.
  - intros l w' E. unfold Package_iter_list in *.
    destruct (Package_iter_module_stable H d a [] w l w' Hs E) as (_ & _ & ys & -> & Hst).
    apply (Hst w' []). apply fills_refl.
  - intros l w' E. unfold Project_iter_list, Project_iter_module in *.
    unfold bind at 1 in E. cbn [get_project] in E.
    unfold bind at 1 in E. rewrite foldM_collect in E.
    unfold bind at 1 in E. cbn [get_project] in E. unfold bind at 1 in E.
    destruct (foldM (fun child s' => Package_iter_module H (recursion_limit H) child collect s')
                (Proj._packages (project w)) ([] ++ Proj._modules (project w)) w)
      as [[l2|e] w2] eqn:Ef; [|discriminate].
    assert (Hproj : project w2 = project w).
    { change w2 with (snd (Ok l2, w2)). rewrite <- Ef.
      apply (preserves_foldM (fun w0 => project w0 = project w)); [|reflexivity].
      intros x s'. apply preserves_Package_iter_module.
      - intros b. apply project_Package_load.
      - intros y s0 w0 Hw0. exact Hw0. }
    destruct (foldM_iter_stable H _ (Package_iter_module_stable H (recursion_limit H))
                _ _ w l2 w2 Hs Ef) as (_ & _ & ys & -> & Hst).
    destruct (Proj._namespaces (project w)) eqn:En; [|discriminate].
    cbn [ret] in E. inversion E; subst l w'.
    unfold bind at 1. cbn [get_project]. unfold bind at 1. rewrite foldM_collect.
    unfold bind at 1. cbn [get_project]. rewrite Hproj.
    erewrite bind_ok by (apply (Hst w2); apply fills_refl).
    now rewrite En.
Qed.

Lemma iter_module_repeatable_witness :
  let rw := Project_iter_list tree_host tree_world in
  fst rw = Ok [1; 2; 3; 4; 6; 7] /\
  scan_log (snd rw) = ["/src/pkg"; "/src/pkg/sub"] /\
  Project_iter_list tree_host (snd rw) = (Ok [1; 2; 3; 4; 6; 7], snd rw).
Proof.
  intros rw. split; [vm_compute; reflexivity|]. split; [vm_compute; reflexivity|].
  refine (proj2 (iter_module_repeatable tree_host 0 0 tree_world _) _ _ _).
  - check_sentinels.
  - vm_compute. reflexivity.
Defined.

(** * Qualified names inside a package *)

Lemma qualname_child (w : World) (a p : addr) (u : Unit.t) (pq : string) :
  wf_heap (heap w) ->
  heap w !! a = Some u -> Unit.parent u = PUnit p ->
  qualname w p = Ok pq ->
  qualname w a =
    Ok (pq +:+ ((if PyStr.truthy (Module_name u) then "." else "") +:+ Module_name u)).
Proof.
  intros Hwf Ea Ep Eq. pose proof (Hwf a u p Ea Ep) as Hlt.
  pose proof (lookup_lt_Some _ _ _ Ea) as Ha.
  rewrite (qualname_fuel w a Hwf Ha). cbn [qualname_rec]. rewrite Ea, Ep.
  rewrite (qualname_rec_fuel (heap w) Hwf p a Hlt).
  rewrite <- (qualname_fuel w p Hwf) by lia. rewrite Eq.
  now rewrite append_assoc.
Qed.

Lemma dotted_name (u : Unit.t) :
  dotted ((if PyStr.truthy (Module_name u) then "." else "") +:+ Module_name u).
Proof.
  destruct (PyStr.truthy (Module_name u)) eqn:E.
  - right. now exists (Module_name u).
  - left. unfold PyStr.truthy in E. destruct (Module_name u); [reflexivity|discriminate].
Qed.

Lemma dotted_append (s t : string) : dotted s -> dotted t -> dotted (s +:+ t).
Proof.
  intros [->|(r & ->)] Ht; [exact Ht|]. right. exists (r +:+ t). reflexivity.
Qed.

(** X16.  The qualname of a unit inside a package starts with the
    qualname of that package: it is that qualname followed by nothing or
    by a dot and more, however deep the unit lies. *)
Theorem qualname_inside (w : World) (p a : addr) :
  wf_heap (heap w) -> inside (heap w) p a ->
  exists pq rest,
    qualname w p = Ok pq /\ qualname w a = Ok (pq +:+ rest) /\ dotted rest.
Proof.
  intros Hwf Hin. induction Hin as [a u Ea Ep|a u q Ea Ep _ IH].
  - pose proof (Hwf a u p Ea Ep) as Hlt.
    pose proof (lookup_lt_Some _ _ _ Ea) as Ha.
    destruct (qualname_rec_total (heap w) Hwf p) as [pq Epq]; [lia|].
    rewrite <- (qualname_fuel w p Hwf) in Epq by lia.
    exists pq. eexists. split; [exact Epq|]. split.
    + apply (qualname_child w a p u pq Hwf Ea Ep Epq).
    + apply dotted_name.
  - destruct IH as (pq & rest & Epq & Eq & Hd).
    exists pq. eexists. split; [exact Epq|]. split.
    + rewrite (qualname_child w a q u _ Hwf Ea Ep Eq). rewrite append_assoc. reflexivity.
    + apply dotted_append; [exact Hd | apply dotted_name].
Qed.

Lemma qualname_inside_witness :
  let w := snd (Project_iter_list tree_host tree_world) in
  qualname w 0 = Ok "pkg" /\ qualname w 7 = Ok "pkg.sub.x" /\
  exists pq rest,
    qualname w 0 = Ok pq /\ qualname w 7 = Ok (pq +:+ rest) /\ dotted rest.
Proof.
  intros w. split; [vm_compute; reflexivity|]. split; [vm_compute; reflexivity|].
  apply (qualname_inside w 0 7).
  - check_wf_heap.
  - eapply inside_step; [vm_compute; reflexivity | reflexivity |].
    eapply inside_child; [vm_compute; reflexivity | reflexivity].
Defined.

(** * The classes of the listed objects *)

Lemma keeps_kinds_refl (w : World) : keeps_kinds w w.
Proof. intros a u Ha. now exists u. Qed.

Lemma keeps_kinds_trans (w1 w2 w3 : World) :
  keeps_kinds w1 w2 -> keeps_kinds w2 w3 -> keeps_kinds w1 w3.
Proof.
  intros H12 H23 a u Ha. destruct (H12 a u Ha) as (u2 & Ha2 & E2).
  destruct (H23 a u2 Ha2) as (u3 & Ha3 & E3). exists u3. split; [exact Ha3 | congruence].
Qed.

Lemma keeps_kinds_app (w w' : World) (us : list Unit.t) :
  heap w' = heap w ++ us -> keeps_kinds w w'.
Proof. intros E a u Ha. exists u. rewrite E. split; [now apply lookup_app_l_Some | reflexivity]. Qed.

Lemma all_kind_keeps (w w' : World) (k : Kind) (l : list addr) :
  keeps_kinds w w' -> all_kind (heap w) k l -> all_kind (heap w') k l.
Proof.
  intros Hk Hl a Ha. destruct (Hl a Ha) as (u & Eu & Ek).
  destruct (Hk a u Eu) as (u' & Eu' & Ek'). exists u'. split; [exact Eu' | congruence].
Qed.

Lemma all_kind_app_heap (h us : list Unit.t) (k : Kind) (l : list addr) :
  all_kind h k l -> all_kind (h ++ us) k l.
Proof.
  intros Hl a Ha. destruct (Hl a Ha) as (u & Eu & Ek). exists u.
  split; [now apply lookup_app_l_Some | exact Ek].
Qed.

Lemma all_kind_new (h us : list Unit.t) (k : Kind) :
  Forall (fun u => Unit.kind u = k) us ->
  all_kind (h ++ us) k (seq (length h) (length us)).
Proof.
  intros Hus a Ha. apply elem_of_seq in Ha.
  destruct (lookup_lt_is_Some_2 us (a - length h)) as [u Eu]; [lia|].
  exists u. split.
  - rewrite lookup_app_r by lia. exact Eu.
  - rewrite Forall_forall in Hus. apply Hus. eapply list_elem_of_lookup_2. exact Eu.
Qed.

Lemma all_kind_app (h : list Unit.t) (k : Kind) (l1 l2 : list addr) :
  all_kind h k l1 -> all_kind h k l2 -> all_kind h k (l1 ++ l2).
Proof. intros H1 H2 a Ha. apply elem_of_app in Ha. destruct Ha; auto. Qed.

Lemma all_kind_nil (h : list Unit.t) (k : Kind) : all_kind h k [].
Proof. intros a Ha. now apply elem_of_nil in Ha. Qed.

(** Units that are not loaded, added at the end of the heap. *)
Lemma kinds_inv_grow (w w' : World) (us : list Unit.t) :
  kinds_inv w ->
  heap w' = heap w ++ us ->
  Forall unloaded us ->
  all_kind (heap w') KScript (Proj._scripts (project w')) ->
  all_kind (heap w') KModule (Proj._modules (project w')) ->
  all_kind (heap w') KPackage (Proj._packages (project w')) ->
  kinds_inv w'.
Proof.
  intros (_ & _ & _ & Hc) Eh Hus Hs Hm Hp.
  split; [exact Hs|]. split; [exact Hm|]. split; [exact Hp|].
  intros p u Ep. rewrite Eh in Ep. apply lookup_app_Some in Ep.
  destruct Ep as [Ep|[_ Ep]].
  - destruct (Hc p u Ep) as [Hms Hps]. rewrite Eh.
    split; intros l El; apply all_kind_app_heap; auto.
  - rewrite Forall_forall in Hus. apply list_elem_of_lookup_2 in Ep.
    destruct (Hus u Ep) as [Em Ev]. split; intros l El; congruence.
Qed.

Lemma kinds_inv_ext (w w' : World) :
  heap w' = heap w ->
  Proj._scripts (project w') = Proj._scripts (project w) ->
  Proj._modules (project w') = Proj._modules (project w) ->
  Proj._packages (project w') = Proj._packages (project w) ->
  kinds_inv w -> kinds_inv w'.
Proof.
  intros Eh Es Em Ep Hk. unfold kinds_inv. rewrite Eh, Es, Em, Ep. exact Hk.
Qed.

Lemma Forall_Module_init (H : Host) (k : Kind) (f : string -> string)
    (g : string -> option string) (par : Parent) (xs : list string) :
  Forall (fun u => Unit.kind u = k) (map (fun x => Module_init H k (f x) (g x) par) xs) /\
  Forall unloaded (map (fun x => Module_init H k (f x) (g x) par) xs).
Proof.
  split; apply Forall_forall; intros u Hu; apply list_elem_of_fmap in Hu;
    destruct Hu as (x & -> & _); [reflexivity | split; reflexivity].
Qed.

Lemma kinds_inv_with_scripts (H : Host) (src : string) (scripts : list string) (w : World) :
  kinds_inv w -> kinds_inv (with_scripts H src scripts w).
Proof.
  intros Hk. pose proof Hk as (Hs & Hm & Hp & _).
  destruct (Forall_Module_init H KScript (fun x => relpath H x src) (fun _ => None)
              PProject scripts) as [Hkind Hun].
  eapply kinds_inv_grow; [exact Hk | reflexivity | exact Hun | | | ].
  - cbn. apply all_kind_app; [now apply all_kind_app_heap|].
    rewrite <- (length_map (fun x => Module_init H KScript (relpath H x src) None PProject)).
    now apply all_kind_new.
  - cbn. now apply all_kind_app_heap.
  - cbn. now apply all_kind_app_heap.
Qed.

Lemma kinds_inv_with_modules (H : Host) (modules : list string) (w : World) :
  kinds_inv w -> kinds_inv (with_modules H modules w).
Proof.
  intros Hk. pose proof Hk as (Hs & Hm & Hp & _).
  destruct (Forall_Module_init H KModule (fun x => relpath H x (Proj.src (project w)))
              (fun _ => None) PProject modules) as [Hkind Hun].
  eapply kinds_inv_grow; [exact Hk | reflexivity | exact Hun | | | ].
  - cbn. now apply all_kind_app_heap.
  - cbn. apply all_kind_app; [now apply all_kind_app_heap|].
    rewrite <- (length_map (fun x => Module_init H KModule
                                       (relpath H x (Proj.src (project w))) None PProject)).
    now apply all_kind_new.
  - cbn. now apply all_kind_app_heap.
Qed.

Lemma kinds_inv_add_packages (us : list Unit.t) (w : World) :
  Forall (fun u => Unit.kind u = KPackage) us -> Forall unloaded us ->
  kinds_inv w -> kinds_inv (add_packages us w).
Proof.
  intros Hkind Hun Hk. pose proof Hk as (Hs & Hm & Hp & _).
  eapply kinds_inv_grow; [exact Hk | reflexivity | exact Hun | | | ].
  - cbn. now apply all_kind_app_heap.
  - cbn. now apply all_kind_app_heap.
  - cbn. apply all_kind_app; [now apply all_kind_app_heap | now apply all_kind_new].
Qed.

Lemma kinds_inv_with_packages (H : Host) (src : string) (name : option string)
    (excludes scripts modules packages : list string) (w : World) :
  kinds_inv w -> kinds_inv (with_packages H src name excludes scripts modules packages w).
Proof.
  intros Hk. unfold with_packages. destruct packages as [|item items].
  - destruct modules; [|exact Hk]. destruct scripts; [|exact Hk].
    destruct (path_exists H _).
    + apply kinds_inv_add_packages; [| |exact Hk]; repeat constructor.
    + destruct (Forall_Module_init H KPackage (fun x => x) (fun _ => None) PProject
                  (snd (scan_entries H GLOBAL_INCLS excludes (scandir H src))))
        as [Hkind Hun].
      apply kinds_inv_add_packages; [exact Hkind | exact Hun |].
      revert Hk. apply kinds_inv_ext; reflexivity.
  - apply kinds_inv_add_packages; [| |exact Hk]; unfold item_packages;
      apply Forall_forall; intros u Hu; apply list_elem_of_fmap in Hu;
      destruct Hu as (x & -> & _); [reflexivity | split; reflexivity].
Qed.

Lemma kinds_inv_Project_load (H : Host) (data : gmap string string) :
  preserves kinds_inv (Project_load H data).
Proof.
  intros w Hk. destruct (data !! "src") as [src|] eqn:E.
  2:{ rewrite (Project_load_no_src H data w E). cbn [snd]. revert Hk.
      apply kinds_inv_ext; reflexivity. }
  destruct (Project_load_run H data src w E) as (m2 & _ & ->).
  destruct (forallb item_ok (vlist data "packages")); cbn [snd].
  - apply kinds_inv_with_modules, kinds_inv_with_packages, kinds_inv_with_scripts, Hk.
  - apply kinds_inv_with_packages, kinds_inv_with_scripts, Hk.
Qed.

Lemma keeps_kinds_loaded_world (H : Host) (a : addr) (u : Unit.t) (dir : string) (w : World) :
  heap w !! a = Some u -> keeps_kinds w (loaded_world H a u dir w).
Proof.
  intros Ea b v Hb. destruct (decide (b = a)) as [->|Hne].
  - assert (v = u) as -> by congruence.
    eexists. split; [apply (loaded_world_lookup H a u dir w Ea) | reflexivity].
  - exists v. split; [now apply loaded_world_lookup_ne | reflexivity].
Qed.

Lemma keeps_kinds_Package_load (H : Host) (a : addr) (w : World) :
  keeps_kinds w (snd (Package_load H a w)).
Proof.
  destruct (Package_load_world H a w) as [->|(u & dir & Ea & ->)];
    [apply keeps_kinds_refl | now apply keeps_kinds_loaded_world].
Qed.

Lemma all_kind_insert (h : list Unit.t) (k : Kind) (l : list addr) (a : addr) (u x : Unit.t) :
  h !! a = Some u -> Unit.kind x = Unit.kind u ->
  all_kind h k l -> all_kind (<[a := x]> h) k l.
Proof.
  intros Ea Ek Hl b Hb. destruct (Hl b Hb) as (v & Ev & Ekv).
  destruct (decide (b = a)) as [->|Hne].
  - exists x. split; [apply list_lookup_insert_eq; now apply lookup_lt_Some in Ea|].
    congruence.
  - exists v. split; [now rewrite list_lookup_insert_ne by congruence | exact Ekv].
Qed.

Lemma kinds_inv_loaded_world (H : Host) (a : addr) (u : Unit.t) (dir : string) (w : World) :
  heap w !! a = Some u -> kinds_inv w -> kinds_inv (loaded_world H a u dir w).
Proof.
  intros Ea Hk. pose proof (keeps_kinds_loaded_world H a u dir w Ea) as Hkeep.
  destruct Hk as (Hs & Hm & Hp & Hc).
  split; [exact (all_kind_keeps _ _ _ _ Hkeep Hs)|].
  split; [exact (all_kind_keeps _ _ _ _ Hkeep Hm)|].
  split; [exact (all_kind_keeps _ _ _ _ Hkeep Hp)|].
  set (fd := scan_entries H GLOBAL_INCLS GLOBAL_EXCLS (scandir H dir)).
  set (M1 := map (fun x => Module_init H KModule x None (PUnit a)) (fst fd)).
  set (P1 := map (fun x => Module_init H KPackage x None (PUnit a)) (snd fd)).
  assert (Ea' : (heap w ++ M1 ++ P1) !! a = Some u) by now apply lookup_app_l_Some.
  intros p v Ep. destruct (decide (p = a)) as [->|Hne].
  - rewrite (loaded_world_lookup H a u dir w Ea) in Ep. inversion Ep; subst v. clear Ep.
    fold fd. cbn [Unit.set_children Unit._modules Unit._packages].
    split; intros l El; inversion El; subst l; unfold loaded_world; cbn [heap]; fold fd M1 P1;
      apply (all_kind_insert _ _ _ a u); try assumption; try reflexivity.
    + rewrite app_assoc. apply all_kind_app_heap.
      replace (length (fst fd)) with (length M1) by apply length_map.
      apply all_kind_new.
      apply (Forall_Module_init H KModule (fun x => x) (fun _ => None) (PUnit a) (fst fd)).
    + rewrite app_assoc.
      replace (length (heap w) + length (fst fd)) with (length (heap w ++ M1))
        by (rewrite length_app; unfold M1; now rewrite length_map).
      replace (length (snd fd)) with (length P1) by apply length_map.
      apply all_kind_new.
      apply (Forall_Module_init H KPackage (fun x => x) (fun _ => None) (PUnit a) (snd fd)).
  - unfold loaded_world in Ep. cbn [heap] in Ep.
    rewrite list_lookup_insert_ne in Ep by congruence.
    apply lookup_app_Some in Ep. destruct Ep as [Ep|[_ Ep]].
    + destruct (Hc p v Ep) as [Hms Hps].
      split; intros l El; apply (all_kind_keeps w); auto.
    + apply list_elem_of_lookup_2 in Ep. apply elem_of_app in Ep.
      destruct Ep as [Ep|Ep]; apply list_elem_of_fmap in Ep;
        destruct Ep as (x & -> & _); split; intros l El; discriminate El.
Qed.

Lemma kinds_inv_Package_load (H : Host) (a : addr) : preserves kinds_inv (Package_load H a).
Proof.
  intros w Hk. destruct (Package_load_world H a w) as [->|(u & dir & Ea & ->)];
    [exact Hk | now apply kinds_inv_loaded_world].
Qed.

Lemma log_unknown_call_lists (func : Func) (w : World) :
  let w' := snd (log_unknown_call func w) in
  heap w' = heap w /\
  Proj._scripts (project w') = Proj._scripts (project w) /\
  Proj._modules (project w') = Proj._modules (project w) /\
  Proj._packages (project w') = Proj._packages (project w) /\
  Proj._rmodules (project w') = Proj._rmodules (project w).
Proof.
  unfold log_unknown_call. destruct func as [s|m scopes].
  - destruct (PyStr.split ":" s !! 2) as [f2|]; [|repeat split; reflexivity].
    destruct (_ =? _)%Z; [repeat split; reflexivity|].
    unfold bind, get_project. destruct (bool_decide _); repeat split; reflexivity.
  - unfold bind, get_project. destruct (bool_decide _); repeat split; reflexivity.
Qed.

Lemma reachable_kinds_inv (H : Host) (w : World) : reachable H w -> kinds_inv w.
Proof.
  induction 1 as [lp|data w _ IH|a w _ IH|a w _ IH|a w _ IH|name w _ IH|m v w _ IH|f w _ IH].
  - split; [apply all_kind_nil|]. split; [apply all_kind_nil|].
    split; [apply all_kind_nil|]. intros p u Hp. cbn [new_world heap] in Hp.
    now rewrite lookup_nil in Hp.
  - now apply kinds_inv_Project_load.
  - now apply kinds_inv_Package_load.
  - apply (preserves_Package_modules kinds_inv); [apply kinds_inv_Package_load | exact IH].
  - apply (preserves_Package_packages kinds_inv); [apply kinds_inv_Package_load | exact IH].
  - apply (preserves_Project_get_module kinds_inv); [apply kinds_inv_Package_load | | exact IH].
    intros r w' Hw'. revert Hw'. apply kinds_inv_ext; reflexivity.
  - rewrite log_unknown_var_eq. cbn [snd].
    destruct (bool_decide _); [exact IH|]. revert IH. apply kinds_inv_ext; reflexivity.
  - destruct (log_unknown_call_lists f w) as (Eh & E1 & E2 & E3 & _).
    revert IH. now apply kinds_inv_ext.
Qed.

Lemma preserves_Project_iter_module {St : Type} (I : World -> Prop) (H : Host)
    (body : addr -> St -> M St) (s : St) :
  (forall a, preserves I (Package_load H a)) ->
  (forall x s', preserves I (body x s')) ->
  preserves I (Project_iter_module H body s).
Proof.
  intros Hl Hb. unfold Project_iter_module.
  apply preserves_bind; [apply preserves_get_project|]. intros p.
  apply preserves_bind; [now apply preserves_foldM|]. intros s1.
  apply preserves_bind; [apply preserves_get_project|]. intros p'.
  apply preserves_bind.
  - apply preserves_foldM. intros x s'. now apply preserves_Package_iter_module.
  - intros s2. destruct (Proj._namespaces p'); [apply preserves_ret | apply preserves_raise].
Qed.

Lemma Project_get_module_raise (H : Host) (name : string) (w w1 : World) (e : exn) :
  Project_get_module H name w = (Raise e, w1) -> project w1 = project w.
Proof.
  destruct (Proj._rmodules (project w)) as [idx|] eqn:Er.
  { rewrite (Project_get_module_indexed H name w idx Er). discriminate. }
  unfold Project_get_module. unfold bind at 1. cbn [get_project]. rewrite Er.
  unfold bind at 1. unfold bind at 1.
  destruct (Project_iter_module H index_unit ∅ w) as [[idx|e0] w'] eqn:Ei.
  - cbn [modify_project]. unfold bind.
    cbn [get_project project Proj.set_rmodules Proj._rmodules ret]. discriminate.
  - intros E. inversion E; subst. change w1 with (snd (@Raise (gmap string addr) e, w1)).
    rewrite <- Ei.
    apply (preserves_Project_iter_module (fun w0 => project w0 = project w));
      [| |reflexivity].
    + intros a. apply project_Package_load.
    + intros x s'. apply preserves_index_unit.
Qed.

Lemma tree_module_kind (w : World) (x : addr) :
  kinds_inv w -> tree_module w x ->
  exists u, heap w !! x = Some u /\ Unit.kind u = KModule.
Proof.
  intros (_ & Hm & _ & Hc) [Hx|(p & u & ms & _ & Ep & Em & Hx)].
  - exact (Hm x Hx).
  - destruct (Hc p u Ep) as [Hms _]. exact (Hms ms Em x Hx).
Qed.

Lemma index_kinds_keeps (w w' : World) :
  keeps_kinds w w' -> Proj._rmodules (project w') = Proj._rmodules (project w) ->
  index_kinds w -> index_kinds w'.
Proof.
  intros Hk Er Hi idx Eidx k x Hx. rewrite Er in Eidx.
  destruct (Hi idx Eidx k x Hx) as (u & Eu & Ek).
  destruct (Hk x u Eu) as (u' & Eu' & Ek'). exists u'. split; [exact Eu' | congruence].
Qed.

Lemma index_kinds_Package_load (H : Host) (a : addr) :
  preserves index_kinds (Package_load H a).
Proof.
  intros w Hi. apply (index_kinds_keeps w); [apply keeps_kinds_Package_load| |exact Hi].
  f_equal. now apply (project_Package_load H (project w) a w).
Qed.

Lemma reachable_index_kinds (H : Host) (w : World) : reachable H w -> index_kinds w.
Proof.
  induction 1 as [lp|data w Hw IH|a w _ IH|a w _ IH|a w _ IH|name w Hw IH|m v w _ IH|f w _ IH].
  - intros idx E. discriminate E.
  - apply (index_kinds_keeps w); [| |exact IH].
    + destruct (Project_load_extends H data w) as (l & _ & _ & _ & Hh & _).
      exact (keeps_kinds_app _ _ l Hh).
    + pose proof (Project_load_frame H data w) as Ef. unfold frame_of in Ef.
      now inversion Ef.
  - now apply index_kinds_Package_load.
  - apply (preserves_Package_modules index_kinds); [apply index_kinds_Package_load | exact IH].
  - apply (preserves_Package_packages index_kinds); [apply index_kinds_Package_load | exact IH].
  - destruct (Proj._rmodules (project w)) as [idx|] eqn:Er.
    { now rewrite (Project_get_module_indexed H name w idx Er). }
    destruct (Project_get_module H name w) as [[r|e] w1] eqn:E; cbn [snd].
    + pose proof (reachable_kinds_inv H w1) as Hk1.
      destruct (Project_get_module_first H name w w1 r Er E) as (idx & w' & Ei & Ew1 & _).
      destruct (Project_iter_module_sound H w w' idx) as (_ & _ & Hi);
        [apply (reachable_heap_inv H w Hw) | exact Ei |].
      pose proof (index_sound_fills _ _ idx (fills_set_rmodules w' (Some idx)) Hi) as Hi'.
      rewrite <- Ew1 in Hi'.
      intros idx1 Eidx1 k x Hx. apply tree_module_kind.
      * apply Hk1. change w1 with (snd (Ok r, w1)). rewrite <- E.
        now apply reach_get_module.
      * assert (idx1 = idx) as ->.
        { rewrite Ew1 in Eidx1. cbn in Eidx1. congruence. }
        exact (proj1 (Hi' k x Hx)).
    + intros idx Eidx. rewrite (Project_get_module_raise H name w w1 e E) in Eidx. congruence.
  - rewrite log_unknown_var_eq. cbn [snd].
    destruct (bool_decide _); [exact IH|]. exact IH.
  - destruct (log_unknown_call_lists f w) as (Eh & _ & _ & _ & Er).
    apply (index_kinds_keeps w); [|exact Er|exact IH].
    intros a u Ha. exists u. now rewrite Eh.
Qed.

(** X17.  [Project.get_module] never hands out a script or a package:
    on a project built by the methods, what it returns is an object of
    class [Module]. *)
Theorem Project_get_module_kind (H : Host) (name : string) (w w1 : World) (a : addr) :
  reachable H w ->
  Project_get_module H name w = (Ok (Some a), w1) ->
  exists u, heap w1 !! a = Some u /\ Unit.kind u = KModule.
Proof.
  intros Hw E.
  assert (Hi : index_kinds w1).
  { apply (reachable_index_kinds H). change w1 with (snd (Ok (Some a), w1)).
    rewrite <- E. now apply reach_get_module. }
  destruct (Proj._rmodules (project w)) as [idx|] eqn:Er.
  - rewrite (Project_get_module_indexed H name w idx Er) in E. inversion E; subst w1.
    apply (Hi idx Er name a). congruence.
  - destruct (Project_get_module_first H name w w1 (Some a) Er E) as (idx & w' & _ & Ew1 & Ea).
    refine (Hi idx _ name a _); [rewrite Ew1; reflexivity | now symmetry].
Qed.

Lemma Project_get_module_kind_witness :
  let w := snd (Project_load tree_host tree_data (new_world "/home/dev/.pyarmor")) in
  exists u, heap (snd (Project_get_module tree_host "pkg.sub.x" w)) !! 7 = Some u /\
            Unit.kind u = KModule.
Proof.
  intros w.
  apply (Project_get_module_kind tree_host "pkg.sub.x" w).
  - apply reach_load, reach_new.
  - vm_compute. reflexivity.
Defined.

Lemma foldM_iter_kinds (iter : addr -> list addr -> M (list addr)) :
  iter_kinds iter ->
  forall ps acc w l w',
    kinds_inv w -> all_kind (heap w) KModule acc ->
    foldM iter ps acc w = (Ok l, w') ->
    kinds_inv w' /\ keeps_kinds w w' /\ all_kind (heap w') KModule l.
Proof.
  intros Hiter ps. induction ps as [|p ps IH]; intros acc w l w' Hk Hacc.
  - cbn [foldM ret]. intros E. inversion E; subst.
    split; [exact Hk|]. split; [apply keeps_kinds_refl | exact Hacc].
  - cbn [foldM]. unfold bind at 1.
    destruct (iter p acc w) as [[l1|e] w1] eqn:E1; [|discriminate].
    destruct (Hiter p acc w l1 w1 Hk Hacc E1) as (Hk1 & Hkeep1 & Hl1).
    intros E. destruct (IH l1 w1 l w' Hk1 Hl1 E) as (Hk2 & Hkeep2 & Hl2).
    split; [exact Hk2|]. split; [eapply keeps_kinds_trans; eassumption | exact Hl2].
Qed.

Lemma Package_iter_module_kinds (H : Host) (d : nat) :
  iter_kinds (fun a acc => Package_iter_module H d a collect acc).
Proof.
  induction d as [|d IH]; intros a acc w l w' Hk Hacc; [discriminate|].
  cbn [Package_iter_module]. unfold bind at 1.
  destruct (get_package a w) as [[u|e] w0] eqn:Eg; [|discriminate].
  apply get_package_inv in Eg. destruct Eg as (-> & Ea & Ek).
  unfold bind at 1.
  destruct (match Unit._modules u, Unit._packages u with
            | Some _, Some _ => ret tt
            | _, _ => Package_load H a
            end w) as [[[]|e] w1] eqn:El; [|discriminate].
  assert (Hstep : kinds_inv w1 /\ keeps_kinds w w1).
  { change w1 with (snd (Ok tt, w1)). rewrite <- El.
    destruct (Unit._modules u), (Unit._packages u);
      first [ split; [exact Hk | apply keeps_kinds_refl]
            | split; [now apply kinds_inv_Package_load | apply keeps_kinds_Package_load] ]. }
  destruct Hstep as [Hk1 Hkeep1].
  unfold bind at 1.
  destruct (get_package a w1) as [[u1|e] w0] eqn:Eg1; [|discriminate].
  apply get_package_inv in Eg1. destruct Eg1 as (-> & Ea1 & Ek1).
  unfold bind at 1.
  destruct (Unit._modules u1) as [ms|] eqn:Em1; [|discriminate].
  cbn [iter_attr ret]. unfold bind at 1. rewrite foldM_collect.
  unfold bind at 1. rewrite (get_package_ok a u1 w1 Ea1 Ek1).
  unfold bind at 1.
  destruct (Unit._packages u1) as [ps|] eqn:Ep1; [|discriminate].
  cbn [iter_attr ret]. intros E.
  destruct (foldM_iter_kinds _ IH ps (acc ++ ms) w1 l w') as (Hk2 & Hkeep2 & Hl); try assumption.
  { apply all_kind_app; [exact (all_kind_keeps _ _ _ _ Hkeep1 Hacc)|].
    destruct Hk1 as (_ & _ & _ & Hc). exact (proj1 (Hc a u1 Ea1) ms Em1). }
  split; [exact Hk2|]. split; [eapply keeps_kinds_trans; eassumption | exact Hl].
Qed.

(** X18.  Iterating a package or the project yields modules only, never
    a package or a script, on any project built by the methods. *)
Theorem iter_module_yields_modules (H : Host) (w : World) :
  reachable H w ->
  (forall d a l w', Package_iter_list H d a w = (Ok l, w') ->
                    all_kind (heap w') KModule l) /\
  (forall l w', Project_iter_list H w = (Ok l, w') -> all_kind (heap w') KModule l).
Proof.
  intros Hw. pose proof (reachable_kinds_inv H w Hw) as Hk. split.
  - intros d a l w' E.
    apply (Package_iter_module_kinds H d a [] w l w' Hk); [apply all_kind_nil | exact E].
  - intros l w'. unfold Project_iter_list, Project_iter_module.
    unfold bind at 1. cbn [get_project]. unfold bind at 1. rewrite foldM_collect.
    unfold bind at 1. cbn [get_project]. unfold bind at 1.
    destruct (foldM (fun child s' => Package_iter_module H (recursion_limit H) child collect s')
                (Proj._packages (project w)) ([] ++ Proj._modules (project w)) w)
      as [[l2|e] w2] eqn:Ef; [|discriminate].
    destruct (foldM_iter_kinds _ (Package_iter_module_kinds H (recursion_limit H))
                (Proj._packages (project w)) ([] ++ Proj._modules (project w)) w l2 w2 Hk)
      as (_ & _ & Hl); [|exact Ef|].
    { cbn [app]. now destruct Hk as (_ & Hm & _). }
    destruct (Proj._namespaces (project w)); [|discriminate].
    cbn [ret]. intros E. inversion E; subst. exact Hl.
Qed.

Lemma iter_module_yields_modules_witness :
  all_kind (heap (snd (Project_iter_list tree_host tree_world))) KModule [1; 2; 3; 4; 6; 7].
Proof.
  refine (proj2 (iter_module_yields_modules tree_host tree_world _) _ _ _).
  - apply reach_load, reach_new.
  - vm_compute. reflexivity.
Defined.

(** * Parsing and compiling *)

Section CompileProps.

Context {Ast Code E : Type}.

Lemma Module_parse_file_attrs (H : Host) (T : Toolchain Ast Code E) (force : bool)
    (a : addr) (w : World) (c : Attrs.t Ast Code) :
  let r := Module_parse_file H T force a w c in
  Attrs._co (snd r) = Attrs._co c /\
  (forall b, b <> a -> Attrs._tree (snd r) !! b = Attrs._tree c !! b) /\
  (forall b, is_Some (Attrs._tree c !! b) -> is_Some (Attrs._tree (snd r) !! b)) /\
  (fst r = Returns tt -> is_Some (Attrs._tree (snd r) !! a)) /\
  (forall e, fst r = Raises e -> Attrs._tree (snd r) = Attrs._tree c).
Proof.
  unfold Module_parse_file.
  assert (Hskip : is_Some (Attrs._tree c !! a) ->
            let r := (@Returns E unit tt, c) in
            Attrs._co (snd r) = Attrs._co c /\
            (forall b, b <> a -> Attrs._tree (snd r) !! b = Attrs._tree c !! b) /\
            (forall b, is_Some (Attrs._tree c !! b) -> is_Some (Attrs._tree (snd r) !! b)) /\
            (fst r = Returns tt -> is_Some (Attrs._tree (snd r) !! a)) /\
            (forall e, fst r = Raises e -> Attrs._tree (snd r) = Attrs._tree c)).
  { intros Hs. cbn. repeat split; auto. }
  assert (Hrun :
    let r := match fst (Module_abspath H a w) with
      | Raise e => (Raises (Py e), c)
      | Ok filename =>
          let c1 := Attrs.note_open filename c in
          match detect_encoding T filename with
          | inl e => (Raises (Ext e), c1)
          | inr encoding =>
              let c2 := Attrs.note_open filename c1 in
              match open_text T filename encoding with
              | Some e => (Raises (Ext e), c2)
              | None =>
                  match qualname w a with
                  | Raise e => (Raises (Py e), c2)
                  | Ok _ =>
                      match read_parse T filename encoding with
                      | inl e => (Raises (Ext e), c2)
                      | inr tree => (Returns tt, Attrs.set_tree a tree c2)
                      end
                  end
              end
          end
      end in
    Attrs._co (snd r) = Attrs._co c /\
    (forall b, b <> a -> Attrs._tree (snd r) !! b = Attrs._tree c !! b) /\
    (forall b, is_Some (Attrs._tree c !! b) -> is_Some (Attrs._tree (snd r) !! b)) /\
    (fst r = Returns tt -> is_Some (Attrs._tree (snd r) !! a)) /\
    (forall e, fst r = Raises e -> Attrs._tree (snd r) = Attrs._tree c)).
  { destruct (fst (Module_abspath H a w)) as [filename|e0];
      [|cbn; repeat split; auto; discriminate].
    cbv zeta.
    destruct (detect_encoding T filename) as [e0|encoding];
      [cbn; repeat split; auto; discriminate|].
    destruct (open_text T filename encoding) as [e0|];
      [cbn; repeat split; auto; discriminate|].
    destruct (qualname w a) as [q|e0]; [|cbn; repeat split; auto; discriminate].
    destruct (read_parse T filename encoding) as [e0|tree];
      [cbn; repeat split; auto; discriminate|].
    cbn. split; [reflexivity|]. split; [|split; [|split]].
    - intros b Hb. now rewrite lookup_insert_ne by congruence.
    - intros b Hb. destruct (decide (b = a)) as [->|Hne].
      + rewrite lookup_insert_eq. now eexists.
      + now rewrite lookup_insert_ne by congruence.
    - intros _. rewrite lookup_insert_eq. now eexists.
    - intros e0 E0. discriminate E0. }
  destruct (Attrs._tree c !! a) as [t0|] eqn:Et; [|exact Hrun].
  destruct force; [exact Hrun|]. apply Hskip. now eexists.
Qed.

Lemma Module_parse_file_skips (H : Host) (T : Toolchain Ast Code E) (a : addr) (w : World)
    (c : Attrs.t Ast Code) :
  is_Some (Attrs._tree c !! a) -> Module_parse_file H T false a w c = (Returns tt, c).
Proof. intros [t0 Et]. unfold Module_parse_file. now rewrite Et. Qed.

Lemma Module_compile_file_skips (H : Host) (T : Toolchain Ast Code E) (a : addr) (w : World)
    (c : Attrs.t Ast Code) :
  is_Some (Attrs._co c !! a) -> Module_compile_file H T false a w c = (Returns tt, c).
Proof. intros [k Ek]. unfold Module_compile_file. now rewrite Ek. Qed.

(** After the test of [_co], [compile_file] is [parse_file] and then
    [compile] on the tree that [parse_file] left. *)
Lemma Module_compile_file_run (H : Host) (T : Toolchain Ast Code E) (force : bool)
    (a : addr) (w : World) (c : Attrs.t Ast Code) :
  (is_Some (Attrs._co c !! a) /\ force = false /\
   Module_compile_file H T force a w c = (Returns tt, c)) \/
  let p := Module_parse_file H T force a w c in
  (exists e, fst p = Raises e /\ Module_compile_file H T force a w c = (Raises e, snd p)) \/
  (fst p = Returns tt /\
   ((exists e, Module_compile_file H T force a w c = (Raises e, snd p)) \/
    (exists tree co filename, Attrs._tree (snd p) !! a = Some tree /\
       compile T tree filename = inr co /\
       Module_compile_file H T force a w c = (Returns tt, Attrs.set_co a co (snd p))))).
Proof.
  unfold Module_compile_file.
  assert (Hrun :
    let p := Module_parse_file H T force a w c in
    let r := match p with
      | (Raises e, c1) => (Raises e, c1)
      | (Returns _, c1) =>
          match qualname w a with
          | Raise e => (Raises (Py e), c1)
          | Ok _ =>
              match fst (Module_abspath H a w) with
              | Raise e => (Raises (Py e), c1)
              | Ok filename =>
                  match Attrs._tree c1 !! a with
                  | None => (Raises (Py TypeError), c1)
                  | Some tree =>
                      match compile T tree filename with
                      | inl e => (Raises (Ext e), c1)
                      | inr co => (Returns tt, Attrs.set_co a co c1)
                      end
                  end
              end
          end
      end in
    (exists e, fst p = Raises e /\ r = (Raises e, snd p)) \/
    (fst p = Returns tt /\
     ((exists e, r = (Raises e, snd p)) \/
      (exists tree co filename, Attrs._tree (snd p) !! a = Some tree /\
         compile T tree filename = inr co /\
         r = (Returns tt, Attrs.set_co a co (snd p)))))).
  { cbv zeta. destruct (Module_parse_file H T force a w c) as [[[]|e] c1]; cbn [fst snd].
    2:{ left. now exists e. }
    right. split; [reflexivity|].
    destruct (qualname w a) as [q|e]; [|left; now eexists].
    destruct (fst (Module_abspath H a w)) as [filename|e]; [|left; now eexists].
    destruct (Attrs._tree c1 !! a) as [tree|] eqn:Et; [|left; now eexists].
    destruct (compile T tree filename) as [e|co] eqn:Ec; [left; now eexists|].
    right. exists tree, co, filename. auto. }
  destruct (Attrs._co c !! a) as [k|] eqn:Ek; [|right; exact Hrun].
  destruct force; [right; exact Hrun|]. left. split; [now eexists|]. auto.
Qed.

Lemma compiled_parsed_parse (H : Host) (T : Toolchain Ast Code E) (force : bool)
    (a : addr) (w : World) (c : Attrs.t Ast Code) :
  compiled_parsed c -> compiled_parsed (snd (Module_parse_file H T force a w c)).
Proof.
  intros Hc b Hb.
  destruct (Module_parse_file_attrs H T force a w c) as (Eco & _ & Hmono & _).
  rewrite Eco in Hb. apply Hmono, Hc, Hb.
Qed.

Lemma compiled_parsed_compile (H : Host) (T : Toolchain Ast Code E) (force : bool)
    (a : addr) (w : World) (c : Attrs.t Ast Code) :
  compiled_parsed c -> compiled_parsed (snd (Module_compile_file H T force a w c)).
Proof.
  intros Hc.
  pose proof (compiled_parsed_parse H T force a w c Hc) as Hp.
  destruct (Module_compile_file_run H T force a w c)
    as [(_ & _ & ->)|[(e & _ & ->)|(_ & [(e & ->)|(tree & co & fn & Et & _ & ->)])]];
    cbn [snd]; try assumption.
  intros b Hb. unfold Attrs.set_co in *. cbn [Attrs._tree Attrs._co] in *.
  destruct (decide (b = a)) as [->|Hne].
  - rewrite Et. now eexists.
  - rewrite lookup_insert_ne in Hb by congruence. now apply Hp.
Qed.

Lemma compiled_parsed_init : compiled_parsed (@Attrs.init Ast Code).
Proof. intros a [k Hk]. cbn in Hk. now rewrite lookup_empty in Hk. Qed.

(** X19.  Whatever calls of [parse_file] and [compile_file] were made
    on whatever objects, with or without [force], returning or raising:
    an object that holds a code object holds a tree as well. *)
Theorem attrs_reachable_compiled_parsed (c : Attrs.t Ast Code) :
  @attrs_reachable Ast Code E c -> compiled_parsed c.
Proof.
  induction 1 as [|H T force a w c _ IH|H T force a w c _ IH].
  - apply compiled_parsed_init.
  - now apply compiled_parsed_parse.
  - now apply compiled_parsed_compile.
Qed.

(** X20.  Once [compile_file] has returned, the object holds a tree and
    a code object, and a later [compile_file()] or [parse_file()]
    without [force] returns at once: it opens no file and changes
    nothing, whatever the files hold by then. *)
Theorem Module_compile_file_cached (H : Host) (T : Toolchain Ast Code E) (force : bool)
    (a : addr) (w : World) (c c1 : Attrs.t Ast Code) :
  compiled_parsed c ->
  Module_compile_file H T force a w c = (Returns tt, c1) ->
  is_Some (Attrs._tree c1 !! a) /\ is_Some (Attrs._co c1 !! a) /\
  forall (H' : Host) (T' : Toolchain Ast Code E) (w' : World),
    Module_compile_file H' T' false a w' c1 = (Returns tt, c1) /\
    Module_parse_file H' T' false a w' c1 = (Returns tt, c1).
Proof.
  intros Hc E0.
  assert (Hboth : is_Some (Attrs._tree c1 !! a) /\ is_Some (Attrs._co c1 !! a)).
  { destruct (Module_compile_file_run H T force a w c)
      as [(Hk & _ & E1)|[(e & _ & E1)|(_ & [(e & E1)|(tree & co & fn & Et & _ & E1)])]];
      rewrite E1 in E0; inversion E0; subst c1.
    - split; [now apply Hc | exact Hk].
    - unfold Attrs.set_co. cbn [Attrs._tree Attrs._co].
      split; [rewrite Et; now eexists | rewrite lookup_insert_eq; now eexists]. }
  destruct Hboth as [Ht Hk]. split; [exact Ht|]. split; [exact Hk|].
  intros H' T' w'. split;
    [now apply Module_compile_file_skips | now apply Module_parse_file_skips].
Qed.

(** X21.  When [compile_file] raises, no code object has changed and
    the trees of the other objects are as before.  The tree of the
    object itself is not rolled back: if [parse_file] had returned, the
    object holds a tree, though [compile_file] failed. *)
Theorem Module_compile_file_raises (H : Host) (T : Toolchain Ast Code E) (force : bool)
    (a : addr) (w : World) (c c1 : Attrs.t Ast Code) (e : raised E) :
  Module_compile_file H T force a w c = (Raises e, c1) ->
  Attrs._co c1 = Attrs._co c /\
  (forall b, b <> a -> Attrs._tree c1 !! b = Attrs._tree c !! b) /\
  (fst (Module_parse_file H T force a w c) = Returns tt -> is_Some (Attrs._tree c1 !! a)).
Proof.
  intros E0.
  destruct (Module_parse_file_attrs H T force a w c) as (Eco & Hother & _ & Hret & _).
  destruct (Module_compile_file_run H T force a w c)
    as [(_ & _ & E1)|[(e1 & Ep & E1)|(Ep & [(e1 & E1)|(tree & co & fn & _ & _ & E1)])]];
    rewrite E1 in E0; inversion E0; subst.
  - split; [exact Eco|]. split; [exact Hother|]. intros Ep'. congruence.
  - split; [exact Eco|]. split; [exact Hother|]. intros _. now apply Hret.
Qed.

(** X22.  Without [force], [compile_file] on an object that holds a
    tree opens no file and keeps the tree: a code object it assigns is
    what [compile] made of the tree held before the call, whatever the
    file holds by then. *)
Theorem Module_compile_file_keeps_tree (H : Host) (T : Toolchain Ast Code E)
    (a : addr) (w : World) (c : Attrs.t Ast Code) (tree : Ast) :
  Attrs._tree c !! a = Some tree ->
  let c1 := snd (Module_compile_file H T false a w c) in
  Attrs.opened c1 = Attrs.opened c /\ Attrs._tree c1 = Attrs._tree c /\
  forall co, Attrs._co c1 !! a = Some co ->
    Attrs._co c !! a = Some co \/ exists filename, compile T tree filename = inr co.
Proof.
  intros Et.
  assert (Ht : is_Some (Attrs._tree c !! a)) by (rewrite Et; now eexists).
  pose proof (Module_parse_file_skips H T a w c Ht) as Ep.
  destruct (Module_compile_file_run H T false a w c)
    as [(_ & _ & ->)|[(e1 & _ & ->)|(_ & [(e1 & ->)|(tree' & co' & fn & Et' & Ec & ->)])]];
    rewrite ?Ep; cbn [snd]; try (repeat split; auto; fail).
  rewrite Ep in Et'. cbn [snd] in Et'.
  assert (tree' = tree) as -> by congruence.
  unfold Attrs.set_co. cbn [Attrs.opened Attrs._tree Attrs._co].
  split; [reflexivity|]. split; [reflexivity|].
  intros co Hco. rewrite lookup_insert_eq in Hco. inversion Hco; subst co'.
  right. now exists fn.
Qed.

End CompileProps.

Lemma attrs_reachable_compiled_parsed_witness :
  compiled_parsed
    (snd (Module_compile_file tree_host (text_tools "v2" ["/src/a.py"] []) true 2 tree_world
            (snd (Module_parse_file tree_host (text_tools "v1" [] []) false 4 tree_world
                    Attrs.init)))).
Proof.
  apply (attrs_reachable_compiled_parsed (E := string)).
  apply attrs_compile, attrs_parse, attrs_new.
Defined.

Lemma Module_compile_file_cached_witness :
  let c1 := snd (Module_compile_file tree_host (text_tools "v1" ["/src/a.py"] []) false 2
                   tree_world Attrs.init) in
  Attrs.opened c1 = ["/src/a.py"; "/src/a.py"] /\
  Attrs._co c1 !! 2 = Some "code of v1 of /src/a.py" /\
  is_Some (Attrs._tree c1 !! 2) /\ is_Some (Attrs._co c1 !! 2) /\
  forall (H' : Host) (T' : Toolchain string string string) (w' : World),
    Module_compile_file H' T' false 2 w' c1 = (Returns tt, c1) /\
    Module_parse_file H' T' false 2 w' c1 = (Returns tt, c1).
Proof.
  intros c1. split; [vm_compute; reflexivity|]. split; [vm_compute; reflexivity|].
  apply (Module_compile_file_cached tree_host (text_tools "v1" ["/src/a.py"] []) false 2
           tree_world Attrs.init c1).
  - apply compiled_parsed_init.
  - vm_compute. reflexivity.
Defined.

Lemma Module_compile_file_raises_witness :
  let c := snd (Module_compile_file tree_host (text_tools "v1" ["/src/a.py"] []) false 2
                  tree_world Attrs.init) in
  let r := Module_compile_file tree_host
             (text_tools "v2" ["/src/a.py"] ["v2 of /src/a.py"]) true 2 tree_world c in
  fst r = Raises (Ext "SyntaxError") /\
  Attrs._tree (snd r) !! 2 = Some "v2 of /src/a.py" /\
  Attrs._co (snd r) !! 2 = Some "code of v1 of /src/a.py" /\
  Attrs._co (snd r) = Attrs._co c /\
  (forall b, b <> 2 -> Attrs._tree (snd r) !! b = Attrs._tree c !! b).
Proof.
  intros c r. split; [vm_compute; reflexivity|]. split; [vm_compute; reflexivity|].
  split; [vm_compute; reflexivity|].
  destruct (Module_compile_file_raises tree_host
              (text_tools "v2" ["/src/a.py"] ["v2 of /src/a.py"]) true 2 tree_world c
              (snd r) (Ext "SyntaxError")) as (Hco & Hother & _).
  - vm_compute. reflexivity.
  - split; [exact Hco | exact Hother].
Defined.

Lemma Module_compile_file_keeps_tree_witness :
  let c := snd (Module_parse_file tree_host (text_tools "v1" ["/src/a.py"] []) false 2
                  tree_world Attrs.init) in
  let c1 := snd (Module_compile_file tree_host (text_tools "v2" ["/src/a.py"] []) false 2
                   tree_world c) in
  Attrs._co c1 !! 2 = Some "code of v1 of /src/a.py" /\
  Attrs.opened c1 = Attrs.opened c /\ Attrs._tree c1 = Attrs._tree c.
Proof.
  intros c c1. split; [vm_compute; reflexivity|].
  destruct (Module_compile_file_keeps_tree tree_host (text_tools "v2" ["/src/a.py"] []) 2
              tree_world c "v1 of /src/a.py") as (Ho & Ht & _).
  - vm_compute. reflexivity.
  - split; [exact Ho | exact Ht].
Defined.

(** * When [get_module] raises *)

(** A lookup is not always answered: the first call of
    [Project.get_module], which walks the whole tree, raises
    [RecursionError] where the packages are nested deeper than the
    interpreter has room for, and the [OSError] of [os.scandir] where
    the directory of a package cannot be listed; a qualname that no
    module has is then not reported as not found.  Both projects are
    built by [Project.load] alone. *)
Lemma Project_get_module_not_found_raises :
  (let H := with_limit 1 tree_host in
   let w := snd (Project_load H tree_data (new_world "/home/dev/.pyarmor")) in
   let rw := Project_get_module H "never.present" w in
   reachable H w /\
   fst rw = Raise RecursionError /\
   fst (Project_get_module H "never.present" (snd rw)) = Raise RecursionError) /\
  (let data : gmap string string := <["packages" := "nolib"]> {["src" := "/proj"]} in
   let w := snd (Project_load scenario_host data (new_world "/home/dev/.pyarmor")) in
   reachable scenario_host w /\
   os_run (os_without ["/proj/nolib"]) (Project_get_module scenario_host "never.present") w
   = Raises (Ext (OSError "/proj/nolib"))).
Proof.
  split.
  - cbv zeta. split; [apply reach_load, reach_new|]. split; vm_compute; reflexivity.
  - cbv zeta. split; [apply reach_load, reach_new|]. vm_compute. reflexivity.
Qed.
